(** * Transform-feedback conformance tests: type paths, layout and topology

    A shallow embedding of the TypeScript sources

      - framework/opengl/gluShaderUtil.ts   (data-type algebra)
      - framework/opengl/gluVarType.ts      (VarType model)
      - framework/opengl/gluVarTypeUtil.ts  (type paths, tokenizer, iterators)
      - framework/opengl/gluDrawUtil.ts     (primitive types)
      - the transform-feedback test module  (layout, topology arithmetic,
                                             comparison, failure classes)

    JavaScript numbers that only ever hold integers are modelled by [Z];
    where the source divides with [/] the result is a rational, modelled
    by [Q]. A double equals that rational when the quotient is an integer
    or a dyadic fraction and differs from it by rounding otherwise; the
    statements below about such results only tell them from integers. The
    float comparison of captured values is modelled by binary64 numbers
    ([PrimFloat]). A thrown exception is the [Throw] case of [result], with
    the literal text of the message. Loops without a structural bound take
    a fuel argument and return [None] when it runs out. *)

From Stdlib Require Import ZArith List String Ascii Bool Lia QArith Qround Sorted.
From Stdlib Require Import DecimalString PrimFloat SpecFloat FloatOps.
Import ListNotations.
Local Open Scope string_scope.
Local Open Scope list_scope.
Local Open Scope Z_scope.

(* ================================================================== *)
(** ** Exceptions *)

Inductive result (A : Type) : Type :=
| Ok (a : A)
| Throw (msg : string).
Arguments Ok {A} a.
Arguments Throw {A} msg.

Definition bind {A B : Type} (r : result A) (k : A -> result B) : result B :=
  match r with
  | Ok a => k a
  | Throw m => Throw m
  end.

Notation "x <- r ;; k" := (bind r (fun x => k))
  (at level 61, r at next level, right associativity).

Definition throws {A : Type} (r : result A) : Prop :=
  exists msg, r = Throw msg.

(** DE_ASSERT of gluVarType.ts / gluShaderUtil.ts. *)
Definition DE_ASSERT (x : bool) : result unit :=
  if x then Ok tt else Throw "Assert failed".

(** A number converted to a string, as string concatenation does. *)
Definition string_of_Z (z : Z) : string := NilZero.string_of_int (Z.to_int z).

(* ================================================================== *)
(** ** gluShaderUtil.ts: precisions and data types *)

Inductive precision : Type :=
| PRECISION_LOWP | PRECISION_MEDIUMP | PRECISION_HIGHP | PRECISION_LAST.

Inductive DataType : Type :=
  | INVALID | FLOAT | FLOAT_VEC2 | FLOAT_VEC3
  | FLOAT_VEC4 | FLOAT_MAT2 | FLOAT_MAT2X3 | FLOAT_MAT2X4
  | FLOAT_MAT3X2 | FLOAT_MAT3 | FLOAT_MAT3X4 | FLOAT_MAT4X2
  | FLOAT_MAT4X3 | FLOAT_MAT4 | INT | INT_VEC2
  | INT_VEC3 | INT_VEC4 | UINT | UINT_VEC2
  | UINT_VEC3 | UINT_VEC4 | BOOL | BOOL_VEC2
  | BOOL_VEC3 | BOOL_VEC4 | SAMPLER_2D | SAMPLER_CUBE
  | SAMPLER_2D_ARRAY | SAMPLER_3D | SAMPLER_2D_SHADOW | SAMPLER_CUBE_SHADOW
  | SAMPLER_2D_ARRAY_SHADOW | INT_SAMPLER_2D | INT_SAMPLER_CUBE | INT_SAMPLER_2D_ARRAY
  | INT_SAMPLER_3D | UINT_SAMPLER_2D | UINT_SAMPLER_CUBE | UINT_SAMPLER_2D_ARRAY
  | UINT_SAMPLER_3D | LAST.

(** The numeric value of an enum member (TypeScript numbers them from 0). *)
Definition DataType_to_Z (t : DataType) : Z :=
  match t with
  | INVALID => 0 | FLOAT => 1 | FLOAT_VEC2 => 2
  | FLOAT_VEC3 => 3 | FLOAT_VEC4 => 4 | FLOAT_MAT2 => 5
  | FLOAT_MAT2X3 => 6 | FLOAT_MAT2X4 => 7 | FLOAT_MAT3X2 => 8
  | FLOAT_MAT3 => 9 | FLOAT_MAT3X4 => 10 | FLOAT_MAT4X2 => 11
  | FLOAT_MAT4X3 => 12 | FLOAT_MAT4 => 13 | INT => 14
  | INT_VEC2 => 15 | INT_VEC3 => 16 | INT_VEC4 => 17
  | UINT => 18 | UINT_VEC2 => 19 | UINT_VEC3 => 20
  | UINT_VEC4 => 21 | BOOL => 22 | BOOL_VEC2 => 23
  | BOOL_VEC3 => 24 | BOOL_VEC4 => 25 | SAMPLER_2D => 26
  | SAMPLER_CUBE => 27 | SAMPLER_2D_ARRAY => 28 | SAMPLER_3D => 29
  | SAMPLER_2D_SHADOW => 30 | SAMPLER_CUBE_SHADOW => 31 | SAMPLER_2D_ARRAY_SHADOW => 32
  | INT_SAMPLER_2D => 33 | INT_SAMPLER_CUBE => 34 | INT_SAMPLER_2D_ARRAY => 35
  | INT_SAMPLER_3D => 36 | UINT_SAMPLER_2D => 37 | UINT_SAMPLER_CUBE => 38
  | UINT_SAMPLER_2D_ARRAY => 39 | UINT_SAMPLER_3D => 40 | LAST => 41
  end.

Definition DataType_values : list DataType :=
  [INVALID; FLOAT; FLOAT_VEC2; FLOAT_VEC3; FLOAT_VEC4;
   FLOAT_MAT2; FLOAT_MAT2X3; FLOAT_MAT2X4; FLOAT_MAT3X2; FLOAT_MAT3;
   FLOAT_MAT3X4; FLOAT_MAT4X2; FLOAT_MAT4X3; FLOAT_MAT4; INT;
   INT_VEC2; INT_VEC3; INT_VEC4; UINT; UINT_VEC2;
   UINT_VEC3; UINT_VEC4; BOOL; BOOL_VEC2; BOOL_VEC3;
   BOOL_VEC4; SAMPLER_2D; SAMPLER_CUBE; SAMPLER_2D_ARRAY; SAMPLER_3D;
   SAMPLER_2D_SHADOW; SAMPLER_CUBE_SHADOW; SAMPLER_2D_ARRAY_SHADOW; INT_SAMPLER_2D; INT_SAMPLER_CUBE;
   INT_SAMPLER_2D_ARRAY; INT_SAMPLER_3D; UINT_SAMPLER_2D; UINT_SAMPLER_CUBE; UINT_SAMPLER_2D_ARRAY;
   UINT_SAMPLER_3D; LAST].

Definition DataType_of_Z (n : Z) : option DataType :=
  find (fun t => DataType_to_Z t =? n) DataType_values.

(** [scalarType + size - 1] for the four scalar types. The callers below
    pass a size between 1 and 4 (the commented-out range assertion of the
    source), which stays inside the enum; a number that is no member of the
    enum is represented by [LAST]. *)
Definition getDataTypeVector (scalarType : DataType) (size : Z) : DataType :=
  match scalarType with
  | FLOAT | INT | UINT | BOOL =>
      match DataType_of_Z (DataType_to_Z scalarType + size - 1) with
      | Some t => t
      | None => LAST
      end
  | _ => INVALID
  end.

Definition getDataTypeFloatVec (vecSize : Z) : DataType :=
  getDataTypeVector FLOAT vecSize.

(** [throw Error('Unrecognized dataType ' + dataType)] *)
Definition unrecognizedDataType {A : Type} (dataType : DataType) : result A :=
  Throw ("Unrecognized dataType " ++ string_of_Z (DataType_to_Z dataType))%string.

Definition getDataTypeScalarType (dataType : DataType) : result string :=
  match dataType with
  | FLOAT | FLOAT_VEC2 | FLOAT_VEC3 | FLOAT_VEC4
  | FLOAT_MAT2 | FLOAT_MAT2X3 | FLOAT_MAT2X4 | FLOAT_MAT3X2
  | FLOAT_MAT3 | FLOAT_MAT3X4 | FLOAT_MAT4X2 | FLOAT_MAT4X3
  | FLOAT_MAT4 => Ok "float"
  | INT | INT_VEC2 | INT_VEC3 | INT_VEC4 => Ok "int"
  | UINT | UINT_VEC2 | UINT_VEC3 | UINT_VEC4 => Ok "uint"
  | BOOL | BOOL_VEC2 | BOOL_VEC3 | BOOL_VEC4 => Ok "bool"
  | SAMPLER_2D => Ok "sampler2D"
  | SAMPLER_CUBE => Ok "samplerCube"
  | SAMPLER_2D_ARRAY => Ok "sampler2DArray"
  | SAMPLER_3D => Ok "sampler3D"
  | SAMPLER_2D_SHADOW => Ok "sampler2DShadow"
  | SAMPLER_CUBE_SHADOW => Ok "samplerCubeShadow"
  | SAMPLER_2D_ARRAY_SHADOW => Ok "sampler2DArrayShadow"
  | INT_SAMPLER_2D => Ok "isampler2D"
  | INT_SAMPLER_CUBE => Ok "isamplerCube"
  | INT_SAMPLER_2D_ARRAY => Ok "isampler2DArray"
  | INT_SAMPLER_3D => Ok "isampler3D"
  | UINT_SAMPLER_2D => Ok "usampler2D"
  | UINT_SAMPLER_CUBE => Ok "usamplerCube"
  | UINT_SAMPLER_2D_ARRAY => Ok "usampler2DArray"
  | UINT_SAMPLER_3D => Ok "usampler3D"
  | INVALID | LAST => unrecognizedDataType dataType
  end.

Definition getDataTypeScalarTypeAsDataType (dataType : DataType) : result DataType :=
  match dataType with
  | FLOAT | FLOAT_VEC2 | FLOAT_VEC3 | FLOAT_VEC4
  | FLOAT_MAT2 | FLOAT_MAT2X3 | FLOAT_MAT2X4 | FLOAT_MAT3X2
  | FLOAT_MAT3 | FLOAT_MAT3X4 | FLOAT_MAT4X2 | FLOAT_MAT4X3
  | FLOAT_MAT4 => Ok FLOAT
  | INT | INT_VEC2 | INT_VEC3 | INT_VEC4 => Ok INT
  | UINT | UINT_VEC2 | UINT_VEC3 | UINT_VEC4 => Ok UINT
  | BOOL | BOOL_VEC2 | BOOL_VEC3 | BOOL_VEC4 => Ok BOOL
  | SAMPLER_2D | SAMPLER_CUBE | SAMPLER_2D_ARRAY
  | SAMPLER_3D | SAMPLER_2D_SHADOW | SAMPLER_CUBE_SHADOW
  | SAMPLER_2D_ARRAY_SHADOW | INT_SAMPLER_2D | INT_SAMPLER_CUBE
  | INT_SAMPLER_2D_ARRAY | INT_SAMPLER_3D | UINT_SAMPLER_2D
  | UINT_SAMPLER_CUBE | UINT_SAMPLER_2D_ARRAY | UINT_SAMPLER_3D => Ok dataType
  | INVALID | LAST => unrecognizedDataType dataType
  end.

Definition getDataTypeScalarSize (dataType : DataType) : result Z :=
  match dataType with
  | FLOAT => Ok 1
  | FLOAT_VEC2 => Ok 2
  | FLOAT_VEC3 => Ok 3
  | FLOAT_VEC4 => Ok 4
  | FLOAT_MAT2 => Ok 4
  | FLOAT_MAT2X3 => Ok 6
  | FLOAT_MAT2X4 => Ok 8
  | FLOAT_MAT3X2 => Ok 6
  | FLOAT_MAT3 => Ok 9
  | FLOAT_MAT3X4 => Ok 12
  | FLOAT_MAT4X2 => Ok 8
  | FLOAT_MAT4X3 => Ok 12
  | FLOAT_MAT4 => Ok 16
  | INT => Ok 1
  | INT_VEC2 => Ok 2
  | INT_VEC3 => Ok 3
  | INT_VEC4 => Ok 4
  | UINT => Ok 1
  | UINT_VEC2 => Ok 2
  | UINT_VEC3 => Ok 3
  | UINT_VEC4 => Ok 4
  | BOOL => Ok 1
  | BOOL_VEC2 => Ok 2
  | BOOL_VEC3 => Ok 3
  | BOOL_VEC4 => Ok 4
  | SAMPLER_2D => Ok 1
  | SAMPLER_CUBE => Ok 1
  | SAMPLER_2D_ARRAY => Ok 1
  | SAMPLER_3D => Ok 1
  | SAMPLER_2D_SHADOW => Ok 1
  | SAMPLER_CUBE_SHADOW => Ok 1
  | SAMPLER_2D_ARRAY_SHADOW => Ok 1
  | INT_SAMPLER_2D => Ok 1
  | INT_SAMPLER_CUBE => Ok 1
  | INT_SAMPLER_2D_ARRAY => Ok 1
  | INT_SAMPLER_3D => Ok 1
  | UINT_SAMPLER_2D => Ok 1
  | UINT_SAMPLER_CUBE => Ok 1
  | UINT_SAMPLER_2D_ARRAY => Ok 1
  | UINT_SAMPLER_3D => Ok 1
  | INVALID | LAST => unrecognizedDataType dataType
  end.

Definition isDataTypeFloatOrVec (dataType : DataType) : bool :=
  match dataType with
  | FLOAT | FLOAT_VEC2 | FLOAT_VEC3 | FLOAT_VEC4 => true
  | _ => false
  end.

Definition isDataTypeIntOrIVec (dataType : DataType) : bool :=
  match dataType with
  | INT | INT_VEC2 | INT_VEC3 | INT_VEC4 => true
  | _ => false
  end.

Definition isDataTypeUintOrUVec (dataType : DataType) : bool :=
  match dataType with
  | UINT | UINT_VEC2 | UINT_VEC3 | UINT_VEC4 => true
  | _ => false
  end.

Definition isDataTypeMatrix (dataType : DataType) : bool :=
  match dataType with
  | FLOAT_MAT2 | FLOAT_MAT2X3 | FLOAT_MAT2X4
  | FLOAT_MAT3X2 | FLOAT_MAT3 | FLOAT_MAT3X4
  | FLOAT_MAT4X2 | FLOAT_MAT4X3 | FLOAT_MAT4 => true
  | _ => false
  end.

Definition isDataTypeScalar (dataType : DataType) : bool :=
  match dataType with
  | FLOAT | INT | UINT | BOOL => true
  | _ => false
  end.

Definition isDataTypeVector (dataType : DataType) : bool :=
  match dataType with
  | FLOAT_VEC2 | FLOAT_VEC3 | FLOAT_VEC4
  | INT_VEC2 | INT_VEC3 | INT_VEC4
  | UINT_VEC2 | UINT_VEC3 | UINT_VEC4
  | BOOL_VEC2 | BOOL_VEC3 | BOOL_VEC4 => true
  | _ => false
  end.

Definition isDataTypeScalarOrVector (dataType : DataType) : bool :=
  match dataType with
  | FLOAT | FLOAT_VEC2 | FLOAT_VEC3 | FLOAT_VEC4
  | INT | INT_VEC2 | INT_VEC3 | INT_VEC4
  | UINT | UINT_VEC2 | UINT_VEC3 | UINT_VEC4
  | BOOL | BOOL_VEC2 | BOOL_VEC3 | BOOL_VEC4 => true
  | _ => false
  end.

Definition getDataTypeMatrixNumRows (dataType : DataType) : result Z :=
  match dataType with
  | FLOAT_MAT2 => Ok 2
  | FLOAT_MAT2X3 => Ok 3
  | FLOAT_MAT2X4 => Ok 4
  | FLOAT_MAT3X2 => Ok 2
  | FLOAT_MAT3 => Ok 3
  | FLOAT_MAT3X4 => Ok 4
  | FLOAT_MAT4X2 => Ok 2
  | FLOAT_MAT4X3 => Ok 3
  | FLOAT_MAT4 => Ok 4
  | _ => unrecognizedDataType dataType
  end.

Definition getDataTypeMatrixNumColumns (dataType : DataType) : result Z :=
  match dataType with
  | FLOAT_MAT2 => Ok 2
  | FLOAT_MAT2X3 => Ok 2
  | FLOAT_MAT2X4 => Ok 2
  | FLOAT_MAT3X2 => Ok 3
  | FLOAT_MAT3 => Ok 3
  | FLOAT_MAT3X4 => Ok 3
  | FLOAT_MAT4X2 => Ok 4
  | FLOAT_MAT4X3 => Ok 4
  | FLOAT_MAT4 => Ok 4
  | _ => unrecognizedDataType dataType
  end.

(* ================================================================== *)
(** ** gluVarType.ts: the recursive variable type *)

(** Array length for unsized arrays. *)
Definition UNSIZED_ARRAY : Z := -1.

(** A [VarType] as the factories [newTypeBasic], [newTypeArray] and
    [newTypeStruct] build it; a struct carries its type name and its
    ordered members. *)
Inductive VarType : Type :=
| TypeBasic (basicType : DataType) (prec : precision)
| TypeArray (elementType : VarType) (arraySize : Z)
| TypeStruct (structPtr : StructType)
with StructType : Type :=
| Struct (typeName : string) (members : list StructMember)
with StructMember : Type :=
| Member (name : string) (type : VarType).

Definition newTypeBasic (basicType : DataType) (flags : precision) : VarType :=
  TypeBasic basicType flags.
Definition newTypeArray (elementType : VarType) (arraySize : Z) : VarType :=
  TypeArray elementType arraySize.
Definition newTypeStruct (structPtr : StructType) : VarType :=
  TypeStruct structPtr.

Definition isBasicType (t : VarType) : bool :=
  match t with TypeBasic _ _ => true | _ => false end.
Definition isArrayType (t : VarType) : bool :=
  match t with TypeArray _ _ => true | _ => false end.
Definition isStructType (t : VarType) : bool :=
  match t with TypeStruct _ => true | _ => false end.

Definition getBasicType (t : VarType) : result DataType :=
  _ <- DE_ASSERT (isBasicType t) ;;
  match t with TypeBasic d _ => Ok d | _ => Throw "TypeError" end.
Definition getPrecision (t : VarType) : result precision :=
  _ <- DE_ASSERT (isBasicType t) ;;
  match t with TypeBasic _ p => Ok p | _ => Throw "TypeError" end.
Definition getElementType (t : VarType) : result VarType :=
  _ <- DE_ASSERT (isArrayType t) ;;
  match t with TypeArray e _ => Ok e | _ => Throw "TypeError" end.
Definition getArraySize (t : VarType) : result Z :=
  _ <- DE_ASSERT (isArrayType t) ;;
  match t with TypeArray _ n => Ok n | _ => Throw "TypeError" end.
Definition getStruct (t : VarType) : result StructType :=
  _ <- DE_ASSERT (isStructType t) ;;
  match t with TypeStruct s => Ok s | _ => Throw "TypeError" end.

Definition getSize (s : StructType) : Z :=
  match s with Struct _ ms => Z.of_nat (List.length ms) end.

(** [getMember] answers [undefined] (here [None]) outside the member list. *)
Definition getMember (s : StructType) (memberNdx : Z) : option StructMember :=
  match s with
  | Struct _ ms =>
      if (0 <=? memberNdx) && (memberNdx <? Z.of_nat (List.length ms))
      then nth_error ms (Z.to_nat memberNdx)
      else None
  end.

(** Calling a method on [undefined] is a TypeError. *)
Definition member_getType (m : option StructMember) : result VarType :=
  match m with
  | Some (Member _ t) => Ok t
  | None => Throw "TypeError"
  end.
Definition member_getName (m : option StructMember) : result string :=
  match m with
  | Some (Member n _) => Ok n
  | None => Throw "TypeError"
  end.

(* ================================================================== *)
(** ** gluVarTypeUtil.ts: path components *)

Inductive ComponentType : Type :=
| STRUCT_MEMBER | ARRAY_ELEMENT | MATRIX_COLUMN | VECTOR_COMPONENT.

Definition ComponentType_to_Z (t : ComponentType) : Z :=
  match t with
  | STRUCT_MEMBER => 0 | ARRAY_ELEMENT => 1
  | MATRIX_COLUMN => 2 | VECTOR_COMPONENT => 3
  end.

Definition ComponentType_values : list ComponentType :=
  [STRUCT_MEMBER; ARRAY_ELEMENT; MATRIX_COLUMN; VECTOR_COMPONENT].

(** [Object.keys(ComponentType).length / 2]: the enum object has two keys
    for each member (its name and its number). *)
Definition ComponentType_length : Z :=
  Z.of_nat (List.length ComponentType_values + List.length ComponentType_values) / 2.

(** The [type] field holds an enum member or [null] ([None]). *)
Record VarTypeComponent : Type := mkVarTypeComponent {
  comp_type : option ComponentType;
  comp_index : Z
}.

(** [new VarTypeComponent(type_, index_)]:
      this.type = type_ || null;  this.index = index_ || ComponentType.length;
    JavaScript's [||] takes its right operand when the left one is falsy,
    and the number 0 is falsy. *)
Definition newVarTypeComponent (type_ : ComponentType) (index_ : Z) : VarTypeComponent :=
  {| comp_type := if ComponentType_to_Z type_ =? 0 then None else Some type_;
     comp_index := if index_ =? 0 then ComponentType_length else index_ |}.

(** [x.type == K] with the loose equality of the source: [null == K] is
    false for every number K. *)
Definition type_eq (t : option ComponentType) (k : ComponentType) : bool :=
  match t with
  | Some t' => ComponentType_to_Z t' =? ComponentType_to_Z k
  | None => false
  end.

(** [VarTypeComponent.is] compares both fields with [===]. *)
Definition type_strict_eq (a b : option ComponentType) : bool :=
  match a, b with
  | Some x, Some y => ComponentType_to_Z x =? ComponentType_to_Z y
  | None, None => true
  | _, _ => false
  end.

Definition comp_is (a b : VarTypeComponent) : bool :=
  type_strict_eq (comp_type a) (comp_type b) && (comp_index a =? comp_index b).

Definition comp_isnt (a b : VarTypeComponent) : bool :=
  negb (type_strict_eq (comp_type a) (comp_type b)) || negb (comp_index a =? comp_index b).

Definition TypeComponentVector : Type := list VarTypeComponent.

(* ================================================================== *)
(** ** gluVarTypeUtil.ts: validating and resolving a path *)

Definition inBounds (x a b : Z) : bool := (a <=? x) && (x <? b).

(** How the first loop of [isValidTypePath] ends: by [return false], or at
    [pathIter] with the type reached and the rest of the path. *)
Inductive prefixWalk : Type :=
| ReturnedFalse
| StoppedAt (curType : VarType) (rest : TypeComponentVector).

(** The loop over the struct-member and array-element part of the path. *)
Fixpoint isValidTypePath_prefix (curType : VarType) (array : TypeComponentVector)
  : result prefixWalk :=
  match array with
  | [] => Ok (StoppedAt curType [])
  | element :: rest =>
      if type_eq (comp_type element) STRUCT_MEMBER then
        if negb (isStructType curType) then Ok ReturnedFalse else
        s <- getStruct curType ;;
        if negb (inBounds (comp_index element) 0 (getSize s)) then Ok ReturnedFalse else
        next <- member_getType (getMember s (comp_index element)) ;;
        isValidTypePath_prefix next rest
      else if type_eq (comp_type element) ARRAY_ELEMENT then
        if negb (isArrayType curType) then Ok ReturnedFalse else
        size <- getArraySize curType ;;
        if negb (size =? UNSIZED_ARRAY) && negb (inBounds (comp_index element) 0 size)
        then Ok ReturnedFalse else
        next <- getElementType curType ;;
        isValidTypePath_prefix next rest
      else Ok (StoppedAt curType array)
  end.

(** [isValidTypePath(type, array)] with the default [begin] and [end]. A
    call on a sub-range [begin, end) is a call on that slice of the list. *)
Definition isValidTypePath (type : VarType) (array : TypeComponentVector) : result bool :=
  w <- isValidTypePath_prefix type array ;;
  match w with
  | ReturnedFalse => Ok false
  | StoppedAt _ [] => Ok true
  | StoppedAt curType (element :: rest) =>
      if negb (type_eq (comp_type element) MATRIX_COLUMN
               || type_eq (comp_type element) VECTOR_COMPONENT)
      then Throw "Not a matrix or a vector"
      else if negb (isBasicType curType) then Ok false
      else
        basicType <- getBasicType curType ;;
        (* matrix column *)
        afterColumn <-
          (if type_eq (comp_type element) MATRIX_COLUMN then
             if negb (isDataTypeMatrix basicType) then Ok None else
             rows <- getDataTypeMatrixNumRows basicType ;;
             Ok (Some (getDataTypeFloatVec rows, rest))
           else Ok (Some (basicType, element :: rest))) ;;
        match afterColumn with
        | None => Ok false
        | Some (basicType, []) => Ok true
        | Some (basicType, element :: rest) =>
            if type_eq (comp_type element) VECTOR_COMPONENT then
              if negb (isDataTypeVector basicType) then Ok false else
              _ <- getDataTypeScalarTypeAsDataType basicType ;;
              Ok (match rest with [] => true | _ => false end)
            else Ok false
        end
  end.

(** A component of the struct-member / array-element part of a path. *)
Definition is_struct_or_array (c : VarTypeComponent) : bool :=
  type_eq (comp_type c) STRUCT_MEMBER || type_eq (comp_type c) ARRAY_ELEMENT.

(** The first loop of [getVarType]: the same walk without the checks. *)
Fixpoint getVarType_prefix (curType : VarType) (array : TypeComponentVector)
  : result (VarType * TypeComponentVector) :=
  match array with
  | [] => Ok (curType, [])
  | element :: rest =>
      if type_eq (comp_type element) STRUCT_MEMBER then
        s <- getStruct curType ;;
        next <- member_getType (getMember s (comp_index element)) ;;
        getVarType_prefix next rest
      else if type_eq (comp_type element) ARRAY_ELEMENT then
        next <- getElementType curType ;;
        getVarType_prefix next rest
      else Ok (curType, array)
  end.

(** [getVarType(type, array)] with the default [start] and [end]. *)
Definition getVarType (type : VarType) (array : TypeComponentVector) : result VarType :=
  valid <- isValidTypePath type array ;;
  if negb valid then Throw "Type is invalid" else
  st <- getVarType_prefix type array ;;
  match st with
  | (curType, []) => Ok curType
  | (curType, element :: rest) =>
      basicType <- getBasicType curType ;;
      precision <- getPrecision curType ;;
      afterColumn <-
        (if type_eq (comp_type element) MATRIX_COLUMN then
           rows <- getDataTypeMatrixNumRows basicType ;;
           Ok (getDataTypeFloatVec rows, rest)
         else Ok (basicType, element :: rest)) ;;
      afterComponent <-
        (match afterColumn with
         | (basicType, []) => Ok (basicType, [])
         | (basicType, element :: rest) =>
             if type_eq (comp_type element) VECTOR_COMPONENT then
               scalar <- getDataTypeScalarTypeAsDataType basicType ;;
               Ok (scalar, rest)
             else Ok (basicType, element :: rest)
         end) ;;
      match afterComponent with
      | (basicType, []) => Ok (newTypeBasic basicType precision)
      | (_, _ :: _) => Throw ""
      end
  end.

(** The shapes a path may have after its struct/array part, with the type
    it then resolves to: nothing, one matrix column, one vector component,
    or a matrix column followed by a vector component. *)
Inductive tailShape (cur : VarType) : TypeComponentVector -> VarType -> Prop :=
| shape_end : tailShape cur [] cur
| shape_column m p rows mc :
    cur = TypeBasic m p ->
    type_eq (comp_type mc) MATRIX_COLUMN = true ->
    isDataTypeMatrix m = true ->
    getDataTypeMatrixNumRows m = Ok rows ->
    tailShape cur [mc] (newTypeBasic (getDataTypeFloatVec rows) p)
| shape_component v p s vc :
    cur = TypeBasic v p ->
    type_eq (comp_type vc) VECTOR_COMPONENT = true ->
    isDataTypeVector v = true ->
    getDataTypeScalarTypeAsDataType v = Ok s ->
    tailShape cur [vc] (newTypeBasic s p)
| shape_column_component m p rows mc vc s :
    cur = TypeBasic m p ->
    type_eq (comp_type mc) MATRIX_COLUMN = true ->
    type_eq (comp_type vc) VECTOR_COMPONENT = true ->
    isDataTypeMatrix m = true ->
    getDataTypeMatrixNumRows m = Ok rows ->
    isDataTypeVector (getDataTypeFloatVec rows) = true ->
    getDataTypeScalarTypeAsDataType (getDataTypeFloatVec rows) = Ok s ->
    tailShape cur [mc; vc] (newTypeBasic s p).

(** Resolution fails exactly when validation answers false. *)
Definition throws_iff_invalid (type : VarType) (path : TypeComponentVector) : Prop :=
  throws (getVarType type path) <-> isValidTypePath type path = Ok false.

(* ================================================================== *)
(** ** gluVarTypeUtil.ts: the tokenizer *)

(** [isNum] and [isIdentifierChar] test one character against [0-9] and
    [a-zA-Z0-9_]; on [undefined] (a read past the end of the string) both
    answer false. *)
Definition isNum (c : ascii) : bool :=
  let n := nat_of_ascii c in (48 <=? n)%nat && (n <=? 57)%nat.

Definition isIdentifierChar (c : ascii) : bool :=
  let n := nat_of_ascii c in
  ((97 <=? n)%nat && (n <=? 122)%nat) || ((65 <=? n)%nat && (n <=? 90)%nat)
  || ((48 <=? n)%nat && (n <=? 57)%nat) || (n =? 95)%nat.

Module Token.
(** The six tokens, and [NONE] for the number 6 ([Token.length]) that the
    tokenizer stores while no token has been recognized. *)
Inductive t : Type :=
| IDENTIFIER | LEFT_BRACKET | RIGHT_BRACKET | PERIOD | NUMBER | END | NONE.

Definition eqb (a b : t) : bool :=
  match a, b with
  | IDENTIFIER, IDENTIFIER | LEFT_BRACKET, LEFT_BRACKET
  | RIGHT_BRACKET, RIGHT_BRACKET | PERIOD, PERIOD
  | NUMBER, NUMBER | END, END | NONE, NONE => true
  | _, _ => false
  end.
End Token.

Record VarTokenizer : Type := mkVarTokenizer {
  m_str : string;
  m_token : Token.t;
  m_tokenStart : nat;
  m_tokenLen : nat
}.

(** The suffix of a string from a position on. *)
Definition string_from (pos : nat) (s : string) : string :=
  String.substring pos (String.length s - pos) s.

(** How many leading characters satisfy [p]: the scanning loops
    [while (p(str[start + len])) len += 1]. *)
Fixpoint count_while (p : ascii -> bool) (s : string) : nat :=
  match s with
  | EmptyString => O
  | String c rest => if p c then S (count_while p rest) else O
  end.

Definition advance (tk : VarTokenizer) : result VarTokenizer :=
  if Token.eqb (m_token tk) Token.END then Throw "No more tokens." else
  let str := m_str tk in
  let tokenStart := (m_tokenStart tk + m_tokenLen tk)%nat in
  let scanned p := S (count_while p (string_from (S tokenStart) str)) in
  if (String.length str <=? tokenStart)%nat then
    Ok (mkVarTokenizer str Token.END tokenStart 1)
  else
    match String.get tokenStart str with
    | None => Ok (mkVarTokenizer str Token.END tokenStart 1)
    | Some c =>
        if Ascii.eqb c "[" then Ok (mkVarTokenizer str Token.LEFT_BRACKET tokenStart 1)
        else if Ascii.eqb c "]" then Ok (mkVarTokenizer str Token.RIGHT_BRACKET tokenStart 1)
        else if Ascii.eqb c "." then Ok (mkVarTokenizer str Token.PERIOD tokenStart 1)
        else if isNum c then
          Ok (mkVarTokenizer str Token.NUMBER tokenStart (scanned isNum))
        else if isIdentifierChar c then
          Ok (mkVarTokenizer str Token.IDENTIFIER tokenStart (scanned isIdentifierChar))
        else Throw "Unexpected character"
    end.

(** [new VarTokenizer(str)] *)
Definition newVarTokenizer (str : string) : result VarTokenizer :=
  advance (mkVarTokenizer str Token.NONE 0 0).

Definition getToken (tk : VarTokenizer) : Token.t := m_token tk.

Definition getIdentifier (tk : VarTokenizer) : string :=
  String.substring (m_tokenStart tk) (m_tokenLen tk) (m_str tk).

(** [parseInt] of the token text; [None] stands for NaN (text that does
    not start with a digit). On a NUMBER token the text is all digits. *)
Definition getNumber (tk : VarTokenizer) : option Z :=
  let text := getIdentifier tk in
  option_map Z.of_uint
    (NilZero.uint_of_string (String.substring 0 (count_while isNum text) text)).

(** What holds of a tokenizer after any [advance]: the token is not empty,
    and at the end of the text the token is END. *)
Definition tokenizer_ok (tk : VarTokenizer) : Prop :=
  (1 <= m_tokenLen tk)%nat /\
  ((String.length (m_str tk) <= m_tokenStart tk)%nat -> m_token tk = Token.END).

(* ================================================================== *)
(** ** gluVarTypeUtil.ts: TypeAccessFormat *)

(** The loop of [TypeAccessFormat.toString]; [i] is the loop counter. The
    [switch] compares with [===], so a [null] kind takes the default case.
    The struct-member case reads member [i], the position in the path. *)
Fixpoint toString_loop (curType : VarType) (path : TypeComponentVector)
  (i : Z) (str : string) : result string :=
  match path with
  | [] => Ok str
  | iter :: rest =>
      match comp_type iter with
      | Some ARRAY_ELEMENT =>
          next <- getElementType curType ;;
          toString_loop next rest (i + 1)
            (str ++ "[" ++ string_of_Z (comp_index iter) ++ "]")%string
      | Some MATRIX_COLUMN | Some VECTOR_COMPONENT =>
          toString_loop curType rest (i + 1)
            (str ++ "[" ++ string_of_Z (comp_index iter) ++ "]")%string
      | Some STRUCT_MEMBER =>
          s <- getStruct curType ;;
          name <- member_getName (getMember s i) ;;
          next <- member_getType (getMember s i) ;;
          toString_loop next rest (i + 1) (str ++ "." ++ name)%string
      | None => Throw "Unrecognized type:null"
      end
  end.

Definition TypeAccessFormat_toString (type : VarType) (path : TypeComponentVector)
  : result string :=
  toString_loop type path 0 "".

(* ================================================================== *)
(** ** gluVarTypeUtil.ts: parsing a textual path *)

Definition parseVariableName (nameWithPath : string) : result string :=
  tokenizer <- newVarTokenizer nameWithPath ;;
  if negb (Token.eqb (getToken tokenizer) Token.IDENTIFIER)
  then Throw "Not an identifier."
  else Ok (getIdentifier tokenizer).

(** The member search of the [.name] case: the index of the first member
    called [memberName], or the number of members. *)
Fixpoint findMember (memberName : string) (ms : list StructMember) (ndx : Z) : Z :=
  match ms with
  | [] => ndx
  | Member n _ :: rest =>
      if String.eqb memberName n then ndx else findMember memberName rest (ndx + 1)
  end.

(** [if (!inBounds(ndx, 0, bound)) throw new Error;] with NaN out of every
    range. *)
Definition checkBounds (ndx : option Z) (bound : Z) : result Z :=
  match ndx with
  | Some n => if inBounds n 0 bound then Ok n else Throw ""
  | None => Throw ""
  end.

(** The [[n]] case of the parser after the number has been read: the
    component to push. *)
Definition parseSubscript (curType : VarType) (ndx : option Z) : result VarTypeComponent :=
  if isArrayType curType then
    size <- getArraySize curType ;;
    n <- checkBounds ndx size ;;
    Ok (newVarTypeComponent ARRAY_ELEMENT n)
  else if isBasicType curType
          && match getBasicType curType with Ok b => isDataTypeMatrix b | Throw _ => false end
  then
    b <- getBasicType curType ;;
    columns <- getDataTypeMatrixNumColumns b ;;
    n <- checkBounds ndx columns ;;
    Ok (newVarTypeComponent MATRIX_COLUMN n)
  else if isBasicType curType
          && match getBasicType curType with Ok b => isDataTypeVector b | Throw _ => false end
  then
    b <- getBasicType curType ;;
    size <- getDataTypeScalarSize b ;;
    n <- checkBounds ndx size ;;
    Ok (newVarTypeComponent VECTOR_COMPONENT n)
  else Throw "Invalid subscript".

(** One turn of the [while (tokenizer.getToken() != Token.END)] loop. *)
Definition parseTypePath_step (type : VarType) (tokenizer : VarTokenizer)
  (path : TypeComponentVector) : result (VarTokenizer * TypeComponentVector) :=
  curType <- getVarType type path ;;
  if Token.eqb (getToken tokenizer) Token.PERIOD then
    tokenizer <- advance tokenizer ;;
    if negb (Token.eqb (getToken tokenizer) Token.IDENTIFIER) then Throw "" else
    if negb (isStructType curType) then Throw "Invalid field selector" else
    s <- getStruct curType ;;
    let memberName := getIdentifier tokenizer in
    let ndx := findMember memberName (match s with Struct _ ms => ms end) 0 in
    if getSize s <=? ndx then Throw ("Member not found in type: " ++ memberName)%string else
    let path := path ++ [newVarTypeComponent STRUCT_MEMBER ndx] in
    tokenizer <- advance tokenizer ;;
    Ok (tokenizer, path)
  else if Token.eqb (getToken tokenizer) Token.LEFT_BRACKET then
    tokenizer <- advance tokenizer ;;
    if negb (Token.eqb (getToken tokenizer) Token.NUMBER) then Throw "" else
    component <- parseSubscript curType (getNumber tokenizer) ;;
    let path := path ++ [component] in
    tokenizer <- advance tokenizer ;;
    if negb (Token.eqb (getToken tokenizer) Token.RIGHT_BRACKET)
    then Throw "Expected token RIGHT_BRACKET" else
    tokenizer <- advance tokenizer ;;
    Ok (tokenizer, path)
  else Throw "Unexpected token".

(** The parser loop; [None] when the fuel runs out. *)
Fixpoint parseTypePath_loop (fuel : nat) (type : VarType) (tokenizer : VarTokenizer)
  (path : TypeComponentVector) : option (result TypeComponentVector) :=
  if Token.eqb (getToken tokenizer) Token.END then Some (Ok path) else
  match fuel with
  | O => None
  | S fuel' =>
      match parseTypePath_step type tokenizer path with
      | Throw m => Some (Throw m)
      | Ok (tokenizer', path') => parseTypePath_loop fuel' type tokenizer' path'
      end
  end.

(** [parseTypePath(nameWithPath, type)]. Every turn of the loop consumes
    at least two characters, so the length of the text is fuel enough. *)
Definition parseTypePath (nameWithPath : string) (type : VarType)
  : option (result TypeComponentVector) :=
  match newVarTokenizer nameWithPath with
  | Throw m => Some (Throw m)
  | Ok tokenizer =>
      match (if Token.eqb (getToken tokenizer) Token.IDENTIFIER
             then advance tokenizer else Ok tokenizer) with
      | Throw m => Some (Throw m)
      | Ok tokenizer => parseTypePath_loop (String.length nameWithPath) type tokenizer []
      end
  end.

(* ================================================================== *)
(** ** gluVarTypeUtil.ts: the sub-type iterators *)

(** [m_type] is [null] ([None]) once the iteration has ended. *)
Record SubTypeIterator : Type := mkSubTypeIterator {
  m_type : option VarType;
  m_path : TypeComponentVector
}.

(** A method call on the [null] type of an ended iterator is a TypeError. *)
Definition getVarType_of (type : option VarType) (path : TypeComponentVector)
  : result VarType :=
  match type with
  | Some t => getVarType t path
  | None => Throw "TypeError"
  end.

(** [curComp.index += 1] on the last component of the path. *)
Definition incrementLast (path : TypeComponentVector) : TypeComponentVector :=
  match rev path with
  | [] => path
  | curComp :: before =>
      rev before ++ [mkVarTypeComponent (comp_type curComp) (comp_index curComp + 1)]
  end.

(** The three iterator classes differ in [isExpanded] only. *)
Definition BasicTypeIterator_isExpanded (type : VarType) : bool :=
  isBasicType type.

Definition VectorTypeIterator_isExpanded (type : VarType) : bool :=
  isBasicType type
  && match getBasicType type with Ok b => isDataTypeScalarOrVector b | Throw _ => false end.

Definition ScalarTypeIterator_isExpanded (type : VarType) : bool :=
  isBasicType type
  && match getBasicType type with Ok b => isDataTypeScalar b | Throw _ => false end.

Section SubTypeIterator.

Variable isExpanded : VarType -> bool.

(** The [for (;;)] loop of [findNext]; [None] when the fuel runs out. *)
Fixpoint findNext_loop (fuel : nat) (type : option VarType) (path : TypeComponentVector)
  : option (result TypeComponentVector) :=
  match fuel with
  | O => None
  | S fuel' =>
      match getVarType_of type path with
      | Throw m => Some (Throw m)
      | Ok curType =>
          if isExpanded curType then Some (Ok path)
          else if isBasicType curType then
            match getBasicType curType with
            | Throw m => Some (Throw m)
            | Ok basicType =>
                if isDataTypeMatrix basicType then
                  findNext_loop fuel' type (path ++ [newVarTypeComponent MATRIX_COLUMN 0])
                else if isDataTypeVector basicType then
                  findNext_loop fuel' type (path ++ [newVarTypeComponent VECTOR_COMPONENT 0])
                else Some (Throw "Cant expand scalars - isExpanded() is buggy.")
            end
          else if isArrayType curType then
            findNext_loop fuel' type (path ++ [newVarTypeComponent ARRAY_ELEMENT 0])
          else if isStructType curType then
            findNext_loop fuel' type (path ++ [newVarTypeComponent STRUCT_MEMBER 0])
          else Some (Throw "")
      end
  end.

Definition findNext (fuel : nat) (it : SubTypeIterator) : option (result SubTypeIterator) :=
  let path := match m_path it with [] => [] | _ => incrementLast (m_path it) end in
  match findNext_loop fuel (m_type it) path with
  | None => None
  | Some (Throw m) => Some (Throw m)
  | Some (Ok path') => Some (Ok (mkSubTypeIterator (m_type it) path'))
  end.

(** [new SubTypeIterator(type)] *)
Definition newSubTypeIterator (fuel : nat) (type : VarType) : option (result SubTypeIterator) :=
  findNext fuel (mkSubTypeIterator (Some type) []).

(** The [while (this.m_path.length)] loop of [removeTraversed]: each turn
    breaks or pops one component, so [n], the length of the path, bounds
    the turns. *)
Fixpoint removeTraversed_loop (n : nat) (type : option VarType) (path : TypeComponentVector)
  : result TypeComponentVector :=
  match n, rev path with
  | O, _ | _, [] => Ok path
  | S n', curComp :: before =>
      parentType <- getVarType_of type (rev before) ;;
      stop <-
        (if type_eq (comp_type curComp) MATRIX_COLUMN then
           b <- getBasicType parentType ;;
           if negb (isDataTypeMatrix b) then Throw "Isn't a matrix." else
           columns <- getDataTypeMatrixNumColumns b ;;
           Ok (comp_index curComp + 1 <? columns)
         else if type_eq (comp_type curComp) VECTOR_COMPONENT then
           b <- getBasicType parentType ;;
           if negb (isDataTypeVector b) then Throw "Isn't a vector." else
           size <- getDataTypeScalarSize b ;;
           Ok (comp_index curComp + 1 <? size)
         else if type_eq (comp_type curComp) ARRAY_ELEMENT then
           if negb (isArrayType parentType) then Throw "Isn't an array." else
           size <- getArraySize parentType ;;
           Ok (comp_index curComp + 1 <? size)
         else if type_eq (comp_type curComp) STRUCT_MEMBER then
           if negb (isStructType parentType) then Throw "Isn't a struct." else
           st <- getStruct parentType ;;
           Ok (comp_index curComp + 1 <? getSize st)
         else Ok false) ;;
      if (stop : bool) then Ok path else removeTraversed_loop n' type (rev before)
  end.

Definition removeTraversed (it : SubTypeIterator) : result SubTypeIterator :=
  path <- removeTraversed_loop (List.length (m_path it)) (m_type it) (m_path it) ;;
  Ok (mkSubTypeIterator (m_type it) path).

Definition iterator_end (it : SubTypeIterator) : bool :=
  match m_type it with None => true | Some _ => false end.

Definition next (fuel : nat) (it : SubTypeIterator) : option (result SubTypeIterator) :=
  match m_path it with
  | _ :: _ =>
      match removeTraversed it with
      | Throw m => Some (Throw m)
      | Ok it' =>
          match m_path it' with
          | _ :: _ => findNext fuel it'
          | [] => Some (Ok (mkSubTypeIterator None (m_path it')))
          end
      end
  | [] =>
      match getVarType_of (m_type it) (m_path it) with
      | Throw m => Some (Throw m)
      | Ok t =>
          if negb (isExpanded t) then Some (Throw "First type was already expanded.")
          else Some (Ok (mkSubTypeIterator None (m_path it)))
      end
  end.

Definition iterator_getType (it : SubTypeIterator) : result VarType :=
  getVarType_of (m_type it) (m_path it).

Definition getPath (it : SubTypeIterator) : TypeComponentVector := m_path it.

Definition iterator_toString (it : SubTypeIterator) : result string :=
  match m_type it with
  | Some t => TypeAccessFormat_toString t (m_path it)
  | None => Throw "TypeError"
  end.

(** [for (; !it.end(); it.next()) acc = body(it, acc)] *)
Fixpoint forEach {A : Type} (fuel : nat) (it : SubTypeIterator)
  (body : SubTypeIterator -> A -> result A) (acc : A) : option (result A) :=
  if iterator_end it then Some (Ok acc) else
  match fuel with
  | O => None
  | S fuel' =>
      match body it acc with
      | Throw m => Some (Throw m)
      | Ok acc' =>
          match next fuel it with
          | None => None
          | Some (Throw m) => Some (Throw m)
          | Some (Ok it') => forEach fuel' it' body acc'
          end
      end
  end.

(** [for (it = new Iterator(type); !it.end(); it.next()) ...] *)
Definition forEachSubType {A : Type} (fuel : nat) (type : VarType)
  (body : SubTypeIterator -> A -> result A) (acc : A) : option (result A) :=
  match newSubTypeIterator fuel type with
  | None => None
  | Some (Throw m) => Some (Throw m)
  | Some (Ok it) => forEach fuel it body acc
  end.

(** The paths the iteration visits, in order. *)
Definition enumeratePaths (fuel : nat) (type : VarType)
  : option (result (list TypeComponentVector)) :=
  forEachSubType fuel type (fun it acc => Ok (acc ++ [getPath it])) [].

End SubTypeIterator.

(** No component index below 4. *)
Definition index_ge_4 (c : VarTypeComponent) : Prop := 4 <= comp_index c.

(* ================================================================== *)
(** ** gluDrawUtil.ts: primitive types *)

Inductive primitiveType : Type :=
| TRIANGLES | TRIANGLE_STRIP | TRIANGLE_FAN
| LINES | LINE_STRIP | LINE_LOOP
| POINTS
| PATCHES.

(* ================================================================== *)
(** ** Primitive topology arithmetic *)

(** JavaScript [%] on integers: remainder with the sign of the dividend. *)
Definition js_mod (a b : Z) : Z := Z.rem a b.

Definition getTransformFeedbackOutputCount
  (primType : primitiveType) (numElements : Z) : result Z :=
  match primType with
  | TRIANGLES => Ok (numElements - js_mod numElements 3)
  | TRIANGLE_STRIP => Ok (Z.max 0 (numElements - 2) * 3)
  | TRIANGLE_FAN => Ok (Z.max 0 (numElements - 2) * 3)
  | LINES => Ok (numElements - js_mod numElements 2)
  | LINE_STRIP => Ok (Z.max 0 (numElements - 1) * 2)
  | LINE_LOOP => Ok (if 1 <? numElements then numElements * 2 else 0)
  | POINTS => Ok numElements
  | PATCHES => Throw "Unrecognized primitiveType 7"
  end.

(** JavaScript [%] on numbers that need not be integers:
    [a - b * trunc(a / b)]. *)
Definition Qtrunc (q : Q) : Z :=
  if Qle_bool 0 q then Qfloor q else Qceiling q.

Definition js_modQ (a b : Q) : Q := (a - b * inject_Z (Qtrunc (a / b)))%Q.

Definition Qlt_bool (a b : Q) : bool := negb (Qle_bool b a).

(** The value the primitives-written query is compared with. [/] is the
    division of JavaScript numbers, not an integer division. *)
Definition getTransformFeedbackPrimitiveCount
  (primType : primitiveType) (numElements : Z) : result Q :=
  let n := inject_Z numElements in
  match primType with
  | TRIANGLES => Ok (n - n / 3)%Q
  | TRIANGLE_STRIP => Ok (inject_Z (Z.max 0 (numElements - 2)))
  | TRIANGLE_FAN => Ok (inject_Z (Z.max 0 (numElements - 2)))
  | LINES => Ok (n - n / 2)%Q
  | LINE_STRIP => Ok (inject_Z (Z.max 0 (numElements - 1)))
  | LINE_LOOP => Ok (if 1 <? numElements then n else 0%Q)
  | POINTS => Ok n
  | PATCHES => Throw "Unrecognized primitiveType 7"
  end.

(** The input vertex an output slot is compared with. Again [/] is the
    division of JavaScript numbers. (The [gl] argument of the source is not
    used and is left out, here and in the function above.) *)
Definition getAttributeIndex
  (primType : primitiveType) (numInputs outNdx : Z) : result Q :=
  let out := inject_Z outNdx in
  match primType with
  | TRIANGLES => Ok out
  | LINES => Ok out
  | POINTS => Ok out
  | TRIANGLE_STRIP =>
      let triNdx := (out / 3)%Q in
      let vtxNdx := inject_Z (js_mod outNdx 3) in
      Ok (if negb (Qeq_bool (js_modQ triNdx 2) 0) && Qlt_bool vtxNdx 2
          then (triNdx + 1 - vtxNdx)%Q
          else (triNdx + vtxNdx)%Q)
  | TRIANGLE_FAN =>
      Ok (if negb (js_mod outNdx 3 =? 0)
          then (out / 3 + inject_Z (js_mod outNdx 3))%Q
          else 0%Q)
  | LINE_STRIP => Ok (out / 2 + inject_Z (js_mod outNdx 2))%Q
  | LINE_LOOP =>
      let inNdx := (out / 2 + inject_Z (js_mod outNdx 2))%Q in
      Ok (if Qlt_bool inNdx (inject_Z numInputs) then inNdx else 0%Q)
  | PATCHES => Throw "Unrecognized primitiveType 7"
  end.

(** A rational result that is the integer [z]. *)
Definition returnsZ (r : result Q) (z : Z) : Prop :=
  exists q, r = Ok q /\ (q == inject_Z z)%Q.

(** The triangle-strip table for five input vertices, slots 0 to 8, as
    the specification lists it. *)
Definition stated_strip_table : list Z := [0; 1; 2; 2; 1; 3; 3; 4; 2].

(* ================================================================== *)
(** ** The transform-feedback test: program specification *)

Inductive interpolation : Type := SMOOTH | FLAT | CENTROID.

Record Varying : Type := mkVarying {
  varying_name : string;
  varying_type : VarType;
  varying_interpolation : interpolation
}.

Record Attribute : Type := mkAttribute {
  attr_name : string;
  attr_type : VarType;
  attr_offset : Z
}.

Record DrawCall : Type := mkDrawCall {
  numElements : Z;
  transformFeedbackEnabled : bool
}.

Definition dc (numElements : Z) (tfEnabled : bool) : DrawCall :=
  mkDrawCall numElements tfEnabled.

Record ProgramSpec : Type := mkProgramSpec {
  m_structs : list StructType;
  m_varyings : list Varying;
  m_transformFeedbackVaryings : list string
}.

Definition getVaryings (spec : ProgramSpec) : list Varying := m_varyings spec.
Definition getTransformFeedbackVaryings (spec : ProgramSpec) : list string :=
  m_transformFeedbackVaryings spec.

Definition isPointSizeUsed (spec : ProgramSpec) : bool :=
  existsb (fun v => String.eqb v "gl_PointSize") (m_transformFeedbackVaryings spec).

(** The first element whose name is [name], or [undefined] ([None]). *)
Definition findAttributeNameEquals {A : Type} (getName : A -> string)
  (array : list A) (name : string) : option A :=
  find (fun x => String.eqb (getName x) name) array.

(** ['a_' + varyingName.substr(/^v_/.test(varyingName) ? 2 : 0)] followed
    by one suffix for each step of the path. *)
Fixpoint getAttributeName_loop (path : TypeComponentVector) (str : string) : result string :=
  match path with
  | [] => Ok str
  | c :: rest =>
      prefix <- match comp_type c with
                | Some STRUCT_MEMBER => Ok "_m"
                | Some ARRAY_ELEMENT => Ok "_e"
                | Some MATRIX_COLUMN => Ok "_c"
                | Some VECTOR_COMPONENT => Ok "_s"
                | None => Throw "invalid type in the component path."
                end ;;
      getAttributeName_loop rest (str ++ prefix ++ string_of_Z (comp_index c))%string
  end.

Definition getAttributeName (varyingName : string) (path : TypeComponentVector)
  : result string :=
  let base := if String.prefix "v_" varyingName then string_from 2 varyingName
              else varyingName in
  getAttributeName_loop path ("a_" ++ base)%string.

(* ================================================================== *)
(** ** The transform-feedback test: input layout *)

(** The body of the inner loop of [computeInputLayout]: one attribute for
    the sub-type the iterator stands at. *)
Definition computeInputLayout_body (varyingName : string) (it : SubTypeIterator)
  (st : list Attribute * Z) : result (list Attribute * Z) :=
  let (attributes, inputStride) := st in
  type <- iterator_getType it ;;
  name <- getAttributeName varyingName (getPath it) ;;
  let attributes := attributes ++ [mkAttribute name type inputStride] in
  b <- getBasicType type ;;
  size <- getDataTypeScalarSize b ;;
  Ok (attributes, inputStride + size * 4).

(** The loop over the varyings. *)
Fixpoint computeInputLayout_varyings (fuel : nat) (varyings : list Varying)
  (st : list Attribute * Z) : option (result (list Attribute * Z)) :=
  match varyings with
  | [] => Some (Ok st)
  | v :: rest =>
      match forEachSubType VectorTypeIterator_isExpanded fuel (varying_type v)
              (computeInputLayout_body (varying_name v)) st with
      | None => None
      | Some (Throw m) => Some (Throw m)
      | Some (Ok st') => computeInputLayout_varyings fuel rest st'
      end
  end.

(** [computeInputLayout(attributes, varyings, usePointSize)]: the source
    pushes onto [attributes] and returns the stride; here both the
    extended list and the stride are returned. *)
Definition computeInputLayout (fuel : nat) (attributes : list Attribute)
  (varyings : list Varying) (usePointSize : bool)
  : option (result (list Attribute * Z)) :=
  let inputStride := 0 in
  let dataTypeVec4 := newTypeBasic FLOAT_VEC4 PRECISION_HIGHP in
  let attributes := attributes ++ [mkAttribute "a_position" dataTypeVec4 inputStride] in
  let inputStride := inputStride + 4 * 4 in
  let st :=
    if usePointSize then
      let dataTypeFloat := newTypeBasic FLOAT PRECISION_HIGHP in
      (attributes ++ [mkAttribute "a_pointSize" dataTypeFloat inputStride],
       inputStride + 1 * 4)
    else (attributes, inputStride) in
  computeInputLayout_varyings fuel varyings st.

(** The bytes an attribute occupies in the input record: four for each
    scalar of its basic type. *)
Definition attributeBytes (a : Attribute) : Z :=
  match attr_type a with
  | TypeBasic b _ =>
      match getDataTypeScalarSize b with Ok size => size * 4 | Throw _ => 0 end
  | _ => 0
  end.

(** A layout: offsets strictly increasing and 4-byte aligned, every
    attribute inside the record, and a stride that is the sum of the
    attributes' sizes. *)
Definition layout_ok (st : list Attribute * Z) : Prop :=
  let (attributes, stride) := st in
  StronglySorted Z.lt (map attr_offset attributes) /\
  Forall (fun a => 0 <= attr_offset a < stride /\ attr_offset a mod 4 = 0) attributes /\
  stride mod 4 = 0 /\
  stride = fold_right Z.add 0 (map attributeBytes attributes).

(* ================================================================== *)
(** ** The transform-feedback test: comparison and expected counts *)

(** A 32-bit pattern read through a [Float32Array]: the binary32 value,
    which every JavaScript number (binary64) represents exactly. *)
Definition f32_of_bits (w : Z) : float :=
  let sign := Z.testbit w 31 in
  let e := (w / 2 ^ 23) mod 256 in
  let m := w mod 2 ^ 23 in
  SF2Prim
    (if e =? 255 then (if m =? 0 then S754_infinity sign else S754_nan)
     else if e =? 0 then
       (if m =? 0 then S754_zero sign else S754_finite sign (Z.to_pos m) (-149))
     else S754_finite sign (Z.to_pos (m + 2 ^ 23)) (e - 150)).

(** The literal [0.1] of the source: the nearest binary64 number. *)
Definition float_0_1 : float := 0x1.999999999999ap-4%float.

(** The body of the innermost loop of [compareTransformFeedbackOutput]:
    [isEqual] for one component, from the scalar type and precision of the
    attribute and the two 32-bit words at the input and output addresses
    (read as [Float32Array] or [Uint32Array] elements). *)
Definition compareComponent (scalarType : string) (prec : precision)
  (inWord outWord : Z) : result bool :=
  if String.eqb scalarType "float" then
    let difInOut := (f32_of_bits inWord - f32_of_bits outWord)%float in
    match prec with
    | PRECISION_HIGHP => Ok (PrimFloat.ltb (PrimFloat.abs difInOut) float_0_1)
    | PRECISION_MEDIUMP => Ok (PrimFloat.ltb (PrimFloat.abs difInOut) float_0_1)
    | PRECISION_LOWP => Ok (PrimFloat.ltb (PrimFloat.abs difInOut) float_0_1)
    | PRECISION_LAST => _ <- DE_ASSERT false ;; Ok false
    end
  else
    Ok (inWord mod 2 ^ 32 =? outWord mod 2 ^ 32).

(** The loop of [computeTransformFeedbackPrimitiveCount]. *)
Fixpoint computeTransformFeedbackPrimitiveCount_loop
  (primType : primitiveType) (array : list DrawCall) (primCount : Q) : result Q :=
  match array with
  | [] => Ok primCount
  | call :: rest =>
      if transformFeedbackEnabled call then
        c <- getTransformFeedbackPrimitiveCount primType (numElements call) ;;
        computeTransformFeedbackPrimitiveCount_loop primType rest (primCount + c)%Q
      else computeTransformFeedbackPrimitiveCount_loop primType rest primCount
  end.

Definition computeTransformFeedbackPrimitiveCount
  (primType : primitiveType) (array : list DrawCall) : result Q :=
  computeTransformFeedbackPrimitiveCount_loop primType array 0%Q.

(** The fixed draw-call scripts of [TransformFeedbackCase.s_iterate]. *)
Definition elemCount1 : list DrawCall := [dc 1 true].
Definition elemCount2 : list DrawCall := [dc 2 true].
Definition elemCount3 : list DrawCall := [dc 3 true].
Definition elemCount4 : list DrawCall := [dc 4 true].
Definition elemCount123 : list DrawCall := [dc 123 true].
Definition basicPause1 : list DrawCall := [dc 64 false; dc 64 true; dc 64 true].

(* ================================================================== *)
(** ** The transform-feedback test: classifying a failed program *)

Fixpoint hasArraysInTFVaryings_loop (varyings : list Varying) (tfVaryings : list string)
  : result bool :=
  match tfVaryings with
  | [] => Ok false
  | tfVar :: rest =>
      varName <- parseVariableName tfVar ;;
      match findAttributeNameEquals varying_name varyings varName with
      | Some _ => Ok true
      | None => hasArraysInTFVaryings_loop varyings rest
      end
  end.









(* ================================================================== *)
(** ** Sample types *)

Definition struct_S : VarType :=
  TypeStruct (Struct "S" [Member "a" (TypeBasic FLOAT PRECISION_HIGHP);
                          Member "m" (TypeBasic FLOAT_MAT2X3 PRECISION_LOWP)]).

(** The path [.m[1]] into [struct_S], with the kinds set directly. *)
Definition member_1_column_1 : TypeComponentVector :=
  [mkVarTypeComponent (Some STRUCT_MEMBER) 1; mkVarTypeComponent (Some MATRIX_COLUMN) 1].

Definition mat2_highp : VarType := newTypeBasic FLOAT_MAT2 PRECISION_HIGHP.

(** An unsized array of floats. *)
Definition unsized_floats : VarType :=
  newTypeArray (newTypeBasic FLOAT PRECISION_HIGHP) UNSIZED_ARRAY.

(** The program of a basic-type case: two float varyings, both captured. *)
Definition basicTypeSpec : ProgramSpec :=
  mkProgramSpec []
    [mkVarying "v_varA" (newTypeBasic FLOAT PRECISION_HIGHP) SMOOTH;
     mkVarying "v_varB" (newTypeBasic FLOAT PRECISION_HIGHP) SMOOTH]
    ["v_varA"; "v_varB"].



(* ================================================================== *)
(** * Further definitions *)

From Stdlib Require Import DecimalPos.

(* ================================================================== *)
(** ** gluShaderUtil.ts: names and further classes of data types *)

(** A value that may be [undefined], as string concatenation prints it. *)
Definition string_of_undefinable (s : option string) : string :=
  match s with
  | Some s => s
  | None => "undefined"
  end.

(** [s_names[prec]]: the table has three entries, so [PRECISION_LAST]
    reads [undefined] ([None]). *)
Definition getPrecisionName (prec : precision) : option string :=
  match prec with
  | PRECISION_LOWP => Some "lowp"
  | PRECISION_MEDIUMP => Some "mediump"
  | PRECISION_HIGHP => Some "highp"
  | PRECISION_LAST => None
  end.

Definition getDataTypeFloatScalars (dataType : DataType) : result string :=
  match dataType with
  | FLOAT => Ok "float"
  | FLOAT_VEC2 => Ok "vec2"
  | FLOAT_VEC3 => Ok "vec3"
  | FLOAT_VEC4 => Ok "vec4"
  | FLOAT_MAT2 => Ok "mat2"
  | FLOAT_MAT2X3 => Ok "mat2x3"
  | FLOAT_MAT2X4 => Ok "mat2x4"
  | FLOAT_MAT3X2 => Ok "mat3x2"
  | FLOAT_MAT3 => Ok "mat3"
  | FLOAT_MAT3X4 => Ok "mat3x4"
  | FLOAT_MAT4X2 => Ok "mat4x2"
  | FLOAT_MAT4X3 => Ok "mat4x3"
  | FLOAT_MAT4 => Ok "mat4"
  | INT => Ok "float"
  | INT_VEC2 => Ok "vec2"
  | INT_VEC3 => Ok "vec3"
  | INT_VEC4 => Ok "vec4"
  | UINT => Ok "float"
  | UINT_VEC2 => Ok "vec2"
  | UINT_VEC3 => Ok "vec3"
  | UINT_VEC4 => Ok "vec4"
  | BOOL => Ok "float"
  | BOOL_VEC2 => Ok "vec2"
  | BOOL_VEC3 => Ok "vec3"
  | BOOL_VEC4 => Ok "vec4"
  | _ => unrecognizedDataType dataType
  end.

Definition isDataTypeBoolOrBVec (dataType : DataType) : bool :=
  (DataType_to_Z BOOL <=? DataType_to_Z dataType)
  && (DataType_to_Z dataType <=? DataType_to_Z BOOL_VEC4).

Definition isDataTypeSampler (dataType : DataType) : bool :=
  (DataType_to_Z SAMPLER_2D <=? DataType_to_Z dataType)
  && (DataType_to_Z dataType <=? DataType_to_Z UINT_SAMPLER_3D).

Definition getDataTypeName (dataType : DataType) : result string :=
  match dataType with
  | INVALID => Ok "invalid"
  | FLOAT => Ok "float"
  | FLOAT_VEC2 => Ok "vec2"
  | FLOAT_VEC3 => Ok "vec3"
  | FLOAT_VEC4 => Ok "vec4"
  | FLOAT_MAT2 => Ok "mat2"
  | FLOAT_MAT2X3 => Ok "mat2x3"
  | FLOAT_MAT2X4 => Ok "mat2x4"
  | FLOAT_MAT3X2 => Ok "mat3x2"
  | FLOAT_MAT3 => Ok "mat3"
  | FLOAT_MAT3X4 => Ok "mat3x4"
  | FLOAT_MAT4X2 => Ok "mat4x2"
  | FLOAT_MAT4X3 => Ok "mat4x3"
  | FLOAT_MAT4 => Ok "mat4"
  | INT => Ok "int"
  | INT_VEC2 => Ok "ivec2"
  | INT_VEC3 => Ok "ivec3"
  | INT_VEC4 => Ok "ivec4"
  | UINT => Ok "uint"
  | UINT_VEC2 => Ok "uvec2"
  | UINT_VEC3 => Ok "uvec3"
  | UINT_VEC4 => Ok "uvec4"
  | BOOL => Ok "bool"
  | BOOL_VEC2 => Ok "bvec2"
  | BOOL_VEC3 => Ok "bvec3"
  | BOOL_VEC4 => Ok "bvec4"
  | SAMPLER_2D => Ok "sampler2D"
  | SAMPLER_CUBE => Ok "samplerCube"
  | SAMPLER_2D_ARRAY => Ok "sampler2DArray"
  | SAMPLER_3D => Ok "sampler3D"
  | SAMPLER_2D_SHADOW => Ok "sampler2DShadow"
  | SAMPLER_CUBE_SHADOW => Ok "samplerCubeShadow"
  | SAMPLER_2D_ARRAY_SHADOW => Ok "sampler2DArrayShadow"
  | INT_SAMPLER_2D => Ok "isampler2D"
  | INT_SAMPLER_CUBE => Ok "isamplerCube"
  | INT_SAMPLER_2D_ARRAY => Ok "isampler2DArray"
  | INT_SAMPLER_3D => Ok "isampler3D"
  | UINT_SAMPLER_2D => Ok "usampler2D"
  | UINT_SAMPLER_CUBE => Ok "usamplerCube"
  | UINT_SAMPLER_2D_ARRAY => Ok "usampler2DArray"
  | UINT_SAMPLER_3D => Ok "usampler3D"
  | LAST => unrecognizedDataType dataType
  end.

(** The four scalar types, and the sizes a vector may have. *)
Definition scalarTypes : list DataType := [FLOAT; INT; UINT; BOOL].

(** The GLSL name of a matrix with [columns] columns and [rows] rows. *)
Definition matrixName (columns rows : Z) : string :=
  if columns =? rows then ("mat" ++ string_of_Z columns)%string
  else ("mat" ++ string_of_Z columns ++ "x" ++ string_of_Z rows)%string.

(* ================================================================== *)
(** ** gluVarType.ts: scalar size and declarations *)

(** [VarType.getScalarSize]: the scalar size of the basic type, the
    element's size times the array size, or the sum over the members. *)
Fixpoint getScalarSize (t : VarType) : result Z :=
  match t with
  | TypeBasic b _ => getDataTypeScalarSize b
  | TypeArray e n =>
      s <- getScalarSize e ;;
      Ok (s * n)
  | TypeStruct (Struct _ ms) =>
      (fix members (ms : list StructMember) (size : Z) : result Z :=
         match ms with
         | [] => Ok size
         | Member _ ty :: rest =>
             s <- getScalarSize ty ;;
             members rest (size + s)
         end) ms 0
  end.

(** The member loop of [getScalarSize] on its own. *)
Fixpoint structScalarSize (ms : list StructMember) (size : Z) : result Z :=
  match ms with
  | [] => Ok size
  | Member _ ty :: rest =>
      s <- getScalarSize ty ;;
      structScalarSize rest (size + s)
  end.

Definition memberType (m : StructMember) : VarType :=
  match m with Member _ t => t end.

(** A type all of whose arrays have a size of at least 0 and all of whose
    basic types have a scalar size. *)
Fixpoint sizedType (t : VarType) : bool :=
  match t with
  | TypeBasic b _ =>
      match getDataTypeScalarSize b with Ok _ => true | Throw _ => false end
  | TypeArray e n => (0 <=? n) && sizedType e
  | TypeStruct (Struct _ ms) =>
      (fix members (ms : list StructMember) : bool :=
         match ms with
         | [] => true
         | Member _ ty :: rest => sizedType ty && members rest
         end) ms
  end.

Definition getTypeName (s : StructType) : string :=
  match s with Struct n _ => n end.

(** [hasTypeName] compares the name with the text ['undefined']. *)
Definition hasTypeName (s : StructType) : bool :=
  negb (String.eqb (getTypeName s) "undefined").

Definition tab : string := String (ascii_of_nat 9) EmptyString.
Definition newline : string := String (ascii_of_nat 10) EmptyString.

Fixpoint indent (level : nat) : string :=
  match level with
  | O => ""
  | S l => (indent l ++ tab)%string
  end.

(** The array sizes printed after the name: [[]] for an unsized array. *)
Fixpoint printArraySizes (arraySizes : list Z) : string :=
  match arraySizes with
  | [] => ""
  | arrSize :: rest =>
      ((if (arrSize =? UNSIZED_ARRAY)%Z then "[]" else "[" ++ string_of_Z arrSize ++ "]")
       ++ printArraySizes rest)%string
  end.

(** [declareVariable] after its first loop has collected [arraySizes], and
    [declareStructType] for the inline declaration of a struct whose name
    is not recognized as one. *)
Fixpoint declareVariable_from (arraySizes : list Z) (curType : VarType)
  (name : string) (level : nat) : result string :=
  match curType with
  | TypeArray e n => declareVariable_from (arraySizes ++ [n]) e name level
  | TypeBasic b p =>
      typeName <- getDataTypeName b ;;
      Ok (string_of_undefinable (getPrecisionName p) ++ " " ++ typeName
          ++ " " ++ name ++ printArraySizes arraySizes)%string
  | TypeStruct (Struct typeName ms) =>
      decl <-
        (if hasTypeName (Struct typeName ms) then Ok typeName
         else
           body <-
             (fix members (ms : list StructMember) (str : string) : result string :=
                match ms with
                | [] => Ok str
                | Member n ty :: rest =>
                    d <- declareVariable_from [] ty n (S level) ;;
                    members rest (str ++ indent (S level) ++ d ++ ";" ++ newline)%string
                end) ms ("struct" ++ newline ++ indent level ++ "{" ++ newline)%string ;;
           Ok (body ++ indent level ++ "}")%string) ;;
      Ok (decl ++ " " ++ name ++ printArraySizes arraySizes)%string
  end.

Definition declareVariable (varType : VarType) (name : string) (level : nat)
  : result string :=
  declareVariable_from [] varType name level.

(** The member loop of [declareStructType]. *)
Fixpoint declareStructType_members (ms : list StructMember) (level : nat) (str : string)
  : result string :=
  match ms with
  | [] => Ok str
  | Member n ty :: rest =>
      d <- declareVariable ty n (S level) ;;
      declareStructType_members rest level
        (str ++ indent (S level) ++ d ++ ";" ++ newline)%string
  end.

Definition declareStructType (structType : StructType) (level : nat) : result string :=
  let str := "struct" in
  let str := if hasTypeName structType
             then (str ++ " " ++ getTypeName structType)%string else str in
  let str := (str ++ newline ++ indent level ++ "{" ++ newline)%string in
  str <- declareStructType_members (match structType with Struct _ ms => ms end) level str ;;
  Ok (str ++ indent level ++ "}")%string.

(* ================================================================== *)
(** ** gluVarTypeUtil.ts: comparing paths, and SubTypeAccess *)

(** [array_op_equivalent(arr1, arr2)]: every element of [arr1] is compared
    with [arr2[1]]; on [undefined] the call of [isnt] is a TypeError. *)
Fixpoint array_op_equivalent_loop (arr1 : TypeComponentVector)
  (arr2_1 : option VarTypeComponent) : result bool :=
  match arr1 with
  | [] => Ok true
  | x :: rest =>
      match arr2_1 with
      | None => Throw "TypeError"
      | Some y =>
          if comp_isnt x y then Ok false else array_op_equivalent_loop rest arr2_1
      end
  end.

Definition array_op_equivalent (arr1 arr2 : TypeComponentVector) : result bool :=
  if negb (Z.of_nat (List.length arr1) =? Z.of_nat (List.length arr2)) then Ok false
  else array_op_equivalent_loop arr1 (nth_error arr2 1).

(** A [SubTypeAccess] object. Its methods change the path in place and
    return [this]; a method that throws has changed the object before, so
    every method answers with the object and the outcome. *)
Record SubTypeAccess : Type := mkSubTypeAccess {
  access_type : VarType;
  access_path : TypeComponentVector
}.

Definition newSubTypeAccess (type : VarType) : SubTypeAccess :=
  mkSubTypeAccess type [].

Definition access_isValid (this : SubTypeAccess) : result bool :=
  isValidTypePath (access_type this) (access_path this).

Definition access_getType (this : SubTypeAccess) : result VarType :=
  getVarType (access_type this) (access_path this).

Definition access_getPath (this : SubTypeAccess) : TypeComponentVector :=
  access_path this.

Definition access_empty (this : SubTypeAccess) : bool :=
  match access_path this with [] => true | _ => false end.

Definition access_helper (type : ComponentType) (ndx : Z) (this : SubTypeAccess)
  : SubTypeAccess * result unit :=
  let this := mkSubTypeAccess (access_type this)
                (access_path this ++ [newVarTypeComponent type ndx]) in
  (this, valid <- access_isValid this ;; if negb valid then Throw "" else Ok tt).

Definition access_member (ndx : Z) := access_helper STRUCT_MEMBER ndx.
Definition access_element (ndx : Z) := access_helper ARRAY_ELEMENT ndx.
Definition access_column (ndx : Z) := access_helper MATRIX_COLUMN ndx.
Definition access_component (ndx : Z) := access_helper VECTOR_COMPONENT ndx.

Definition access_parent (this : SubTypeAccess) : SubTypeAccess * result unit :=
  match access_path this with
  | [] => (this, Throw "")
  | _ => (mkSubTypeAccess (access_type this) (removelast (access_path this)), Ok tt)
  end.

(** A chain of calls [a.f().g()]: the second call happens if the first
    one returned. *)
Definition access_then (r : SubTypeAccess * result unit)
  (f : SubTypeAccess -> SubTypeAccess * result unit) : SubTypeAccess * result unit :=
  match r with
  | (this, Ok _) => f this
  | (this, Throw m) => (this, Throw m)
  end.

(** The accesses a program can hold: a new one, and what a method call
    that returned has made of one. *)
Inductive built_from (type : VarType) : SubTypeAccess -> Prop :=
| built_new : built_from type (newSubTypeAccess type)
| built_step this kind ndx :
    built_from type this ->
    snd (access_helper kind ndx this) = Ok tt ->
    built_from type (fst (access_helper kind ndx this))
| built_parent this :
    built_from type this ->
    snd (access_parent this) = Ok tt ->
    built_from type (fst (access_parent this)).

(** Ten floats, and the access to the sixth of them. *)
Definition ten_floats : VarType :=
  newTypeArray (newTypeBasic FLOAT PRECISION_HIGHP) 10.

(* ================================================================== *)
(** ** Types the iterators cannot enter *)

(** The path to element [first + d] of an array, for [d] below [count]. *)
Definition elementPaths (first : Z) (count : nat) : list TypeComponentVector :=
  map (fun d => [mkVarTypeComponent (Some ARRAY_ELEMENT) (first + Z.of_nat d)])
      (seq 0 count).

(* ================================================================== *)
(** ** The text a tokenizer and a parser accept *)

(** The longest prefix of a text whose characters satisfy [p]. *)
Fixpoint takeWhile (p : ascii -> bool) (s : string) : string :=
  match s with
  | EmptyString => EmptyString
  | String c rest => if p c then String c (takeWhile p rest) else EmptyString
  end.

Fixpoint allChars (p : ascii -> bool) (s : string) : bool :=
  match s with
  | EmptyString => true
  | String c rest => p c && allChars p rest
  end.

(** A character that starts a bracket or period token. *)
Definition isPunctuation (c : ascii) : bool :=
  Ascii.eqb c "[" || Ascii.eqb c "]" || Ascii.eqb c ".".

(** The token the tokenizer finds at the start of the text that is left,
    with its length. *)
Definition firstToken (rest : string) : result (Token.t * nat) :=
  match rest with
  | EmptyString => Ok (Token.END, 1%nat)
  | String c r =>
      if Ascii.eqb c "[" then Ok (Token.LEFT_BRACKET, 1%nat)
      else if Ascii.eqb c "]" then Ok (Token.RIGHT_BRACKET, 1%nat)
      else if Ascii.eqb c "." then Ok (Token.PERIOD, 1%nat)
      else if isNum c then Ok (Token.NUMBER, S (count_while isNum r))
      else if isIdentifierChar c then Ok (Token.IDENTIFIER, S (count_while isIdentifierChar r))
      else Throw "Unexpected character"
  end.

(** A name: letters, digits and underscores, the first one no digit. *)
Definition isIdentifier (name : string) : bool :=
  match name with
  | EmptyString => false
  | String c _ => negb (isNum c) && allChars isIdentifierChar name
  end.

(** The subscripts [[i]] of a path, as [TypeAccessFormat] writes them. *)
Fixpoint subscripts (path : TypeComponentVector) : string :=
  match path with
  | [] => ""
  | c :: rest => ("[" ++ string_of_Z (comp_index c) ++ "]" ++ subscripts rest)%string
  end.

(** A path of array elements, matrix columns and vector components, each
    with an index from 1 up to the size of what it indexes. *)
Inductive subscriptPath : VarType -> TypeComponentVector -> Prop :=
| subscript_none type : subscriptPath type []
| subscript_element e n i rest :
    1 <= i < n ->
    subscriptPath e rest ->
    subscriptPath (TypeArray e n) (mkVarTypeComponent (Some ARRAY_ELEMENT) i :: rest)
| subscript_column m p rows columns i rest :
    isDataTypeMatrix m = true ->
    getDataTypeMatrixNumRows m = Ok rows ->
    getDataTypeMatrixNumColumns m = Ok columns ->
    1 <= i < columns ->
    subscriptPath (TypeBasic (getDataTypeFloatVec rows) p) rest ->
    subscriptPath (TypeBasic m p) (mkVarTypeComponent (Some MATRIX_COLUMN) i :: rest)
| subscript_component v p size i :
    isDataTypeVector v = true ->
    getDataTypeScalarSize v = Ok size ->
    1 <= i < size ->
    subscriptPath (TypeBasic v p) [mkVarTypeComponent (Some VECTOR_COMPONENT) i].

(** The iterator standing at element [i] of the array [type]. *)
Definition elementIterator (type : VarType) (i : Z) : SubTypeIterator :=
  mkSubTypeIterator (Some type) [mkVarTypeComponent (Some ARRAY_ELEMENT) i].

(** A loop body run over a list, stopping at the first exception. *)
Fixpoint foldResult {A B : Type} (body : B -> A -> result A) (l : list B) (acc : A)
  : result A :=
  match l with
  | [] => Ok acc
  | x :: rest =>
      match body x acc with
      | Ok acc' => foldResult body rest acc'
      | Throw m => Throw m
      end
  end.

(** A struct, or an array that has a size of at most four. *)
Definition structOrSmallArray (t : VarType) : bool :=
  match t with
  | TypeBasic _ _ => false
  | TypeArray _ n => (n <=? 4) && negb (n =? UNSIZED_ARRAY)
  | TypeStruct _ => true
  end.

(** What the constructor of an iterator throws on such a type. *)
Definition iteratorMessage (t : VarType) : string :=
  match t with
  | TypeStruct _ => "Not a matrix or a vector"
  | _ => "Type is invalid"
  end.

(** The varyings of a BasicArrayCase: arrays of one and two elements for a
    matrix type or in separate mode, of three and four elements
    otherwise. *)
Definition BasicArrayCase_varyings (reduced : bool) (type : DataType) (prec : precision)
  (interp : interpolation) : list Varying :=
  if reduced then
    [mkVarying "v_varA" (newTypeArray (newTypeBasic type prec) 1) interp;
     mkVarying "v_varB" (newTypeArray (newTypeBasic type prec) 2) interp]
  else
    [mkVarying "v_varA" (newTypeArray (newTypeBasic type prec) 3) interp;
     mkVarying "v_varB" (newTypeArray (newTypeBasic type prec) 4) interp].

(* ================================================================== *)
(** ** The transform-feedback test: outputs and buffer strides *)

(** An [Output] as [computeTransformFeedbackOutputs] pushes it: by then
    its name and its type are set. An input is [undefined] ([None]) when
    no attribute has the name looked up. *)
Record Output : Type := mkOutput {
  out_bufferNdx : Z;
  out_offset : Z;
  out_name : string;
  out_type : VarType;
  out_inputs : list (option Attribute)
}.

(** A computation that may run out of fuel, followed by another. *)
Definition andThen {A B : Type} (r : option (result A)) (k : A -> option (result B))
  : option (result B) :=
  match r with
  | None => None
  | Some (Throw m) => Some (Throw m)
  | Some (Ok a) => k a
  end.

(** Reading [.type] of the attribute or varying found, a TypeError when
    none was found. *)
Definition found {A : Type} (x : option A) : result A :=
  match x with
  | Some a => Ok a
  | None => Throw "TypeError"
  end.

(** The body of the loop over the vector sub-types of an output's type:
    the attribute of the full path is looked up and pushed. *)
Definition computeTransformFeedbackOutputs_input (attributes : list Attribute)
  (varName : string) (varPath : TypeComponentVector) (iter : SubTypeIterator)
  (inputs : list (option Attribute)) : result (list (option Attribute)) :=
  let fullpath := varPath ++ getPath iter in
  attribName <- getAttributeName varName fullpath ;;
  let attrib := findAttributeNameEquals attr_name attributes attribName in
  Ok (inputs ++ [attrib]).

(** The type and the inputs of the output for one captured name. *)
Definition computeTransformFeedbackOutputs_output (fuel : nat)
  (attributes : list Attribute) (varyings : list Varying) (name : string)
  : option (result (VarType * list (option Attribute))) :=
  if String.eqb name "gl_Position" then
    Some (posIn <- found (findAttributeNameEquals attr_name attributes "a_position") ;;
          Ok (attr_type posIn, [Some posIn]))
  else if String.eqb name "gl_PointSize" then
    Some (sizeIn <- found (findAttributeNameEquals attr_name attributes "a_pointSize") ;;
          Ok (attr_type sizeIn, [Some sizeIn]))
  else
    andThen (Some (parseVariableName name)) (fun varName =>
    andThen (Some (found (findAttributeNameEquals varying_name varyings varName)))
      (fun varying =>
    andThen (parseTypePath name (varying_type varying)) (fun varPath =>
    andThen (Some (getVarType (varying_type varying) varPath)) (fun type =>
    andThen (forEachSubType VectorTypeIterator_isExpanded fuel type
               (computeTransformFeedbackOutputs_input attributes varName varPath) [])
      (fun inputs => Some (Ok (type, inputs))))))).

(** The loop of [computeTransformFeedbackOutputs]; [separate] is
    [bufferMode === gl.SEPARATE_ATTRIBS]. The source pushes onto
    [transformFeedbackOutputs]; here the extended list is returned. *)
Fixpoint computeTransformFeedbackOutputs_loop (fuel : nat)
  (attributes : list Attribute) (varyings : list Varying) (separate : bool)
  (transformFeedbackVaryings : list string) (varNdx accumulatedSize : Z)
  (transformFeedbackOutputs : list Output) : option (result (list Output)) :=
  match transformFeedbackVaryings with
  | [] => Some (Ok transformFeedbackOutputs)
  | name :: rest =>
      let bufNdx := if separate then varNdx else 0 in
      let offset := if separate then 0 else accumulatedSize in
      andThen (computeTransformFeedbackOutputs_output fuel attributes varyings name)
        (fun typeAndInputs =>
           let output := mkOutput bufNdx offset name (fst typeAndInputs)
                           (snd typeAndInputs) in
           andThen (Some (getScalarSize (out_type output))) (fun size =>
             computeTransformFeedbackOutputs_loop fuel attributes varyings separate rest
               (varNdx + 1) (accumulatedSize + size * 4)
               (transformFeedbackOutputs ++ [output])))
  end.

Definition computeTransformFeedbackOutputs (fuel : nat)
  (transformFeedbackOutputs : list Output) (attributes : list Attribute)
  (varyings : list Varying) (transformFeedbackVaryings : list string) (separate : bool)
  : option (result (list Output)) :=
  computeTransformFeedbackOutputs_loop fuel attributes varyings separate
    transformFeedbackVaryings 0 0 transformFeedbackOutputs.

(** The sum loop of [TransformFeedbackCase.init] for the interleaved
    buffer. *)
Fixpoint init_totalSize (outputs : list Output) (totalSize : Z) : result Z :=
  match outputs with
  | [] => Ok totalSize
  | out :: rest =>
      size <- getScalarSize (out_type out) ;;
      init_totalSize rest (totalSize + size * 4)
  end.

Fixpoint init_separateStrides (outputs : list Output) (bufferStrides : list Z)
  : result (list Z) :=
  match outputs with
  | [] => Ok bufferStrides
  | out :: rest =>
      size <- getScalarSize (out_type out) ;;
      init_separateStrides rest (bufferStrides ++ [size * 4])
  end.

(** The buffer strides [init] derives from the outputs: one stride for
    each output in separate mode, the total size otherwise. *)
Definition init_bufferStrides (transformFeedbackOutputs : list Output) (separate : bool)
  : result (list Z) :=
  match transformFeedbackOutputs with
  | [] => Throw "transformFeedbackOutputs cannot be empty."
  | _ =>
      if separate then init_separateStrides transformFeedbackOutputs []
      else (totalSize <- init_totalSize transformFeedbackOutputs 0 ;; Ok [totalSize])
  end.

(** The part of [init] behind the program check: the input layout, the
    outputs and the strides. *)
Definition init_layout (fuel : nat) (spec : ProgramSpec) (separate : bool)
  : option (result (list Attribute * Z * list Output * list Z)) :=
  andThen (computeInputLayout fuel [] (getVaryings spec) (isPointSizeUsed spec))
    (fun layout =>
  andThen (computeTransformFeedbackOutputs fuel [] (fst layout) (getVaryings spec)
             (getTransformFeedbackVaryings spec) separate) (fun outputs =>
  andThen (Some (init_bufferStrides outputs separate)) (fun strides =>
  Some (Ok (fst layout, snd layout, outputs, strides))))).

(** The bytes an output takes in its buffer record. *)
Definition outputBytes (out : Output) : Z :=
  match getScalarSize (out_type out) with
  | Ok size => size * 4
  | Throw _ => 0
  end.

(** The bytes of a list of outputs. *)
Definition sumBytes (outputs : list Output) : Z :=
  fold_right Z.add 0 (map outputBytes outputs).

(** Where the outputs are placed: each has a type with a scalar size; in
    separate mode the output number k is in buffer k at offset 0, otherwise
    it is in buffer 0 behind the outputs before it. *)
Definition outputs_placed (separate : bool) (outputs : list Output) : Prop :=
  forall k out,
    nth_error outputs k = Some out ->
    (exists size, getScalarSize (out_type out) = Ok size) /\
    out_bufferNdx out = (if separate then Z.of_nat k else 0) /\
    out_offset out = (if separate then 0 else sumBytes (firstn k outputs)).

(** The programs of the PositionCase and PointSizeCase, and of a
    BasicTypeCase. *)
Definition builtinSpec (names : list string) : ProgramSpec :=
  mkProgramSpec [] [] names.

Definition BasicTypeCase_spec (type : DataType) (prec : precision) (interp : interpolation)
  : ProgramSpec :=
  mkProgramSpec []
    [mkVarying "v_varA" (newTypeBasic type prec) interp;
     mkVarying "v_varB" (newTypeBasic type prec) interp]
    ["v_varA"; "v_varB"].



(* ================================================================== *)
(** ** The transform-feedback test: implementation limits *)

(** The four limits [isProgramSupported] reads from the context. *)
Record Limits : Type := mkLimits {
  maxVertexAttribs : Z;
  maxTfInterleavedComponents : Z;
  maxTfSeparateAttribs : Z;
  maxTfSeparateComponents : Z
}.

(** The two buffer modes of the context (the values of WebGL 2). *)
Definition SEPARATE_ATTRIBS : Z := 35981.
Definition INTERLEAVED_ATTRIBS : Z := 35980.

(** The keys every JavaScript object inherits from [Object.prototype]:
    for these [presetNumComponents[name]] is defined although the object
    literal does not list them. *)
Definition inheritedKeys : list string :=
  ["constructor"; "hasOwnProperty"; "isPrototypeOf"; "propertyIsEnumerable";
   "toLocaleString"; "toString"; "valueOf"; "__proto__";
   "__defineGetter__"; "__defineSetter__"; "__lookupGetter__"; "__lookupSetter__"].

(** The loop of [isProgramSupported] that counts one vertex attribute for
    each vector sub-type of each varying. *)
Fixpoint isProgramSupported_attribs (fuel : nat) (varyings : list Varying)
  (totalVertexAttribs : Z) : option (result Z) :=
  match varyings with
  | [] => Some (Ok totalVertexAttribs)
  | v :: rest =>
      andThen (forEachSubType VectorTypeIterator_isExpanded fuel (varying_type v)
                 (fun _ total => Ok (total + 1)) totalVertexAttribs)
        (isProgramSupported_attribs fuel rest)
  end.

(** [numComponents] for one captured name: a number, or [None] for a value
    that is not a number (an inherited key gives a function or an object). *)
Definition isProgramSupported_numComponents (varyings : list Varying) (name : string)
  : option (result (option Z)) :=
  if String.eqb name "gl_Position" then Some (Ok (Some 4))
  else if String.eqb name "gl_PointSize" then Some (Ok (Some 1))
  else if existsb (String.eqb name) inheritedKeys then Some (Ok None)
  else
    andThen (Some (parseVariableName name)) (fun varName =>
    andThen (Some (found (findAttributeNameEquals varying_name varyings varName)))
      (fun varying =>
    andThen (parseTypePath name (varying_type varying)) (fun varPath =>
    Some (type <- getVarType (varying_type varying) varPath ;;
          size <- getScalarSize type ;;
          Ok (Some size))))).

(** [a > b] and [a + b] where [a] may be a value that is not a number: the
    comparison is then false, and the sum is a text, again not a number. *)
Definition js_gt (a : option Z) (b : Z) : bool :=
  match a with
  | Some x => b <? x
  | None => false
  end.

Definition js_add (a b : option Z) : option Z :=
  match a, b with
  | Some x, Some y => Some (x + y)
  | _, _ => None
  end.

(** The loop over the captured names and the two checks behind it. *)
Fixpoint isProgramSupported_varyings (limits : Limits) (varyings : list Varying)
  (tfMode : Z) (names : list string) (totalTfComponents : option Z) (totalTfAttribs : Z)
  : option (result bool) :=
  match names with
  | [] =>
      if (tfMode =? SEPARATE_ATTRIBS) && (maxTfSeparateAttribs limits <? totalTfAttribs)
      then Some (Ok false)
      else if (tfMode =? INTERLEAVED_ATTRIBS)
              && js_gt totalTfComponents (maxTfInterleavedComponents limits)
      then Some (Ok false)
      else Some (Ok true)
  | name :: rest =>
      andThen (isProgramSupported_numComponents varyings name) (fun numComponents =>
        if (tfMode =? SEPARATE_ATTRIBS)
           && js_gt numComponents (maxTfSeparateComponents limits)
        then Some (Ok false)
        else isProgramSupported_varyings limits varyings tfMode rest
               (js_add totalTfComponents numComponents) (totalTfAttribs + 1))
  end.

(** [isProgramSupported(gl, spec, tfMode)], with the limits of [gl]. *)
Definition isProgramSupported (fuel : nat) (limits : Limits) (spec : ProgramSpec)
  (tfMode : Z) : option (result bool) :=
  andThen (isProgramSupported_attribs fuel (getVaryings spec)
             (1 + (if isPointSizeUsed spec then 1 else 0))) (fun totalVertexAttribs =>
    if maxVertexAttribs limits <? totalVertexAttribs then Some (Ok false)
    else isProgramSupported_varyings limits (getVaryings spec) tfMode
           (getTransformFeedbackVaryings spec) (Some 0) 0).

(** The number of attributes of a layout state. *)
Definition attributeCount (st : list Attribute * Z) : Z := Z.of_nat (List.length (fst st)).

(** What the limits allow of a layout: no more attributes than vertex
    attributes; in separate mode no output with more components than a
    separate attribute may have and no more outputs than separate attributes,
    in interleaved mode no more components in all than may be interleaved. *)
Definition withinLimits (limits : Limits) (tfMode : Z) (attributes : list Attribute)
  (outputs : list Output) : bool :=
  (Z.of_nat (List.length attributes) <=? maxVertexAttribs limits)
  && (if tfMode =? SEPARATE_ATTRIBS
      then forallb (fun out => outputBytes out <=? 4 * maxTfSeparateComponents limits)
             outputs
           && (Z.of_nat (List.length outputs) <=? maxTfSeparateAttribs limits)
      else sumBytes outputs <=? 4 * maxTfInterleavedComponents limits).

(* ================================================================== *)
(** ** The transform-feedback test: the draw calls of runTest *)

(** The primitive modes of the graphics context. *)
Inductive GLprimitive : Type :=
| GL_POINTS | GL_LINES | GL_LINE_LOOP | GL_LINE_STRIP
| GL_TRIANGLES | GL_TRIANGLE_STRIP | GL_TRIANGLE_FAN.

Definition getTransformFeedbackPrimitiveMode (primType : primitiveType)
  : result GLprimitive :=
  match primType with
  | TRIANGLES | TRIANGLE_STRIP | TRIANGLE_FAN => Ok GL_TRIANGLES
  | LINES | LINE_STRIP | LINE_LOOP => Ok GL_LINES
  | POINTS => Ok GL_POINTS
  | PATCHES => Throw "Unrecognized primitiveType 7"
  end.

(** gluDrawUtil.ts: [getPrimitiveGLType]. For an unknown type it calls
    [testFailedOptions(msg, true)], which raises. *)
Definition getPrimitiveGLType (type : primitiveType) : result GLprimitive :=
  match type with
  | TRIANGLES => Ok GL_TRIANGLES
  | TRIANGLE_STRIP => Ok GL_TRIANGLE_STRIP
  | TRIANGLE_FAN => Ok GL_TRIANGLE_FAN
  | LINES => Ok GL_LINES
  | LINE_STRIP => Ok GL_LINE_STRIP
  | LINE_LOOP => Ok GL_LINE_LOOP
  | POINTS => Ok GL_POINTS
  | PATCHES => Throw "Unknown primitive type 7"
  end.

(** The vertices of one primitive of a transform-feedback mode. *)
Definition verticesPerPrimitive (mode : GLprimitive) : Z :=
  match mode with
  | GL_TRIANGLES | GL_TRIANGLE_STRIP | GL_TRIANGLE_FAN => 3
  | GL_LINES | GL_LINE_LOOP | GL_LINE_STRIP => 2
  | GL_POINTS => 1
  end.

(** The calls the draw block of [runTest] makes on the context. *)
Inductive GLCall : Type :=
| gl_clear
| gl_beginTransformFeedback (primitiveMode : GLprimitive)
| gl_pauseTransformFeedback
| gl_resumeTransformFeedback
| gl_drawArrays (mode : GLprimitive) (first count : Z)
| gl_endTransformFeedback
| gl_deleteQuery.

(** The state the draw block works on: the calls made so far, and its
    local variables [tfEnabled] and [offset]. *)
Record DrawState : Type := mkDrawState {
  calls_made : list GLCall;
  tfEnabled : bool;
  draw_offset : Z
}.

(** A statement of the block: it changes the state and returns or throws. *)
Definition Draw (A : Type) : Type := DrawState -> DrawState * result A.

Definition ret {A : Type} (a : A) : Draw A := fun s => (s, Ok a).

Definition raise {A : Type} (r : result A) : Draw A := fun s => (s, r).

Definition seq_ {A B : Type} (m : Draw A) (k : A -> Draw B) : Draw B :=
  fun s =>
    match m s with
    | (s', Ok a) => k a s'
    | (s', Throw msg) => (s', Throw msg)
    end.

Notation "m >> k" := (seq_ m (fun _ => k)) (at level 62, right associativity).

(** [try { body } finally { cleanup }]: the cleanup runs in any case, and
    an exception of the cleanup replaces the outcome of the body. *)
Definition try_finally {A : Type} (body : Draw A) (cleanup : Draw unit) : Draw A :=
  fun s =>
    match body s with
    | (s', r) =>
        match cleanup s' with
        | (s'', Ok _) => (s'', r)
        | (s'', Throw msg) => (s'', Throw msg)
        end
    end.

(** [try { body } catch (e) { handler; throw e; }] *)
Definition try_catch_rethrow {A : Type} (body : Draw A) (handler : Draw unit) : Draw A :=
  fun s =>
    match body s with
    | (s', Ok a) => (s', Ok a)
    | (s', Throw msg) =>
        match handler s' with
        | (s'', Ok _) => (s'', Throw msg)
        | (s'', Throw msg') => (s'', Throw msg')
        end
    end.

Definition gl_call (c : GLCall) : Draw unit :=
  fun s => (mkDrawState (calls_made s ++ [c]) (tfEnabled s) (draw_offset s), Ok tt).

Definition set_tfEnabled (b : bool) : Draw unit :=
  fun s => (mkDrawState (calls_made s) b (draw_offset s), Ok tt).

Definition add_offset (n : Z) : Draw unit :=
  fun s => (mkDrawState (calls_made s) (tfEnabled s) (draw_offset s + n), Ok tt).

Definition NO_ERROR : Z := 0.

Section DrawBlock.

(** What [gl.getError()] answers, given the calls made so far. Between
    two checks the block always makes a call, so any behaviour of the
    context is such a function. *)
Variable getError : list GLCall -> Z.

(** [GLU_EXPECT_NO_ERROR(gl, gl.getError(), msg)] with a message that is
    not empty. *)
Definition GLU_EXPECT_NO_ERROR (msg : string) : Draw unit :=
  fun s =>
    let err := getError (calls_made s) in
    if negb (err =? NO_ERROR)
    then (s, Throw (msg ++ ": " ++ "gl.GetError() returned " ++ string_of_Z err)%string)
    else (s, Ok tt).

(** One turn of the loop over the draw calls. *)
Definition runTest_drawCall (primType : primitiveType) (call : DrawCall) : Draw unit :=
  fun s =>
    ((if negb (Bool.eqb (transformFeedbackEnabled call) (tfEnabled s)) then
        (if transformFeedbackEnabled call then
           gl_call gl_resumeTransformFeedback >>
           GLU_EXPECT_NO_ERROR "glResumeTransformFeedback"
         else
           gl_call gl_pauseTransformFeedback >>
           GLU_EXPECT_NO_ERROR "glPauseTransformFeedback") >>
        set_tfEnabled (transformFeedbackEnabled call)
      else ret tt) >>
     seq_ (raise (getPrimitiveGLType primType)) (fun glPrim =>
     seq_ (fun s => (s, Ok (draw_offset s))) (fun offset =>
     gl_call (gl_drawArrays glPrim offset (numElements call)) >>
     GLU_EXPECT_NO_ERROR "glDrawArrays" >>
     add_offset (numElements call)))) s.

Fixpoint runTest_drawCalls (primType : primitiveType) (calls : list DrawCall) : Draw unit :=
  match calls with
  | [] => ret tt
  | call :: rest => runTest_drawCall primType call >> runTest_drawCalls primType rest
  end.

(** The draw block of [runTest], from ['var offset = 0'] to the end of
    its [catch]. *)
Definition runTest_draw (primType : primitiveType) (calls : list DrawCall) : Draw unit :=
  try_catch_rethrow
    (fun s =>
       (gl_call gl_clear >>
        try_finally
          (seq_ (raise (getTransformFeedbackPrimitiveMode primType)) (fun tfPrimitiveMode =>
           gl_call (gl_beginTransformFeedback tfPrimitiveMode) >>
           GLU_EXPECT_NO_ERROR "glBeginTransformFeedback" >>
           runTest_drawCalls primType calls))
          (fun s =>
             ((if negb (tfEnabled s) then gl_call gl_resumeTransformFeedback else ret tt) >>
              gl_call gl_endTransformFeedback >>
              GLU_EXPECT_NO_ERROR "glEndTransformFeedback") s))
         (mkDrawState (calls_made s) true 0))
    (gl_call gl_deleteQuery).

End DrawBlock.

(** Transform feedback as the context sees it. *)
Inductive FeedbackState : Type := Inactive | Capturing | Paused.

(** What the context does with a sequence of calls: [None] when a call is
    made in a state that does not allow it, otherwise the state reached and
    the draws made, each with its range of vertices and whether it was
    captured. Ending is taken to be allowed while capturing only. *)
Fixpoint replay (calls : list GLCall) (state : FeedbackState)
  (draws : list (Z * Z * bool)) : option (FeedbackState * list (Z * Z * bool)) :=
  match calls with
  | [] => Some (state, draws)
  | c :: rest =>
      match c, state with
      | gl_beginTransformFeedback _, Inactive => replay rest Capturing draws
      | gl_pauseTransformFeedback, Capturing => replay rest Paused draws
      | gl_resumeTransformFeedback, Paused => replay rest Capturing draws
      | gl_endTransformFeedback, Capturing => replay rest Inactive draws
      | gl_drawArrays _ first count, Capturing =>
          replay rest state (draws ++ [(first, count, true)])
      | gl_drawArrays _ first count, _ =>
          replay rest state (draws ++ [(first, count, false)])
      | gl_clear, _ | gl_deleteQuery, _ => replay rest state draws
      | _, _ => None
      end
  end.

(** The state of the context while the block's [tfEnabled] is set or not. *)
Definition feedbackOf (enabled : bool) : FeedbackState :=
  if enabled then Capturing else Paused.

(** The calls the loop over the draw calls can make. *)
Definition loopCall (c : GLCall) : Prop :=
  match c with
  | gl_pauseTransformFeedback | gl_resumeTransformFeedback | gl_drawArrays _ _ _ => True
  | _ => False
  end.

(** The draws the script of a test asks for: each call with the number of
    vertices before it. *)
Fixpoint scriptedDraws (calls : list DrawCall) (offset : Z) : list (Z * Z * bool) :=
  match calls with
  | [] => []
  | call :: rest =>
      (offset, numElements call, transformFeedbackEnabled call)
      :: scriptedDraws rest (offset + numElements call)
  end.

(* ================================================================== *)
(** ** The transform-feedback test: totals and comparison windows *)

(** The totals loop at the start of [runTest]. *)
Fixpoint runTest_totals (primType : primitiveType) (calls : list DrawCall)
  (numInputs numOutputs : Z) : result (Z * Z) :=
  match calls with
  | [] => Ok (numInputs, numOutputs)
  | call :: rest =>
      count <- (if transformFeedbackEnabled call
                then getTransformFeedbackOutputCount primType (numElements call)
                else Ok 0) ;;
      runTest_totals primType rest (numInputs + numElements call) (numOutputs + count)
  end.

(** The loop over the draw calls that compares one output of one buffer.
    [compare] stands for [compareTransformFeedbackOutput] on that output
    and the two buffers, as a function of the number of vertices of the
    call and of the byte offsets of its input and output windows. The
    answer is false when the loop sets [outputsOk] to false and breaks. *)
Fixpoint runTest_compareCalls (compare : Z -> Z -> Z -> result bool)
  (primType : primitiveType) (inputStride stride : Z) (calls : list DrawCall)
  (inputOffset outputOffset : Z) : result bool :=
  match calls with
  | [] => Ok true
  | call :: rest =>
      ok <- (if transformFeedbackEnabled call
             then compare (numElements call) (inputOffset * inputStride)
                    (outputOffset * stride)
             else Ok true) ;;
      if negb ok then Ok false else
      count <- (if transformFeedbackEnabled call
                then getTransformFeedbackOutputCount primType (numElements call)
                else Ok 0) ;;
      runTest_compareCalls compare primType inputStride stride rest
        (inputOffset + numElements call) (outputOffset + count)
  end.

(* ================================================================== *)
(** ** The transform-feedback test: comparing one output *)

(** [new Uint32Array(buffer)], a view of a whole buffer: the construction
    throws a RangeError when the byte length of the buffer is not a
    multiple of 4. The view itself is not read. *)
Definition Uint32Array_view (byteLength : Z) : result unit :=
  if byteLength mod 4 =? 0 then Ok tt else Throw "RangeError".

(** The test one component is said to pass: for a float the binary32
    values at the two words differ by less than 0.1 (whatever the
    precision), for the other scalar types the two 32-bit words are the
    same. *)
Definition componentPasses (scalarType : string) (inWord outWord : Z) : Prop :=
  if String.eqb scalarType "float"
  then PrimFloat.ltb (PrimFloat.abs (f32_of_bits inWord - f32_of_bits outWord)%float)
         float_0_1 = true
  else inWord = outWord.

Section CompareOutput.

(** The 32-bit word a one-element view at a byte offset of the input and
    of the output buffer holds; the construction of the view throws for an
    offset it does not accept. The offset into the input buffer is built
    from the attribute index, which need not be an integer. *)
Variable readInput : Q -> result Z.
Variable readOutput : Z -> result Z.

(** The byte lengths of the input and of the output buffer. *)
Variable inputByteLength outputByteLength : Z.

(** The loop over the components of one output vertex; the answer is
    [isOk] behind the loop. *)
Fixpoint compare_components (turns : nat) (scalarType : string) (prec : precision)
  (inputBase : Q) (outputBase : Z) (compNdx : Z) : result bool :=
  match turns with
  | O => Ok true
  | S turns' =>
      outWord <- readOutput (outputBase + compNdx * 4) ;;
      inWord <- readInput (inputBase + inject_Z (compNdx * 4))%Q ;;
      isEqual <- compareComponent scalarType prec inWord outWord ;;
      if negb isEqual then Ok false
      else compare_components turns' scalarType prec inputBase outputBase (compNdx + 1)
  end.

(** The loop over the output vertices of one input attribute. *)
Fixpoint compare_vertices (turns : nat) (primType : primitiveType) (numInputs : Z)
  (numComponents : Z) (scalarType : string) (prec : precision)
  (inputOffset inputStride attributeOffset outputOffset outputStride outOffset : Z)
  (outNdx : Z) : result bool :=
  match turns with
  | O => Ok true
  | S turns' =>
      inNdx <- getAttributeIndex primType numInputs outNdx ;;
      isOk <- compare_components (Z.to_nat numComponents) scalarType prec
                (inject_Z inputOffset + inject_Z inputStride * inNdx
                 + inject_Z attributeOffset)%Q
                (outputOffset + outputStride * outNdx + outOffset) 0 ;;
      if isOk
      then compare_vertices turns' primType numInputs numComponents scalarType prec
             inputOffset inputStride attributeOffset outputOffset outputStride outOffset
             (outNdx + 1)
      else Ok false
  end.

(** The loop over the inputs of the output. Once [isOk] is false the two
    inner loops are not entered, but the head of the loop still runs for
    every input that is left. *)
Fixpoint compare_inputs (primType : primitiveType) (numInputs : Z)
  (inputOffset inputStride outputOffset outputStride : Z)
  (inputs : list (option Attribute)) (isOk : bool) (outOffset : Z) : result bool :=
  match inputs with
  | [] => Ok isOk
  | input :: rest =>
      attribute <- found input ;;
      type <- getBasicType (attr_type attribute) ;;
      numComponents <- getDataTypeScalarSize type ;;
      prec <- getPrecision (attr_type attribute) ;;
      scalarType <- getDataTypeScalarType type ;;
      numOutputs <- getTransformFeedbackOutputCount primType numInputs ;;
      isOk' <- (if isOk
                then compare_vertices (Z.to_nat numOutputs) primType numInputs
                       numComponents scalarType prec inputOffset inputStride
                       (attr_offset attribute) outputOffset outputStride outOffset 0
                else Ok false) ;;
      compare_inputs primType numInputs inputOffset inputStride outputOffset outputStride
        rest isOk' (outOffset + numComponents * 4)
  end.

(** [compareTransformFeedbackOutput(gl, primitiveType, output, numInputs,
    buffers)], with the offsets and strides of the two buffers. The two
    views of the whole buffers are made first, the input's before the
    output's, also when the output has no input. *)
Definition compareTransformFeedbackOutput (primType : primitiveType) (output : Output)
  (numInputs : Z) (inputOffset inputStride outputOffset outputStride : Z) : result bool :=
  let isOk := true in
  let outOffset := out_offset output in
  tmp_a <- Uint32Array_view inputByteLength ;;
  tmp_b <- Uint32Array_view outputByteLength ;;
  compare_inputs primType numInputs inputOffset inputStride outputOffset outputStride
    (out_inputs output) isOk outOffset.

End CompareOutput.

(** An input the comparison can handle: an attribute of a basic type
    that has a scalar size and a scalar type, with one of the three
    precisions if the scalar type is float. *)
Definition comparableInput (input : option Attribute) : Prop :=
  exists attribute type prec numComponents scalarType,
    input = Some attribute /\
    attr_type attribute = TypeBasic type prec /\
    getDataTypeScalarSize type = Ok numComponents /\
    getDataTypeScalarType type = Ok scalarType /\
    (scalarType = "float" -> prec <> PRECISION_LAST).

(** The bytes the inputs of an output take. *)
Definition inputBytes (inputs : list (option Attribute)) : Z :=
  fold_right Z.add 0
    (map (fun input => match input with Some a => attributeBytes a | None => 0 end) inputs).

(** The primitive types whose output vertex k is the input vertex k. *)
Definition independentPrimitives (primType : primitiveType) : bool :=
  match primType with
  | TRIANGLES | LINES | POINTS => true
  | _ => false
  end.

(** [verifyGuard]: every byte of the guard band is 0xcd. *)
Fixpoint verifyGuard (buffer : list Z) : bool :=
  match buffer with
  | [] => true
  | b :: rest => if negb (b =? 205) then false else verifyGuard rest
  end.

(** The bytes [writeBufferGuard] writes: the whole buffer, guard band
    included, filled with 0xCD. *)
Definition writeBufferGuard_bytes (bufferSize guardSize : Z) : list Z :=
  repeat 205 (Z.to_nat (bufferSize + guardSize)).

(** The guard band [runTest] verifies: [guardSize] bytes of the buffer
    read back, from [size] on. *)
Definition guardBand (result : list Z) (size guardSize : Z) : list Z :=
  firstn (Z.to_nat guardSize) (skipn (Z.to_nat size) result).

(* ================================================================== *)
(** ** tcuSurface.ts: the RGBA8888 surface *)

(** deMath: [deInBounds32]. *)
Definition deInBounds32 (a mn mx : Z) : bool := (mn <=? a) && (a <? mx).

(** A surface: its size and its bytes, [undefined] ([None]) as long as no
    size with a positive area was set. Sizes and coordinates are integers
    here. *)
Record Surface : Type := mkSurface {
  surface_width : Z;
  surface_height : Z;
  surface_pixels : option (list Z)
}.

(** [setSize]: a fresh buffer of zero bytes when the area is positive,
    otherwise the old buffer stays. *)
Definition setSize (this : Surface) (width height : Z) : Surface :=
  mkSurface width height
    (if 0 <? width * height then Some (repeat 0 (Z.to_nat (4 * width * height)))
     else surface_pixels this).

(** [new Surface(width, height)] *)
Definition newSurface (width height : Z) : Surface :=
  setSize (mkSurface 0 0 None) width height.

(** A store into a [Uint8Array]: the value modulo 256; an index outside
    the array is ignored. *)
Fixpoint storeAt (bytes : list Z) (index : nat) (value : Z) : list Z :=
  match bytes, index with
  | [], _ => []
  | _ :: rest, O => value mod 256 :: rest
  | b :: rest, S index' => b :: storeAt rest index' value
  end.

Definition storeByte (bytes : list Z) (index value : Z) : list Z :=
  if index <? 0 then bytes else storeAt bytes (Z.to_nat index) value.

(** A load from a [Uint8Array]: [undefined] outside the array. *)
Definition loadByte (bytes : list Z) (index : Z) : option Z :=
  if index <? 0 then None else nth_error bytes (Z.to_nat index).

(** An element of the color: [undefined] is stored as 0. *)
Definition channel (color : list Z) (i : nat) : Z :=
  match nth_error color i with
  | Some c => c
  | None => 0
  end.

Definition pixels_of (this : Surface) : result (list Z) :=
  match surface_pixels this with
  | Some bytes => Ok bytes
  | None => Throw "TypeError"
  end.

Definition setPixel (this : Surface) (x y : Z) (color : list Z) : result Surface :=
  _ <- DE_ASSERT (deInBounds32 x 0 (surface_width this)) ;;
  _ <- DE_ASSERT (deInBounds32 y 0 (surface_height this)) ;;
  let offset := 4 * (x + y * surface_width this) in
  bytes <- pixels_of this ;;
  let bytes := storeByte bytes (offset + 0) (channel color 0) in
  let bytes := storeByte bytes (offset + 1) (channel color 1) in
  let bytes := storeByte bytes (offset + 2) (channel color 2) in
  let bytes := storeByte bytes (offset + 3) (channel color 3) in
  Ok (mkSurface (surface_width this) (surface_height this) (Some bytes)).

Definition getPixel (this : Surface) (x y : Z) : result (list (option Z)) :=
  _ <- DE_ASSERT (deInBounds32 x 0 (surface_width this)) ;;
  _ <- DE_ASSERT (deInBounds32 y 0 (surface_height this)) ;;
  let offset := 4 * (x + y * surface_width this) in
  bytes <- pixels_of this ;;
  Ok [loadByte bytes (offset + 0); loadByte bytes (offset + 1);
      loadByte bytes (offset + 2); loadByte bytes (offset + 3)].

(** A surface as [setSize] and [setPixel] leave it: four bytes for each
    pixel. *)
Definition surface_ok (this : Surface) : Prop :=
  exists bytes,
    surface_pixels this = Some bytes /\
    Z.of_nat (List.length bytes) = 4 * surface_width this * surface_height this.

(* ================================================================== *)
(** ** Sample values of the transform-feedback test *)

(** The layout and the outputs of [basicTypeSpec] in interleaved mode. *)
Definition a_position : Attribute :=
  mkAttribute "a_position" (TypeBasic FLOAT_VEC4 PRECISION_HIGHP) 0.
Definition a_varA : Attribute :=
  mkAttribute "a_varA" (TypeBasic FLOAT PRECISION_HIGHP) 16.
Definition a_varB : Attribute :=
  mkAttribute "a_varB" (TypeBasic FLOAT PRECISION_HIGHP) 20.
Definition basicType_attributes : list Attribute := [a_position; a_varA; a_varB].

Definition out_varA : Output :=
  mkOutput 0 0 "v_varA" (TypeBasic FLOAT PRECISION_HIGHP) [Some a_varA].
Definition out_varB : Output :=
  mkOutput 0 4 "v_varB" (TypeBasic FLOAT PRECISION_HIGHP) [Some a_varB].
Definition basicType_outputs : list Output := [out_varA; out_varB].

(** A context that reports INVALID_OPERATION after a draw. *)
Definition errorAfterDraw (history : list GLCall) : Z :=
  match rev history with
  | gl_drawArrays _ _ _ :: _ => 1282
  | _ => 0
  end.

(** Buffers of zero words: one without an end, one of [size] bytes. *)
Definition zeroWords (address : Z) : result Z := Ok 0.

Definition zeroWordsWithin (size : Z) (address : Z) : result Z :=
  if (0 <=? address) && (address <? size) then Ok 0 else Throw "RangeError".

(* ================================================================== *)
(** * Theorems *)

(* ------------------------------------------------------------------ *)
(** ** Validation and resolution of type paths *)

Ltac inv H := inversion H; subst; clear H.

Lemma isValidTypePath_prefix_resolves :
  forall array curType cur rest,
    isValidTypePath_prefix curType array = Ok (StoppedAt cur rest) ->
    getVarType_prefix curType array = Ok (cur, rest).
Proof.
  induction array as [| element array IH]; intros curType cur rest H; simpl in *.
  - inv H. reflexivity.
  - destruct (type_eq (comp_type element) STRUCT_MEMBER).
    + destruct curType; simpl in *; try discriminate.
      destruct (inBounds (comp_index element) 0 (getSize structPtr)); simpl in *; try discriminate.
      destruct (member_getType (getMember structPtr (comp_index element))); simpl in *;
        [auto | discriminate].
    + destruct (type_eq (comp_type element) ARRAY_ELEMENT).
      * destruct curType; simpl in *; try discriminate.
        destruct (negb (arraySize =? UNSIZED_ARRAY) && negb (inBounds (comp_index element) 0 arraySize));
          [discriminate | auto].
      * inv H. reflexivity.
Qed.

(** A successful validation makes resolution succeed. *)
Lemma getVarType_of_valid :
  forall type array,
    isValidTypePath type array = Ok true ->
    exists t, getVarType type array = Ok t.
Proof.
  intros type array H. unfold getVarType. rewrite H. simpl.
  unfold isValidTypePath in H.
  destruct (isValidTypePath_prefix type array) as [w | m] eqn:Hw; simpl in H; [| discriminate].
  destruct w as [| cur rest]; [discriminate |].
  pose proof Hw as Hr. apply isValidTypePath_prefix_resolves in Hr. rewrite Hr. simpl.
  destruct rest as [| element rest]; [simpl; eauto |].
  destruct (type_eq (comp_type element) MATRIX_COLUMN) eqn:Hmc; simpl in H.
  - destruct cur as [bt p | |]; simpl in *; try discriminate.
    destruct (isDataTypeMatrix bt) eqn:Hm; simpl in H; [| discriminate].
    destruct (getDataTypeMatrixNumRows bt) as [rows | ]; simpl in *; [| discriminate].
    destruct rest as [| e2 rest2]; [simpl; eauto |].
    destruct (type_eq (comp_type e2) VECTOR_COMPONENT); [| discriminate].
    destruct (isDataTypeVector (getDataTypeFloatVec rows)); simpl in H; [| discriminate].
    destruct (getDataTypeScalarTypeAsDataType (getDataTypeFloatVec rows)); simpl in *; [| discriminate].
    destruct rest2; [simpl; eauto | discriminate].
  - destruct (type_eq (comp_type element) VECTOR_COMPONENT) eqn:Hvc; simpl in H; [| discriminate].
    destruct cur as [bt p | |]; simpl in *; try discriminate.
    try rewrite Hvc in *.
    destruct (isDataTypeVector bt); simpl in H; [| discriminate].
    destruct (getDataTypeScalarTypeAsDataType bt); simpl in *; [| discriminate].
    destruct rest; [simpl; eauto | discriminate].
Qed.

Lemma type_eq_exclusive (t : option ComponentType) (k1 k2 : ComponentType) :
  type_eq t k1 = true -> type_eq t k2 = true -> k1 = k2.
Proof.
  destruct t as [t |]; simpl; [| discriminate].
  destruct t, k1, k2; simpl; intros; try discriminate; reflexivity.
Qed.

Lemma getMember_inBounds (s : StructType) (i : Z) :
  inBounds i 0 (getSize s) = true -> exists m, getMember s i = Some m.
Proof.
  destruct s as [n ms]. unfold inBounds, getSize, getMember. intros H. rewrite H.
  apply andb_true_iff in H. destruct H as [H0 H1].
  apply Z.leb_le in H0. apply Z.ltb_lt in H1.
  destruct (nth_error ms (Z.to_nat i)) eqn:E; [eauto |].
  apply nth_error_None in E. lia.
Qed.

Lemma matrix_rows (bt : DataType) :
  isDataTypeMatrix bt = true ->
  exists rows, getDataTypeMatrixNumRows bt = Ok rows /\ (rows = 2 \/ rows = 3 \/ rows = 4).
Proof. destruct bt; simpl; intros; try discriminate; eexists; split; eauto. Qed.

Lemma vector_scalar (bt : DataType) :
  isDataTypeVector bt = true -> exists s, getDataTypeScalarTypeAsDataType bt = Ok s.
Proof. destruct bt; simpl; intros; try discriminate; eauto. Qed.

(** The first loop never throws: every accessor is guarded by its test. *)
Lemma isValidTypePath_prefix_total :
  forall array curType, exists w, isValidTypePath_prefix curType array = Ok w.
Proof.
  induction array as [| element array IH]; intros curType; simpl; [eauto |].
  destruct (type_eq (comp_type element) STRUCT_MEMBER).
  - destruct curType; simpl; eauto.
    destruct (inBounds (comp_index element) 0 (getSize structPtr)) eqn:Hb; simpl; eauto.
    destruct (getMember_inBounds _ _ Hb) as [[n t] Hm]. rewrite Hm. simpl. apply IH.
  - destruct (type_eq (comp_type element) ARRAY_ELEMENT); eauto.
    destruct curType; simpl; eauto.
    destruct (negb (arraySize =? UNSIZED_ARRAY) && negb (inBounds (comp_index element) 0 arraySize));
      eauto.
Qed.

(** Where the first loop stops: after a struct/array prefix which it walked
    completely, at a component of another kind. *)
Lemma isValidTypePath_prefix_split :
  forall array curType cur rest,
    isValidTypePath_prefix curType array = Ok (StoppedAt cur rest) ->
    exists sa,
      array = sa ++ rest /\
      Forall (fun c => is_struct_or_array c = true) sa /\
      isValidTypePath_prefix curType sa = Ok (StoppedAt cur []) /\
      match rest with [] => True | e :: _ => is_struct_or_array e = false end.
Proof.
  induction array as [| element array IH]; intros curType cur rest H; simpl in H.
  - inv H. exists []. repeat split; auto.
  - unfold is_struct_or_array.
    destruct (type_eq (comp_type element) STRUCT_MEMBER) eqn:Hs.
    + destruct curType; simpl in H; try discriminate.
      destruct (inBounds (comp_index element) 0 (getSize structPtr)) eqn:Hb;
        simpl in H; try discriminate.
      destruct (member_getType (getMember structPtr (comp_index element))) as [next |] eqn:Hm;
        simpl in H; try discriminate.
      apply IH in H. destruct H as (sa & -> & Hall & Hsa & Hrest).
      exists (element :: sa). repeat split; auto.
      * constructor; auto. unfold is_struct_or_array. rewrite Hs. reflexivity.
      * simpl. rewrite Hs. simpl. rewrite Hb. simpl. rewrite Hm. simpl. exact Hsa.
    + destruct (type_eq (comp_type element) ARRAY_ELEMENT) eqn:Ha.
      * destruct curType; simpl in H; try discriminate.
        destruct (negb (arraySize =? UNSIZED_ARRAY) && negb (inBounds (comp_index element) 0 arraySize)) eqn:Hb;
          try discriminate.
        apply IH in H. destruct H as (sa & -> & Hall & Hsa & Hrest).
        exists (element :: sa). repeat split; auto.
        -- constructor; auto. unfold is_struct_or_array. rewrite Hs, Ha. reflexivity.
        -- simpl. rewrite Hs, Ha. simpl. rewrite Hb. exact Hsa.
      * inv H. exists []. repeat split; auto. simpl. rewrite Hs, Ha. reflexivity.
Qed.

(** Walking a path that extends a completely walked prefix. *)
Lemma isValidTypePath_prefix_app :
  forall sa curType cur tail,
    isValidTypePath_prefix curType sa = Ok (StoppedAt cur []) ->
    isValidTypePath_prefix curType (sa ++ tail) = isValidTypePath_prefix cur tail.
Proof.
  induction sa as [| element sa IH]; intros curType cur tail H; simpl in H.
  - inv H. reflexivity.
  - simpl.
    destruct (type_eq (comp_type element) STRUCT_MEMBER) eqn:Hs.
    + destruct curType; simpl in *; try discriminate.
      destruct (inBounds (comp_index element) 0 (getSize structPtr)); simpl in *; try discriminate.
      destruct (member_getType (getMember structPtr (comp_index element))); simpl in *;
        try discriminate.
      eauto.
    + destruct (type_eq (comp_type element) ARRAY_ELEMENT) eqn:Ha.
      * destruct curType; simpl in *; try discriminate.
        destruct (negb (arraySize =? UNSIZED_ARRAY) && negb (inBounds (comp_index element) 0 arraySize));
          try discriminate.
        eauto.
      * discriminate.
Qed.

Lemma type_eq_other (t : option ComponentType) (k1 k2 : ComponentType) :
  type_eq t k1 = true -> k1 <> k2 -> type_eq t k2 = false.
Proof.
  intros H1 Hne. destruct (type_eq t k2) eqn:H2; [| reflexivity].
  exfalso. apply Hne. eapply type_eq_exclusive; eauto.
Qed.

Ltac kind_false H x k' :=
  let E := fresh in
  assert (E : type_eq x k' = false) by (eapply type_eq_other; [exact H | discriminate]);
  rewrite E; clear E.

Ltac kinds :=
  repeat match goal with
  | H : type_eq ?x ?k = true |- context [type_eq ?x ?k] => rewrite H
  | H : type_eq ?x MATRIX_COLUMN = true |- context [type_eq ?x ?k'] => kind_false H x k'
  | H : type_eq ?x VECTOR_COMPONENT = true |- context [type_eq ?x ?k'] => kind_false H x k'
  end.

(** Every path of one of the four shapes is valid and resolves to the
    type the shape names. *)
Lemma tailShape_sound :
  forall type sa cur tail res,
    isValidTypePath_prefix type sa = Ok (StoppedAt cur []) ->
    tailShape cur tail res ->
    isValidTypePath type (sa ++ tail) = Ok true /\
    getVarType type (sa ++ tail) = Ok res.
Proof.
  intros type sa cur tail res Hsa Hshape.
  assert (Hwalk : isValidTypePath_prefix type (sa ++ tail) = Ok (StoppedAt cur tail)).
  { erewrite isValidTypePath_prefix_app by eassumption.
    destruct Hshape; simpl; kinds; reflexivity. }
  assert (Hvalid : isValidTypePath type (sa ++ tail) = Ok true).
  { unfold isValidTypePath. rewrite Hwalk. simpl.
    destruct Hshape; subst; simpl; kinds; simpl;
      repeat match goal with H : _ = _ |- _ => rewrite H; simpl end; kinds; simpl;
      repeat match goal with H : _ = _ |- _ => rewrite H; simpl end; reflexivity. }
  split; [exact Hvalid |].
  unfold getVarType. rewrite Hvalid. simpl.
  erewrite isValidTypePath_prefix_resolves by eassumption. simpl.
  destruct Hshape; subst; simpl; kinds; simpl;
    repeat match goal with H : _ = _ |- _ => rewrite H; simpl end; kinds; simpl;
    repeat match goal with H : _ = _ |- _ => rewrite H; simpl end; reflexivity.
Qed.

(** Every valid path has one of the four shapes. *)
Lemma tailShape_complete :
  forall type path,
    isValidTypePath type path = Ok true ->
    exists sa cur tail res,
      path = sa ++ tail /\
      Forall (fun c => is_struct_or_array c = true) sa /\
      isValidTypePath_prefix type sa = Ok (StoppedAt cur []) /\
      tailShape cur tail res.
Proof.
  intros type path H. unfold isValidTypePath in H.
  destruct (isValidTypePath_prefix type path) as [w | m] eqn:Hw; simpl in H; [| discriminate].
  destruct w as [| cur rest]; [discriminate |].
  pose proof Hw as Hsp. apply isValidTypePath_prefix_split in Hsp.
  destruct Hsp as (sa & -> & Hall & Hsa & _).
  exists sa, cur, rest.
  destruct rest as [| element rest].
  { exists cur. repeat split; auto. constructor. }
  destruct (type_eq (comp_type element) MATRIX_COLUMN) eqn:Hmc; simpl in H.
  - destruct cur as [bt p | |]; simpl in *; try discriminate.
    destruct (isDataTypeMatrix bt) eqn:Hm; simpl in H; [| discriminate].
    destruct (getDataTypeMatrixNumRows bt) as [rows | ] eqn:Hrows; simpl in *; [| discriminate].
    destruct rest as [| e2 rest2].
    { eexists. repeat split; auto. eapply shape_column; eauto. }
    destruct (type_eq (comp_type e2) VECTOR_COMPONENT) eqn:Hvc; [| discriminate].
    destruct (isDataTypeVector (getDataTypeFloatVec rows)) eqn:Hv; simpl in H; [| discriminate].
    destruct (getDataTypeScalarTypeAsDataType (getDataTypeFloatVec rows)) eqn:Hs;
      simpl in *; [| discriminate].
    destruct rest2; [| discriminate].
    eexists. repeat split; auto. eapply shape_column_component; eauto.
  - destruct (type_eq (comp_type element) VECTOR_COMPONENT) eqn:Hvc; simpl in H; [| discriminate].
    destruct cur as [bt p | |]; simpl in *; try discriminate.
    try rewrite Hvc in *.
    destruct (isDataTypeVector bt) eqn:Hv; simpl in H; [| discriminate].
    destruct (getDataTypeScalarTypeAsDataType bt) eqn:Hs; simpl in *; [| discriminate].
    destruct rest; [| discriminate].
    eexists. repeat split; auto. eapply shape_component; eauto.
Qed.

Lemma is_struct_or_array_kind (c : VarTypeComponent) (k : ComponentType) :
  type_eq (comp_type c) k = true ->
  k = MATRIX_COLUMN \/ k = VECTOR_COMPONENT ->
  is_struct_or_array c = false.
Proof.
  intros H [-> | ->]; unfold is_struct_or_array; kinds; reflexivity.
Qed.

Lemma other_kind (c : VarTypeComponent) :
  comp_type c <> None ->
  is_struct_or_array c = false ->
  type_eq (comp_type c) MATRIX_COLUMN || type_eq (comp_type c) VECTOR_COMPONENT = true.
Proof.
  unfold is_struct_or_array. destruct (comp_type c) as [[] |]; simpl; intros; congruence.
Qed.

(** With a kind on every component, validation answers true or false. *)
Lemma isValidTypePath_total :
  forall type path,
    Forall (fun c => comp_type c <> None) path ->
    exists b, isValidTypePath type path = Ok b.
Proof.
  intros type path Hkinds. unfold isValidTypePath.
  destruct (isValidTypePath_prefix_total path type) as [w Hw]. rewrite Hw. simpl.
  destruct w as [| cur rest]; [eauto |].
  pose proof Hw as Hsp. apply isValidTypePath_prefix_split in Hsp.
  destruct Hsp as (sa & -> & _ & _ & Hrest).
  destruct rest as [| element rest]; [eauto |].
  apply Forall_app in Hkinds. destruct Hkinds as [_ Hkinds].
  inversion Hkinds as [| ? ? Hk Hkinds']; subst.
  rewrite (other_kind _ Hk Hrest). simpl.
  destruct cur as [bt p | |]; simpl; eauto.
  destruct (type_eq (comp_type element) MATRIX_COLUMN) eqn:Hmc.
  - destruct (isDataTypeMatrix bt) eqn:Hm; simpl; eauto.
    destruct (matrix_rows _ Hm) as (rows & -> & Hrows). simpl.
    destruct rest as [| e2 rest2]; eauto.
    destruct (type_eq (comp_type e2) VECTOR_COMPONENT); eauto.
    destruct (isDataTypeVector (getDataTypeFloatVec rows)) eqn:Hv; simpl; eauto.
    destruct (vector_scalar _ Hv) as [s ->]. simpl. eauto.
  - simpl. destruct (type_eq (comp_type element) VECTOR_COMPONENT); eauto.
    destruct (isDataTypeVector bt) eqn:Hv; simpl; eauto.
    destruct (vector_scalar _ Hv) as [s ->]. simpl. eauto.
Qed.

Lemma getVarType_throws_iff :
  forall type path,
    throws (getVarType type path) <-> isValidTypePath type path <> Ok true.
Proof.
  intros type path. split.
  - intros [msg Hthrow] Hvalid.
    destruct (getVarType_of_valid _ _ Hvalid) as [t Ht]. congruence.
  - intros Hnot. unfold getVarType.
    destruct (isValidTypePath type path) as [[|] | m]; simpl.
    + congruence.
    + eexists; reflexivity.
    + eexists; reflexivity.
Qed.

Lemma getVarType_last_step :
  forall type pre c,
    isValidTypePath type (pre ++ [c]) = Ok true ->
    (type_eq (comp_type c) MATRIX_COLUMN = true ->
     exists m p rows,
       Forall (fun x => is_struct_or_array x = true) pre /\
       getVarType type pre = Ok (TypeBasic m p) /\
       isDataTypeMatrix m = true /\
       getDataTypeMatrixNumRows m = Ok rows /\
       getVarType type (pre ++ [c]) = Ok (newTypeBasic (getDataTypeFloatVec rows) p)) /\
    (type_eq (comp_type c) VECTOR_COMPONENT = true ->
     exists v p s,
       getVarType type pre = Ok (TypeBasic v p) /\
       isDataTypeVector v = true /\
       getDataTypeScalarTypeAsDataType v = Ok s /\
       getVarType type (pre ++ [c]) = Ok (newTypeBasic s p) /\
       exists sa bt,
         Forall (fun x => is_struct_or_array x = true) sa /\
         getVarType type sa = Ok (TypeBasic bt p) /\
         (pre = sa \/ exists mc, pre = sa ++ [mc] /\ type_eq (comp_type mc) MATRIX_COLUMN = true)).
Proof.
  intros type pre c Hvalid.
  destruct (tailShape_complete _ _ Hvalid) as (sa & cur & tail & res & Hpath & Hall & Hsa & Hshape).
  pose proof (tailShape_sound _ _ _ _ _ Hsa Hshape) as [_ Hres].
  pose proof (tailShape_sound _ _ _ _ _ Hsa (shape_end cur)) as [_ Hcur].
  rewrite app_nil_r in Hcur. rewrite <- Hpath in Hres.
  assert (Hend : tail = [] -> is_struct_or_array c = true).
  { intros ->. rewrite app_nil_r in Hpath. subst sa.
    apply Forall_app in Hall. destruct Hall as [_ Hc]. inversion Hc; assumption. }
  split; intros Hkind.
  - assert (Hc : is_struct_or_array c = false)
      by (eapply is_struct_or_array_kind; eauto).
    destruct Hshape as [| m p rows mc Hcur' Hmc Hm Hrows | v p s vc Hcur' Hvc Hv Hs
                        | m p rows mc vc s Hcur' Hmc Hvc Hm Hrows Hv Hs].
    + rewrite Hend in Hc by reflexivity. discriminate.
    + apply app_inj_tail in Hpath. destruct Hpath as [-> ->].
      subst cur. exists m, p, rows. auto.
    + apply app_inj_tail in Hpath. destruct Hpath as [-> ->].
      pose proof (type_eq_exclusive _ _ _ Hkind Hvc). discriminate.
    + change [mc; vc] with ([mc] ++ [vc]) in Hpath. rewrite app_assoc in Hpath.
      apply app_inj_tail in Hpath. destruct Hpath as [-> ->].
      pose proof (type_eq_exclusive _ _ _ Hkind Hvc). discriminate.
  - assert (Hc : is_struct_or_array c = false)
      by (eapply is_struct_or_array_kind; eauto).
    destruct Hshape as [| m p rows mc Hcur' Hmc Hm Hrows | v p s vc Hcur' Hvc Hv Hs
                        | m p rows mc vc s Hcur' Hmc Hvc Hm Hrows Hv Hs].
    + rewrite Hend in Hc by reflexivity. discriminate.
    + apply app_inj_tail in Hpath. destruct Hpath as [-> ->].
      pose proof (type_eq_exclusive _ _ _ Hkind Hmc). discriminate.
    + apply app_inj_tail in Hpath. destruct Hpath as [-> ->].
      subst cur. exists v, p, s. repeat split; auto.
      exists sa, v. auto.
    + change [mc; vc] with ([mc] ++ [vc]) in Hpath. rewrite app_assoc in Hpath.
      apply app_inj_tail in Hpath. destruct Hpath as [-> ->].
      pose proof (tailShape_sound _ _ _ _ _ Hsa (shape_column cur m p rows mc Hcur' Hmc Hm Hrows))
        as [_ Hcol].
      subst cur. exists (getDataTypeFloatVec rows), p, s. repeat split; auto.
      exists sa, m. repeat split; auto. right. exists mc. auto.
Qed.

(** C1 (amended). Resolution throws exactly when validation does not answer
    true: it answers false, or it throws itself ("Not a matrix or a
    vector") on a component without a kind after the struct/array part. On
    paths whose components all carry a kind, validation always answers,
    and resolution throws iff the answer is false. A valid path that ends
    in a matrix column resolves to the float vector with the matrix's row
    count, one that ends in a vector component to the scalar type of the
    vector, both with the precision of the basic type that the
    struct/array part of the path reaches. *)
Theorem getVarType_agrees_with_isValidTypePath :
  forall type path,
    (throws (getVarType type path) <-> isValidTypePath type path <> Ok true) /\
    (Forall (fun c => comp_type c <> None) path ->
       (exists b, isValidTypePath type path = Ok b) /\ throws_iff_invalid type path) /\
    (isValidTypePath type path = Ok true ->
     forall pre c, path = pre ++ [c] ->
       (type_eq (comp_type c) MATRIX_COLUMN = true ->
        exists m p rows,
          Forall (fun x => is_struct_or_array x = true) pre /\
          getVarType type pre = Ok (TypeBasic m p) /\
          isDataTypeMatrix m = true /\
          getDataTypeMatrixNumRows m = Ok rows /\
          getVarType type path = Ok (newTypeBasic (getDataTypeFloatVec rows) p)) /\
       (type_eq (comp_type c) VECTOR_COMPONENT = true ->
        exists v p s,
          getVarType type pre = Ok (TypeBasic v p) /\
          isDataTypeVector v = true /\
          getDataTypeScalarTypeAsDataType v = Ok s /\
          getVarType type path = Ok (newTypeBasic s p) /\
          exists sa bt,
            Forall (fun x => is_struct_or_array x = true) sa /\
            getVarType type sa = Ok (TypeBasic bt p) /\
            (pre = sa \/
             exists mc, pre = sa ++ [mc] /\ type_eq (comp_type mc) MATRIX_COLUMN = true))).
Proof.
  intros type path. split; [apply getVarType_throws_iff |]. split.
  - intros Hkinds. destruct (isValidTypePath_total type path Hkinds) as [b Hb].
    split; [eauto |]. unfold throws_iff_invalid.
    rewrite getVarType_throws_iff, Hb. destruct b; split; congruence.
  - intros Hvalid pre c ->. apply getVarType_last_step. exact Hvalid.
Qed.

Lemma getVarType_agrees_with_isValidTypePath_witness :
  throws_iff_invalid struct_S member_1_column_1 /\
  exists m p rows,
    getVarType struct_S [mkVarTypeComponent (Some STRUCT_MEMBER) 1] = Ok (TypeBasic m p) /\
    getDataTypeMatrixNumRows m = Ok rows /\
    getVarType struct_S member_1_column_1
    = Ok (newTypeBasic (getDataTypeFloatVec rows) p).
Proof.
  destruct (getVarType_agrees_with_isValidTypePath struct_S member_1_column_1)
    as (_ & Hkinds & Hlast).
  split.
  - apply Hkinds. repeat constructor; discriminate.
  - destruct (Hlast eq_refl [mkVarTypeComponent (Some STRUCT_MEMBER) 1]
                (mkVarTypeComponent (Some MATRIX_COLUMN) 1) eq_refl) as [Hcol _].
    destruct (Hcol eq_refl) as (m & p & rows & _ & H1 & _ & H2 & H3).
    exists m, p, rows. auto.
Defined.

(** C1 as stated fails: a struct-member component built by the constructor
    has no kind, validation throws on it instead of answering false, and
    so resolution throws although validation is not false. *)
Lemma throws_iff_invalid_counterexample :
  ~ throws_iff_invalid struct_S [newVarTypeComponent STRUCT_MEMBER 1].
Proof.
  unfold throws_iff_invalid. intros [H _].
  assert (Ht : throws (getVarType struct_S [newVarTypeComponent STRUCT_MEMBER 1]))
    by (eexists; reflexivity).
  apply H in Ht. discriminate Ht.
Qed.

(* ------------------------------------------------------------------ *)
(** ** Primitive topology arithmetic *)

Lemma js_mod_nonneg (a b : Z) : 0 <= a -> 0 < b -> js_mod a b = a mod b.
Proof. intros Ha Hb. unfold js_mod. apply Z.rem_mod_nonneg; lia. Qed.

(** C3. For every non-negative vertex count N, the number of vertices
    written to the transform-feedback buffer is N - N mod 3 for
    triangles, max(0,N-2)*3 for strips and fans, N - N mod 2 for lines,
    max(0,N-1)*2 for line strips, 2N for line loops with N > 1 (else 0),
    and N for points. *)
Theorem getTransformFeedbackOutputCount_spec (N : Z) (HN : 0 <= N) :
  getTransformFeedbackOutputCount TRIANGLES N = Ok (N - N mod 3) /\
  getTransformFeedbackOutputCount TRIANGLE_STRIP N = Ok (Z.max 0 (N - 2) * 3) /\
  getTransformFeedbackOutputCount TRIANGLE_FAN N = Ok (Z.max 0 (N - 2) * 3) /\
  getTransformFeedbackOutputCount LINES N = Ok (N - N mod 2) /\
  getTransformFeedbackOutputCount LINE_STRIP N = Ok (Z.max 0 (N - 1) * 2) /\
  getTransformFeedbackOutputCount LINE_LOOP N = Ok (if Z_gt_dec N 1 then N * 2 else 0) /\
  getTransformFeedbackOutputCount POINTS N = Ok N.
Proof.
  unfold getTransformFeedbackOutputCount.
  rewrite !js_mod_nonneg by lia.
  repeat split.
  destruct (Z_gt_dec N 1) as [H | H]; destruct (Z.ltb_spec 1 N); try lia; reflexivity.
Qed.

Lemma getTransformFeedbackOutputCount_spec_witness :
  0 <= 5 /\ getTransformFeedbackOutputCount TRIANGLE_STRIP 5 = Ok 9.
Proof.
  split; [lia |].
  exact (proj1 (proj2 (getTransformFeedbackOutputCount_spec 5 ltac:(lia)))).
Defined.

(* ------------------------------------------------------------------ *)
(** ** The input vertex of an output slot *)

Lemma inject_Z_div_exact (d k : Z) :
  0 < d -> (inject_Z (d * k) / inject_Z d == inject_Z k)%Q.
Proof.
  intros Hd. rewrite inject_Z_mult. field.
  intros H. apply (Qeq_bool_neq (inject_Z d) 0); [| exact H].
  unfold Qeq_bool, inject_Z. simpl.
  destruct (Z.eqb_spec (d * 1) 0); [lia | reflexivity].
Qed.

Lemma Qtrunc_comp (a b : Q) : (a == b)%Q -> Qtrunc a = Qtrunc b.
Proof.
  intros H. unfold Qtrunc.
  assert (Hle : Qle_bool 0 a = Qle_bool 0 b).
  { destruct (Qle_bool 0 a) eqn:Ha, (Qle_bool 0 b) eqn:Hb; auto.
    - apply Qle_bool_iff in Ha. rewrite H in Ha. apply Qle_bool_iff in Ha. congruence.
    - apply Qle_bool_iff in Hb. rewrite <- H in Hb. apply Qle_bool_iff in Hb. congruence. }
  rewrite Hle. destruct (Qle_bool 0 b); [apply Qfloor_comp | apply Qceiling_comp]; exact H.
Qed.

Lemma js_modQ_comp (a a' b : Q) : (a == a')%Q -> (js_modQ a b == js_modQ a' b)%Q.
Proof.
  intros H. unfold js_modQ.
  assert (Ht : Qtrunc (a / b) = Qtrunc (a' / b)) by (apply Qtrunc_comp; rewrite H; reflexivity).
  rewrite Ht, H. reflexivity.
Qed.

Lemma Qtrunc_half (k : Z) : 0 <= k -> Qtrunc (inject_Z k / 2) = k / 2.
Proof.
  intros Hk. unfold Qtrunc.
  assert (Hle : Qle_bool 0 (inject_Z k / 2) = true).
  { apply Qle_bool_iff. unfold Qle, Qdiv, Qmult, Qinv, inject_Z. simpl. lia. }
  rewrite Hle. unfold Qfloor, Qdiv, Qmult, Qinv, inject_Z. simpl.
  f_equal. lia.
Qed.

Lemma js_modQ_two (k : Z) : 0 <= k -> (js_modQ (inject_Z k) 2 == inject_Z (k mod 2))%Q.
Proof.
  intros Hk. unfold js_modQ. rewrite Qtrunc_half by exact Hk.
  rewrite (Z.mod_eq k 2) by lia.
  unfold Z.sub. rewrite inject_Z_plus, inject_Z_opp, inject_Z_mult. 
  change (inject_Z 2) with 2%Q. ring.
Qed.

Lemma odd_test (q : Q) (k : Z) :
  0 <= k -> (q == inject_Z k)%Q ->
  negb (Qeq_bool (js_modQ q 2) 0) = Z.odd k.
Proof.
  intros Hk Hq.
  assert (H : (js_modQ q 2 == inject_Z (k mod 2))%Q).
  { rewrite (js_modQ_comp q (inject_Z k) 2 Hq). apply js_modQ_two. exact Hk. }
  rewrite Zodd_mod.
  destruct (Qeq_bool (js_modQ q 2) 0) eqn:E.
  - apply Qeq_bool_iff in E. rewrite H in E.
    change 0%Q with (inject_Z 0) in E. apply (proj1 (inject_Z_injective _ _)) in E.
    rewrite E. reflexivity.
  - apply Qeq_bool_neq in E. simpl.
    destruct (Z.eqb_spec (k mod 2) 1) as [H1 | H1]; [reflexivity |].
    exfalso. apply E. rewrite H.
    assert (k mod 2 = 0) by (pose proof (Z.mod_pos_bound k 2); lia).
    rewrite H0. reflexivity.
Qed.

Lemma js_mod_mul (d k : Z) : d <> 0 -> js_mod (d * k) d = 0.
Proof. intros Hd. unfold js_mod. rewrite Z.mul_comm. apply Z.rem_mul. exact Hd. Qed.

Lemma getAttributeIndex_strip (N k : Z) :
  0 <= k ->
  returnsZ (getAttributeIndex TRIANGLE_STRIP N (3 * k)) (if Z.odd k then k + 1 else k).
Proof.
  intros Hk. unfold returnsZ, getAttributeIndex. eexists. split; [reflexivity |].
  rewrite js_mod_mul by lia.
  assert (Htri : (inject_Z (3 * k) / 3 == inject_Z k)%Q)
    by (apply (inject_Z_div_exact 3 k); lia).
  rewrite (odd_test _ k Hk Htri).
  change (Qlt_bool (inject_Z 0) 2) with true. rewrite andb_true_r.
  destruct (Z.odd k); rewrite Htri.
  - rewrite inject_Z_plus. change (inject_Z 0) with 0%Q. change (inject_Z 1) with 1%Q. ring.
  - change (inject_Z 0) with 0%Q. ring.
Qed.

Lemma getAttributeIndex_fan (N k : Z) :
  returnsZ (getAttributeIndex TRIANGLE_FAN N (3 * k)) 0.
Proof.
  unfold returnsZ, getAttributeIndex. eexists. split; [reflexivity |].
  rewrite js_mod_mul by lia. simpl. reflexivity.
Qed.

Lemma getAttributeIndex_line_strip (N k : Z) :
  returnsZ (getAttributeIndex LINE_STRIP N (2 * k)) k.
Proof.
  unfold returnsZ, getAttributeIndex. eexists. split; [reflexivity |].
  rewrite js_mod_mul by lia.
  rewrite (inject_Z_div_exact 2 k) by lia.
  change (inject_Z 0) with 0%Q. ring.
Qed.

Lemma Qlt_bool_inject_Z (a b : Z) (q : Q) :
  (q == inject_Z a)%Q -> Qlt_bool q (inject_Z b) = (a <? b).
Proof.
  intros Hq. unfold Qlt_bool.
  destruct (Qle_bool (inject_Z b) q) eqn:E.
  - apply Qle_bool_iff in E. rewrite Hq in E. rewrite <- Zle_Qle in E.
    simpl. symmetry. apply Z.ltb_ge. exact E.
  - simpl. symmetry. apply Z.ltb_lt.
    destruct (Z.lt_ge_cases a b) as [Hlt | Hge]; [exact Hlt |].
    exfalso. assert (Hle : Qle_bool (inject_Z b) q = true).
    { apply Qle_bool_iff. rewrite Hq. rewrite <- Zle_Qle. exact Hge. }
    congruence.
Qed.

Lemma getAttributeIndex_line_loop (N k : Z) :
  returnsZ (getAttributeIndex LINE_LOOP N (2 * k)) (if k <? N then k else 0).
Proof.
  unfold returnsZ, getAttributeIndex. eexists. split; [reflexivity |].
  rewrite js_mod_mul by lia.
  assert (Hidx : (inject_Z (2 * k) / 2 + inject_Z 0 == inject_Z k)%Q).
  { rewrite (inject_Z_div_exact 2 k) by lia. change (inject_Z 0) with 0%Q. ring. }
  rewrite (Qlt_bool_inject_Z k N _ Hidx).
  destruct (k <? N); [exact Hidx | reflexivity].
Qed.

(** C4 (amended). Identity for triangles, lines and points. At the first
    slot of each output primitive, where the quotient of the source is an
    integer: for a triangle strip slot 3*tri maps to tri+1 when tri is odd
    and to tri otherwise; for a triangle fan slot 3*k maps to 0; for a line
    strip slot 2*k maps to k; for a line loop slot 2*k maps to k when
    k < N and to 0 otherwise. For a triangle strip with N = 5 the slots
    0, 3 and 6 map to 0, 2 and 2. *)
Theorem getAttributeIndex_first_slots (N k : Z) (Hk : 0 <= k) :
  returnsZ (getAttributeIndex TRIANGLES N k) k /\
  returnsZ (getAttributeIndex LINES N k) k /\
  returnsZ (getAttributeIndex POINTS N k) k /\
  returnsZ (getAttributeIndex TRIANGLE_STRIP N (3 * k)) (if Z.odd k then k + 1 else k) /\
  returnsZ (getAttributeIndex TRIANGLE_FAN N (3 * k)) 0 /\
  returnsZ (getAttributeIndex LINE_STRIP N (2 * k)) k /\
  returnsZ (getAttributeIndex LINE_LOOP N (2 * k)) (if k <? N then k else 0) /\
  returnsZ (getAttributeIndex TRIANGLE_STRIP 5 0) 0 /\
  returnsZ (getAttributeIndex TRIANGLE_STRIP 5 3) 2 /\
  returnsZ (getAttributeIndex TRIANGLE_STRIP 5 6) 2.
Proof.
  repeat split.
  1-3: eexists; split; reflexivity.
  - apply getAttributeIndex_strip; exact Hk.
  - apply getAttributeIndex_fan.
  - apply getAttributeIndex_line_strip.
  - apply getAttributeIndex_line_loop.
  - apply (getAttributeIndex_strip 5 0); lia.
  - apply (getAttributeIndex_strip 5 1); lia.
  - apply (getAttributeIndex_strip 5 2); lia.
Qed.

Lemma getAttributeIndex_first_slots_witness :
  0 <= 3 /\ returnsZ (getAttributeIndex TRIANGLE_STRIP 10 9) 4.
Proof.
  split; [lia |].
  exact (proj1 (proj2 (proj2 (proj2 (getAttributeIndex_first_slots 10 3 ltac:(lia)))))).
Defined.

(** C4 as stated fails. Slot 6 of the stated table holds 3, but it lies in
    the even triangle 2 and maps to its first vertex, 2. And at slot 1
    the source computes the quotient 1/3 where the statement has 1 div 3,
    so the result is 1/3 and not 1. *)
Lemma getAttributeIndex_stated_table_counterexample :
  nth 6 stated_strip_table 0 = 3 /\
  ~ returnsZ (getAttributeIndex TRIANGLE_STRIP 5 6) (nth 6 stated_strip_table 0) /\
  nth 1 stated_strip_table 0 = 1 /\
  ~ returnsZ (getAttributeIndex TRIANGLE_STRIP 5 1) (nth 1 stated_strip_table 0).
Proof.
  repeat split.
  - intros (q & Hq & Heq). inversion Hq; subst q. vm_compute in Heq. discriminate.
  - intros (q & Hq & Heq). inversion Hq; subst q. vm_compute in Heq. discriminate.
Qed.

(* ------------------------------------------------------------------ *)
(** ** Expected counts of the scripted draw calls *)

(** C5. For the script elemCount4 under TRIANGLES the number of captured
    vertices is 3, but the expected primitive count that the source
    computes is 4 - 4/3 = 8/3, not 1. *)
Theorem elemCount4_counts :
  getTransformFeedbackOutputCount TRIANGLES 4 = Ok 3 /\
  exists q,
    computeTransformFeedbackPrimitiveCount TRIANGLES elemCount4 = Ok q /\
    (q == 8 # 3)%Q /\
    ~ returnsZ (computeTransformFeedbackPrimitiveCount TRIANGLES elemCount4) 1.
Proof.
  split; [reflexivity |].
  eexists. split; [reflexivity |]. split; [reflexivity |].
  intros (q & Hq & Heq). inversion Hq; subst q. vm_compute in Heq. discriminate.
Qed.

(* ------------------------------------------------------------------ *)
(** ** Parsing a subscript on an unsized array *)

(** The bounds check of the parser rejects every index on an unsized
    array: no number lies in [0, -1). *)
Lemma parseSubscript_unsized (elementType : VarType) (ndx : option Z) :
  parseSubscript (TypeArray elementType UNSIZED_ARRAY) ndx = Throw "".
Proof.
  unfold parseSubscript, checkBounds, inBounds, UNSIZED_ARRAY. simpl.
  destruct ndx as [n |]; [| reflexivity].
  destruct (0 <=? n) eqn:H0; destruct (n <? -1) eqn:H1; simpl; try reflexivity.
  apply Z.leb_le in H0. apply Z.ltb_lt in H1. lia.
Qed.

(** C6. On an unsized array of floats the text [v[1]] is rejected by the
    bounds check of the parser, and so is every other index, although
    validation accepts the path with the array element 1. *)
Theorem parseTypePath_unsized_array :
  parseTypePath "v[1]" unsized_floats = Some (Throw "") /\
  (forall ndx, parseSubscript unsized_floats ndx = Throw "") /\
  isValidTypePath unsized_floats [mkVarTypeComponent (Some ARRAY_ELEMENT) 1] = Ok true.
Proof.
  repeat split.
  intros ndx. apply parseSubscript_unsized.
Qed.

(* ------------------------------------------------------------------ *)
(** ** The vector-level iterator on a matrix *)

(** The same happens for every matrix type: the one path visited is
    column 4, which no matrix has, and its text does not parse. *)
Lemma VectorTypeIterator_matrix_column_4 (m : DataType) (p : precision) :
  isDataTypeMatrix m = true ->
  enumeratePaths VectorTypeIterator_isExpanded 8 (TypeBasic m p)
  = Some (Ok [[mkVarTypeComponent (Some MATRIX_COLUMN) 4]]) /\
  parseTypePath "v[4]" (TypeBasic m p) = Some (Throw "").
Proof.
  destruct m; simpl; intros H; try discriminate; destruct p; split; reflexivity.
Qed.

(** C2. Over mat2 the vector-level iterator visits one path, column 4. The
    path is valid and is rendered as [[4]], but parsing [v[4]] against
    mat2 throws at the bounds check: the matrix has two columns. *)
Theorem VectorTypeIterator_mat2_round_trip :
  enumeratePaths VectorTypeIterator_isExpanded 8 mat2_highp
  = Some (Ok [[mkVarTypeComponent (Some MATRIX_COLUMN) 4]]) /\
  isValidTypePath mat2_highp [mkVarTypeComponent (Some MATRIX_COLUMN) 4] = Ok true /\
  TypeAccessFormat_toString mat2_highp [mkVarTypeComponent (Some MATRIX_COLUMN) 4]
  = Ok "[4]" /\
  parseTypePath ("v" ++ "[4]")%string mat2_highp = Some (Throw "") /\
  getDataTypeMatrixNumColumns FLOAT_MAT2 = Ok 2.
Proof. repeat split. Qed.

(* ------------------------------------------------------------------ *)
(** ** The input layout where the iteration succeeds *)

Lemma getDataTypeScalarSize_pos (b : DataType) (size : Z) :
  getDataTypeScalarSize b = Ok size -> 1 <= size.
Proof. destruct b; simpl; intros H; inversion H; lia. Qed.

Lemma attributeBytes_nonneg (a : Attribute) : 0 <= attributeBytes a.
Proof.
  unfold attributeBytes. destruct (attr_type a) as [b p | |]; try lia.
  destruct (getDataTypeScalarSize b) eqn:E; [| lia].
  apply getDataTypeScalarSize_pos in E. lia.
Qed.

Lemma sum_attributeBytes_nonneg (l : list Attribute) :
  0 <= fold_right Z.add 0 (map attributeBytes l).
Proof.
  induction l as [| a l IH]; simpl; [lia |].
  pose proof (attributeBytes_nonneg a). lia.
Qed.

Lemma StronglySorted_snoc (l : list Z) (x : Z) :
  StronglySorted Z.lt l -> Forall (fun y => y < x) l -> StronglySorted Z.lt (l ++ [x]).
Proof.
  induction l as [| y l IH]; intros Hs Hall; simpl.
  - repeat constructor.
  - inversion Hs; subst. inversion Hall; subst.
    constructor; [apply IH; assumption |].
    apply Forall_app. split; [assumption | repeat constructor; assumption].
Qed.

Lemma fold_right_add_snoc (l : list Z) (x : Z) :
  fold_right Z.add 0 (l ++ [x]) = fold_right Z.add 0 l + x.
Proof. induction l as [| y l IH]; simpl; lia. Qed.

(** Pushing an attribute of [size] scalars at the current stride. *)
Lemma layout_ok_push (attributes : list Attribute) (stride size : Z)
  (name : string) (b : DataType) (p : precision) :
  getDataTypeScalarSize b = Ok size ->
  layout_ok (attributes, stride) ->
  layout_ok (attributes ++ [mkAttribute name (TypeBasic b p) stride], stride + size * 4).
Proof.
  intros Hsize (Hsorted & Hall & Halign & Hsum).
  pose proof (getDataTypeScalarSize_pos _ _ Hsize) as Hpos.
  assert (Hstride : 0 <= stride)
    by (rewrite Hsum; apply sum_attributeBytes_nonneg).
  unfold layout_ok. repeat split.
  - rewrite map_app. simpl. apply StronglySorted_snoc; [exact Hsorted |].
    apply Forall_map. eapply Forall_impl; [| exact Hall]. simpl. intros a Ha. lia.
  - apply Forall_app. split.
    + eapply Forall_impl; [| exact Hall]. simpl. intros a [Ha1 Ha2]. split; [lia | exact Ha2].
    + repeat constructor; simpl; [lia | lia | exact Halign].
  - rewrite Z.add_mod by lia. rewrite Halign, Z.mod_mul by lia. reflexivity.
  - rewrite map_app. cbn [map]. rewrite fold_right_add_snoc.
    unfold attributeBytes at 2. simpl. rewrite Hsize. lia.
Qed.

Lemma computeInputLayout_body_keeps (varyingName : string) (it : SubTypeIterator)
  (st st' : list Attribute * Z) :
  layout_ok st ->
  computeInputLayout_body varyingName it st = Ok st' ->
  layout_ok st'.
Proof.
  destruct st as [attributes stride]. unfold computeInputLayout_body. intros Hok H.
  destruct (iterator_getType it) as [type |]; simpl in H; [| discriminate].
  destruct (getAttributeName varyingName (getPath it)) as [name |]; simpl in H;
    [| discriminate].
  destruct type as [b p | |]; simpl in H; try discriminate.
  destruct (getDataTypeScalarSize b) as [size |] eqn:Hsize; simpl in H; [| discriminate].
  inversion H; subst. apply layout_ok_push; assumption.
Qed.

Lemma computeInputLayout_body_appends (varyingName : string) (it : SubTypeIterator)
  (st st' : list Attribute * Z) :
  computeInputLayout_body varyingName it st = Ok st' ->
  exists a, fst st' = fst st ++ [a].
Proof.
  destruct st as [attributes stride]. unfold computeInputLayout_body. intros H.
  destruct (iterator_getType it) as [type |]; simpl in H; [| discriminate].
  destruct (getAttributeName varyingName (getPath it)) as [name |]; simpl in H;
    [| discriminate].
  destruct (getBasicType type) as [b |]; simpl in H; [| discriminate].
  destruct (getDataTypeScalarSize b) as [size |]; simpl in H; [| discriminate].
  inversion H; subst. simpl. eauto.
Qed.

(** A loop over an iterator keeps what its body keeps. *)
Lemma forEach_keeps {A : Type} (isExpanded : VarType -> bool) (P : A -> Prop)
  (body : SubTypeIterator -> A -> result A) :
  (forall it acc acc', P acc -> body it acc = Ok acc' -> P acc') ->
  forall fuel it acc res,
    P acc -> forEach isExpanded fuel it body acc = Some (Ok res) -> P res.
Proof.
  intros Hbody. induction fuel as [| fuel IH]; intros it acc res Hacc H; simpl in H.
  - destruct (iterator_end it); [inversion H; subst; exact Hacc | discriminate].
  - destruct (iterator_end it); [inversion H; subst; exact Hacc |].
    destruct (body it acc) as [acc' |] eqn:Eb; [| discriminate].
    destruct (next isExpanded (S fuel) it) as [[it' |] |]; try discriminate.
    eapply IH; [| exact H]. eapply Hbody; eauto.
Qed.

Lemma forEachSubType_keeps {A : Type} (isExpanded : VarType -> bool) (P : A -> Prop)
  (body : SubTypeIterator -> A -> result A) :
  (forall it acc acc', P acc -> body it acc = Ok acc' -> P acc') ->
  forall fuel type acc res,
    P acc -> forEachSubType isExpanded fuel type body acc = Some (Ok res) -> P res.
Proof.
  intros Hbody fuel type acc res Hacc H. unfold forEachSubType in H.
  destruct (newSubTypeIterator isExpanded fuel type) as [[it |] |]; try discriminate.
  eapply forEach_keeps; eauto.
Qed.

Lemma computeInputLayout_varyings_keeps (P : list Attribute * Z -> Prop) :
  (forall name it acc acc', P acc -> computeInputLayout_body name it acc = Ok acc' -> P acc') ->
  forall fuel varyings st st',
    P st ->
    computeInputLayout_varyings fuel varyings st = Some (Ok st') ->
    P st'.
Proof.
  intros Hbody fuel. induction varyings as [| v rest IH]; intros st st' Hok H; simpl in H.
  - inversion H; subst. exact Hok.
  - destruct (forEachSubType VectorTypeIterator_isExpanded fuel (varying_type v)
                (computeInputLayout_body (varying_name v)) st) as [[st1 |] |] eqn:Ef;
      try discriminate.
    eapply IH; [| exact H].
    eapply (forEachSubType_keeps VectorTypeIterator_isExpanded P); [| exact Hok | exact Ef].
    intros it acc acc'. apply Hbody.
Qed.

(** Where the layout computation returns, it returns a layout that starts
    with the position (and the point size, if asked for). *)
Lemma computeInputLayout_returns_layout :
  forall fuel varyings usePointSize attributes stride,
    computeInputLayout fuel [] varyings usePointSize = Some (Ok (attributes, stride)) ->
    layout_ok (attributes, stride) /\
    exists rest,
      attributes
      = mkAttribute "a_position" (TypeBasic FLOAT_VEC4 PRECISION_HIGHP) 0
        :: (if usePointSize
            then [mkAttribute "a_pointSize" (TypeBasic FLOAT PRECISION_HIGHP) 16]
            else [])
        ++ rest.
Proof.
  intros fuel varyings usePointSize attributes stride H. unfold computeInputLayout in H.
  simpl in H. split.
  - eapply (computeInputLayout_varyings_keeps layout_ok); [| | exact H].
    + intros name it acc acc'. apply computeInputLayout_body_keeps.
    + destruct usePointSize; unfold layout_ok; simpl; repeat split;
        repeat constructor; simpl; lia.
  - match type of H with
    | computeInputLayout_varyings _ _ ?start = _ =>
        assert (Hgrow : exists rest, fst (attributes, stride) = fst start ++ rest)
    end.
    { eapply (computeInputLayout_varyings_keeps
                (fun st => exists rest, fst st = fst _ ++ rest)); [| | exact H].
      - intros name it acc acc' [r Hr] Hb.
        apply computeInputLayout_body_appends in Hb. destruct Hb as [a Ha].
        exists (r ++ [a]). rewrite Ha, Hr, app_assoc. reflexivity.
      - exists []. rewrite app_nil_r. reflexivity. }
    destruct Hgrow as [rest Hrest]. simpl in Hrest. exists rest. rewrite Hrest.
    destruct usePointSize; reflexivity.
Qed.

(* ------------------------------------------------------------------ *)
(** ** The input layout of an array and of a matrix varying *)

(** C7. For the varying [v_varA : float[3]] (the whole-array case of the
    test catalogue) the layout computation throws while it constructs the
    iterator, and for [v_varA : mat2] it lays out one attribute, for
    column 4, where the matrix has the columns 0 and 1. Where the
    computation returns, the position comes first at offset 0, the point
    size (if asked for) next at offset 16, the offsets increase strictly
    and are multiples of 4, and the stride is the sum of the sizes. *)
Theorem computeInputLayout_array_and_matrix :
  computeInputLayout 8 []
    [mkVarying "v_varA" (newTypeArray (newTypeBasic FLOAT PRECISION_HIGHP) 3) SMOOTH] false
  = Some (Throw "Type is invalid") /\
  computeInputLayout 8 []
    [mkVarying "v_varA" (newTypeBasic FLOAT_MAT2 PRECISION_HIGHP) SMOOTH] false
  = Some (Ok ([mkAttribute "a_position" (TypeBasic FLOAT_VEC4 PRECISION_HIGHP) 0;
               mkAttribute "a_varA_c4" (TypeBasic FLOAT_VEC2 PRECISION_HIGHP) 16], 24)) /\
  getDataTypeMatrixNumColumns FLOAT_MAT2 = Ok 2 /\
  (forall fuel varyings usePointSize attributes stride,
     computeInputLayout fuel [] varyings usePointSize = Some (Ok (attributes, stride)) ->
     layout_ok (attributes, stride) /\
     exists rest,
       attributes
       = mkAttribute "a_position" (TypeBasic FLOAT_VEC4 PRECISION_HIGHP) 0
         :: (if usePointSize
             then [mkAttribute "a_pointSize" (TypeBasic FLOAT PRECISION_HIGHP) 16]
             else [])
         ++ rest).
Proof.
  split; [reflexivity |]. split; [reflexivity |]. split; [reflexivity |].
  apply computeInputLayout_returns_layout.
Qed.

Lemma computeInputLayout_array_and_matrix_witness :
  layout_ok
    ([mkAttribute "a_position" (TypeBasic FLOAT_VEC4 PRECISION_HIGHP) 0;
      mkAttribute "a_pointSize" (TypeBasic FLOAT PRECISION_HIGHP) 16;
      mkAttribute "a_varA" (TypeBasic FLOAT PRECISION_HIGHP) 20;
      mkAttribute "a_varB" (TypeBasic INT_VEC3 PRECISION_LOWP) 24], 36).
Proof.
  destruct computeInputLayout_array_and_matrix as (_ & _ & _ & H).
  exact (proj1 (H 4%nat
                  [mkVarying "v_varA" (newTypeBasic FLOAT PRECISION_HIGHP) SMOOTH;
                   mkVarying "v_varB" (newTypeBasic INT_VEC3 PRECISION_LOWP) FLAT]
                  true _ _ eq_refl)).
Defined.

(* ------------------------------------------------------------------ *)
(** ** The constructor of a path component *)

Lemma ComponentType_length_value : ComponentType_length = 4.
Proof. reflexivity. Qed.

Lemma newVarTypeComponent_zero (t : ComponentType) :
  comp_index (newVarTypeComponent t 0) = 4.
Proof. reflexivity. Qed.

Lemma newVarTypeComponent_index (t : ComponentType) (i : Z) :
  comp_index (newVarTypeComponent t i) = (if i =? 0 then 4 else i).
Proof. reflexivity. Qed.

Lemma newVarTypeComponent_index_nonzero (t : ComponentType) (i : Z) :
  comp_index (newVarTypeComponent t i) <> 0.
Proof.
  rewrite newVarTypeComponent_index. destruct (Z.eqb_spec i 0); lia.
Qed.

Lemma newVarTypeComponent_type (t : ComponentType) (i : Z) :
  comp_type (newVarTypeComponent t i)
  = match t with STRUCT_MEMBER => None | _ => Some t end.
Proof. destruct t; reflexivity. Qed.

Lemma newVarTypeComponent_never_member (t : ComponentType) (i : Z) :
  comp_type (newVarTypeComponent t i) <> Some STRUCT_MEMBER.
Proof. rewrite newVarTypeComponent_type. destruct t; discriminate. Qed.

(* ------------------------------------------------------------------ *)
(** ** Components pushed by the iterators *)

Section IteratorInvariant.

Variable isExpanded : VarType -> bool.
Variable R : VarTypeComponent -> Prop.
Hypothesis R_new : forall k, R (newVarTypeComponent k 0).

Lemma findNext_loop_pushes :
  forall fuel type path path',
    Forall R path ->
    findNext_loop isExpanded fuel type path = Some (Ok path') ->
    Forall R path'.
Proof.
  induction fuel as [| fuel IH]; intros type path path' Hpath H; simpl in H;
    [discriminate |].
  assert (Hpush : forall k, Forall R (path ++ [newVarTypeComponent k 0])).
  { intros k. apply Forall_app. split; [exact Hpath | repeat constructor; apply R_new]. }
  destruct (getVarType_of type path) as [curType |]; [| discriminate].
  destruct (isExpanded curType); [inversion H; subst; exact Hpath |].
  destruct (isBasicType curType).
  - destruct (getBasicType curType) as [b |]; [| discriminate].
    destruct (isDataTypeMatrix b); [exact (IH _ _ _ (Hpush _) H) |].
    destruct (isDataTypeVector b); [exact (IH _ _ _ (Hpush _) H) | discriminate].
  - destruct (isArrayType curType); [exact (IH _ _ _ (Hpush _) H) |].
    destruct (isStructType curType); [exact (IH _ _ _ (Hpush _) H) | discriminate].
Qed.

End IteratorInvariant.

Lemma rev_cons_inv {A : Type} (l : list A) (x : A) (before : list A) :
  rev l = x :: before -> l = rev before ++ [x].
Proof.
  intros H. rewrite <- (rev_involutive l), H. reflexivity.
Qed.

Lemma incrementLast_keeps (path : TypeComponentVector) :
  Forall index_ge_4 path -> Forall index_ge_4 (incrementLast path).
Proof.
  intros H. unfold incrementLast. destruct (rev path) as [| c before] eqn:E; [exact H |].
  apply rev_cons_inv in E. subst path. apply Forall_app in H. destruct H as [Hb Hc].
  apply Forall_app. split; [exact Hb |]. inversion Hc; subst.
  repeat constructor. unfold index_ge_4 in *. simpl. lia.
Qed.

Lemma removeTraversed_loop_keeps (R : VarTypeComponent -> Prop) :
  forall n type path path',
    Forall R path ->
    removeTraversed_loop n type path = Ok path' ->
    Forall R path'.
Proof.
  induction n as [| n IH]; intros type path path' Hpath H; simpl in H.
  - destruct (rev path); inversion H; subst; exact Hpath.
  - destruct (rev path) as [| c before] eqn:E; [inversion H; subst; exact Hpath |].
    apply rev_cons_inv in E.
    assert (Hb : Forall R (rev before)).
    { rewrite E in Hpath. apply Forall_app in Hpath. tauto. }
    destruct (getVarType_of type (rev before)) as [parentType |]; simpl in H;
      [| discriminate].
    match type of H with
    | bind ?e _ = _ => destruct e as [[|] |]; simpl in H
    end.
    + inversion H; subst. exact Hpath.
    + exact (IH _ _ _ Hb H).
    + discriminate.
Qed.

Lemma next_keeps (isExpanded : VarType -> bool) :
  forall fuel it it',
    Forall index_ge_4 (m_path it) ->
    next isExpanded fuel it = Some (Ok it') ->
    Forall index_ge_4 (m_path it').
Proof.
  intros fuel it it' Hpath H. unfold next in H.
  destruct (m_path it) as [| c0 rest0] eqn:Ep.
  - destruct (getVarType_of (m_type it) []) as [t |]; [| discriminate].
    destruct (negb (isExpanded t)); [discriminate |].
    inversion H; subst. simpl. constructor.
  - unfold removeTraversed in H. rewrite Ep in H.
    destruct (removeTraversed_loop (List.length (c0 :: rest0)) (m_type it) (c0 :: rest0))
      as [path1 |] eqn:Er; simpl in H; [| discriminate].
    pose proof (removeTraversed_loop_keeps index_ge_4 _ _ _ _ Hpath Er) as H1.
    destruct path1 as [| c1 rest1]; [inversion H; subst; simpl; constructor |].
    unfold findNext in H. simpl m_path in H. simpl m_type in H.
    destruct (findNext_loop isExpanded fuel (m_type it) (incrementLast (c1 :: rest1)))
      as [[path2 |] |] eqn:Ef; try discriminate.
    inversion H; subst. simpl.
    eapply (findNext_loop_pushes isExpanded index_ge_4); [| | exact Ef].
    + intros k. unfold index_ge_4. rewrite newVarTypeComponent_zero. lia.
    + apply incrementLast_keeps. exact H1.
Qed.

Lemma newSubTypeIterator_index_4 (isExpanded : VarType -> bool) :
  forall fuel type it,
    newSubTypeIterator isExpanded fuel type = Some (Ok it) ->
    Forall (fun c => comp_index c = 4) (m_path it).
Proof.
  intros fuel type it H. unfold newSubTypeIterator, findNext in H. simpl in H.
  destruct (findNext_loop isExpanded fuel (Some type) []) as [[path |] |] eqn:Ef;
    try discriminate.
  inversion H; subst. simpl.
  eapply (findNext_loop_pushes isExpanded (fun c => comp_index c = 4)); [| | exact Ef].
  - intros k. apply newVarTypeComponent_zero.
  - constructor.
Qed.

Lemma forEach_paths_keep (isExpanded : VarType -> bool) :
  forall fuel it acc paths,
    Forall index_ge_4 (m_path it) ->
    Forall (Forall index_ge_4) acc ->
    forEach isExpanded fuel it (fun it acc => Ok (acc ++ [getPath it])) acc = Some (Ok paths) ->
    Forall (Forall index_ge_4) paths.
Proof.
  induction fuel as [| fuel IH]; intros it acc paths Hit Hacc H; simpl in H.
  - destruct (iterator_end it); [inversion H; subst; exact Hacc | discriminate].
  - destruct (iterator_end it); [inversion H; subst; exact Hacc |].
    destruct (next isExpanded (S fuel) it) as [[it' |] |] eqn:En; try discriminate.
    eapply IH; [| | exact H].
    + eapply next_keeps; eauto.
    + apply Forall_app. split; [exact Hacc | repeat constructor; exact Hit].
Qed.

Lemma enumeratePaths_index_ge_4 (isExpanded : VarType -> bool) :
  forall fuel type paths,
    enumeratePaths isExpanded fuel type = Some (Ok paths) ->
    Forall (Forall index_ge_4) paths.
Proof.
  intros fuel type paths H. unfold enumeratePaths, forEachSubType in H.
  destruct (newSubTypeIterator isExpanded fuel type) as [[it |] |] eqn:En; try discriminate.
  eapply forEach_paths_keep; [| | exact H].
  - apply newSubTypeIterator_index_4 in En.
    eapply Forall_impl; [| exact En]. intros c Hc. simpl in Hc. unfold index_ge_4. lia.
  - constructor.
Qed.

(* ------------------------------------------------------------------ *)
(** ** Components pushed by the parser *)

Lemma checkBounds_Ok (ndx : option Z) (bound n : Z) :
  checkBounds ndx bound = Ok n -> ndx = Some n.
Proof.
  unfold checkBounds. destruct ndx as [m |]; [| discriminate].
  destruct (inBounds m 0 bound); [| discriminate]. intros H. inversion H. reflexivity.
Qed.

Lemma parseSubscript_new (curType : VarType) (ndx : option Z) (c : VarTypeComponent) :
  parseSubscript curType ndx = Ok c ->
  exists k n, ndx = Some n /\ c = newVarTypeComponent k n.
Proof.
  unfold parseSubscript. intros H.
  repeat match type of H with
  | (if ?b then _ else _) = _ => destruct b
  | bind ?e _ = _ => let E := fresh "E" in destruct e eqn:E; simpl in H
  end; try discriminate;
  inversion H; subst;
  match goal with E : checkBounds _ _ = Ok _ |- _ => apply checkBounds_Ok in E end;
  eauto.
Qed.

Lemma parseTypePath_step_pushes (type : VarType) (tk tk' : VarTokenizer)
  (path path' : TypeComponentVector) :
  parseTypePath_step type tk path = Ok (tk', path') ->
  exists k n, path' = path ++ [newVarTypeComponent k n].
Proof.
  unfold parseTypePath_step. intros H.
  destruct (getVarType type path) as [curType |]; simpl in H; [| discriminate].
  destruct (Token.eqb (getToken tk) Token.PERIOD).
  - destruct (advance tk) as [tk1 |]; simpl in H; [| discriminate].
    destruct (negb (Token.eqb (getToken tk1) Token.IDENTIFIER)); [discriminate |].
    destruct (negb (isStructType curType)); [discriminate |].
    destruct (getStruct curType) as [s |]; simpl in H; [| discriminate].
    match type of H with (if ?b then _ else _) = _ => destruct b end; [discriminate |].
    destruct (advance tk1) as [tk2 |]; simpl in H; [| discriminate].
    inversion H; subst. eauto.
  - destruct (Token.eqb (getToken tk) Token.LEFT_BRACKET); [| discriminate].
    destruct (advance tk) as [tk1 |]; simpl in H; [| discriminate].
    destruct (negb (Token.eqb (getToken tk1) Token.NUMBER)); [discriminate |].
    destruct (parseSubscript curType (getNumber tk1)) as [c |] eqn:Ec; simpl in H;
      [| discriminate].
    destruct (advance tk1) as [tk2 |]; simpl in H; [| discriminate].
    destruct (negb (Token.eqb (getToken tk2) Token.RIGHT_BRACKET)); [discriminate |].
    destruct (advance tk2) as [tk3 |]; simpl in H; [| discriminate].
    inversion H; subst.
    apply parseSubscript_new in Ec. destruct Ec as (k & n & _ & ->). eauto.
Qed.

Lemma parseTypePath_loop_pushes (R : VarTypeComponent -> Prop) :
  (forall k n, R (newVarTypeComponent k n)) ->
  forall fuel type tk path res,
    Forall R path ->
    parseTypePath_loop fuel type tk path = Some (Ok res) ->
    Forall R res.
Proof.
  intros HR. induction fuel as [| fuel IH]; intros type tk path res Hpath H; simpl in H.
  - destruct (Token.eqb (getToken tk) Token.END); [| discriminate].
    inversion H; subst. exact Hpath.
  - destruct (Token.eqb (getToken tk) Token.END); [inversion H; subst; exact Hpath |].
    destruct (parseTypePath_step type tk path) as [[tk' path'] |] eqn:Es; [| discriminate].
    apply parseTypePath_step_pushes in Es. destruct Es as (k & n & ->).
    eapply IH; [| exact H].
    apply Forall_app. split; [exact Hpath | repeat constructor; apply HR].
Qed.

Lemma parseTypePath_components (text : string) (type : VarType) (path : TypeComponentVector) :
  parseTypePath text type = Some (Ok path) ->
  Forall (fun c => comp_index c <> 0 /\ comp_type c <> Some STRUCT_MEMBER) path.
Proof.
  unfold parseTypePath. intros H.
  destruct (newVarTokenizer text) as [tk |]; [| discriminate].
  match type of H with
  | match ?e with _ => _ end = _ => destruct e as [tk' |]; [| discriminate]
  end.
  eapply parseTypePath_loop_pushes; [| | exact H].
  - intros k n. split;
      [apply newVarTypeComponent_index_nonzero | apply newVarTypeComponent_never_member].
  - constructor.
Qed.

(* ------------------------------------------------------------------ *)
(** ** The parser never runs out of fuel *)

Lemma advance_progress (tk tk' : VarTokenizer) :
  advance tk = Ok tk' ->
  m_str tk' = m_str tk /\
  m_tokenStart tk' = (m_tokenStart tk + m_tokenLen tk)%nat /\
  tokenizer_ok tk'.
Proof.
  unfold advance, tokenizer_ok.
  destruct (Token.eqb (m_token tk) Token.END); [discriminate |].
  destruct (String.length (m_str tk) <=? m_tokenStart tk + m_tokenLen tk)%nat eqn:Hend.
  - intros H. inversion H; subst; simpl. repeat split; auto.
  - apply Nat.leb_gt in Hend.
    destruct (String.get (m_tokenStart tk + m_tokenLen tk) (m_str tk)) as [c |].
    + repeat match goal with
      | |- context [if ?b then _ else _] => destruct b
      end; intros H; inversion H; subst; simpl; repeat split; auto; lia.
    + intros H. inversion H; subst; simpl. repeat split; auto.
Qed.

Lemma parseTypePath_step_progress (type : VarType) (tk tk' : VarTokenizer)
  (path path' : TypeComponentVector) :
  tokenizer_ok tk ->
  parseTypePath_step type tk path = Ok (tk', path') ->
  m_str tk' = m_str tk /\
  (m_tokenStart tk < m_tokenStart tk')%nat /\
  tokenizer_ok tk'.
Proof.
  intros [Hlen _]. unfold parseTypePath_step. intros H.
  destruct (getVarType type path) as [curType |]; simpl in H; [| discriminate].
  destruct (Token.eqb (getToken tk) Token.PERIOD).
  - destruct (advance tk) as [tk1 |] eqn:E1; simpl in H; [| discriminate].
    destruct (negb (Token.eqb (getToken tk1) Token.IDENTIFIER)); [discriminate |].
    destruct (negb (isStructType curType)); [discriminate |].
    destruct (getStruct curType) as [s |]; simpl in H; [| discriminate].
    match type of H with (if ?b then _ else _) = _ => destruct b end; [discriminate |].
    destruct (advance tk1) as [tk2 |] eqn:E2; simpl in H; [| discriminate].
    inversion H; subst.
    apply advance_progress in E1. destruct E1 as (S1 & P1 & [L1 _]).
    apply advance_progress in E2. destruct E2 as (S2 & P2 & K2).
    repeat split; try apply K2; [congruence | lia].
  - destruct (Token.eqb (getToken tk) Token.LEFT_BRACKET); [| discriminate].
    destruct (advance tk) as [tk1 |] eqn:E1; simpl in H; [| discriminate].
    destruct (negb (Token.eqb (getToken tk1) Token.NUMBER)); [discriminate |].
    destruct (parseSubscript curType (getNumber tk1)) as [c |]; simpl in H;
      [| discriminate].
    destruct (advance tk1) as [tk2 |] eqn:E2; simpl in H; [| discriminate].
    destruct (negb (Token.eqb (getToken tk2) Token.RIGHT_BRACKET)); [discriminate |].
    destruct (advance tk2) as [tk3 |] eqn:E3; simpl in H; [| discriminate].
    inversion H; subst.
    apply advance_progress in E1. destruct E1 as (S1 & P1 & [L1 _]).
    apply advance_progress in E2. destruct E2 as (S2 & P2 & [L2 _]).
    apply advance_progress in E3. destruct E3 as (S3 & P3 & K3).
    repeat split; try apply K3; [congruence | lia].
Qed.

Lemma parseTypePath_loop_fuel (type : VarType) :
  forall fuel tk path,
    tokenizer_ok tk ->
    (String.length (m_str tk) - m_tokenStart tk <= fuel)%nat ->
    exists r, parseTypePath_loop fuel type tk path = Some r.
Proof.
  induction fuel as [| fuel IH]; intros tk path Hok Hfuel; simpl.
  - destruct Hok as [_ Hend]. unfold getToken. rewrite Hend by lia. simpl. eauto.
  - destruct (Token.eqb (getToken tk) Token.END); [eauto |].
    destruct (parseTypePath_step type tk path) as [[tk' path'] | m] eqn:Es; [| eauto].
    apply parseTypePath_step_progress in Es; [| exact Hok].
    destruct Es as (Hs & Hp & Hok').
    apply IH; [exact Hok' |]. rewrite Hs. lia.
Qed.

(** The text's length is fuel enough: parsing returns a path or throws. *)
Lemma parseTypePath_returns (nameWithPath : string) (type : VarType) :
  exists r, parseTypePath nameWithPath type = Some r.
Proof.
  unfold parseTypePath, newVarTokenizer.
  destruct (advance (mkVarTokenizer nameWithPath Token.NONE 0 0)) as [tk |] eqn:E0; [| eauto].
  apply advance_progress in E0. destruct E0 as (S0 & P0 & K0). simpl in S0, P0.
  destruct (Token.eqb (getToken tk) Token.IDENTIFIER).
  - destruct (advance tk) as [tk1 |] eqn:E1; [| eauto].
    apply advance_progress in E1. destruct E1 as (S1 & P1 & K1).
    apply parseTypePath_loop_fuel; [exact K1 |]. rewrite S1, S0. lia.
  - apply parseTypePath_loop_fuel; [exact K0 |]. rewrite S0. lia.
Qed.

(** C9. A component constructed with index 0 has index
    ComponentType.length = 4; one constructed with the kind STRUCT_MEMBER
    has a null kind. So the iterators start every level at index 4 and
    never visit an index below 4, and the parser (which always returns or
    throws) stores 4 for a written 0 and never stores the index 0 or the
    kind STRUCT_MEMBER. *)
Theorem VarTypeComponent_zero_is_replaced :
  ComponentType_length = 4 /\
  (forall t, comp_index (newVarTypeComponent t 0) = ComponentType_length) /\
  (forall i, comp_type (newVarTypeComponent STRUCT_MEMBER i) = None) /\
  (forall isExpanded fuel type it,
     newSubTypeIterator isExpanded fuel type = Some (Ok it) ->
     Forall (fun c => comp_index c = 4) (m_path it)) /\
  (forall isExpanded fuel type paths,
     enumeratePaths isExpanded fuel type = Some (Ok paths) ->
     Forall (Forall index_ge_4) paths) /\
  (forall curType c,
     parseSubscript curType (Some 0) = Ok c -> comp_index c = 4) /\
  (forall text type, exists r, parseTypePath text type = Some r) /\
  (forall text type path,
     parseTypePath text type = Some (Ok path) ->
     Forall (fun c => comp_index c <> 0 /\ comp_type c <> Some STRUCT_MEMBER) path) /\
  parseTypePath "v.a" struct_S = Some (Ok [mkVarTypeComponent None 4]) /\
  parseTypePath "v[0]" (TypeArray (TypeBasic FLOAT PRECISION_HIGHP) 8)
  = Some (Ok [mkVarTypeComponent (Some ARRAY_ELEMENT) 4]).
Proof.
  split; [reflexivity |].
  split; [intros t; reflexivity |].
  split; [intros i; reflexivity |].
  split; [apply newSubTypeIterator_index_4 |].
  split; [apply enumeratePaths_index_ge_4 |].
  split.
  { intros curType c H. apply parseSubscript_new in H.
    destruct H as (k & n & Hn & ->). inversion Hn; subst. reflexivity. }
  split; [apply parseTypePath_returns |].
  split; [apply parseTypePath_components |].
  split; reflexivity.
Qed.

Lemma VarTypeComponent_zero_is_replaced_witness :
  Forall (Forall index_ge_4)
    [[mkVarTypeComponent (Some ARRAY_ELEMENT) 4];
     [mkVarTypeComponent (Some ARRAY_ELEMENT) 5]] /\
  Forall (fun c => comp_index c <> 0 /\ comp_type c <> Some STRUCT_MEMBER)
    [mkVarTypeComponent (Some MATRIX_COLUMN) 4; mkVarTypeComponent (Some VECTOR_COMPONENT) 4].
Proof.
  destruct VarTypeComponent_zero_is_replaced as (_ & _ & _ & _ & Hpaths & _ & _ & Hparse & _).
  split.
  - exact (Hpaths VectorTypeIterator_isExpanded 8%nat
             (TypeArray (TypeBasic FLOAT PRECISION_HIGHP) 6) _ eq_refl).
  - exact (Hparse "v[0][0]" (TypeBasic FLOAT_MAT2 PRECISION_HIGHP) _ eq_refl).
Defined.

(* ------------------------------------------------------------------ *)
(** ** Classifying a failed program *)





Lemma parseVariableName_messages (text msg : string) :
  parseVariableName text = Throw msg ->
  msg = "Not an identifier." \/ msg = "Unexpected character".
Proof.
  unfold parseVariableName, newVarTokenizer, advance. simpl.
  repeat match goal with
  | |- context [if ?b then _ else _] => destruct b; simpl
  | |- context [match ?e with Some _ => _ | None => _ end] => destruct e; simpl
  end; intros H; inversion H; auto.
Qed.

Lemma hasArraysInTFVaryings_loop_messages (varyings : list Varying) :
  forall tfVaryings msg,
    hasArraysInTFVaryings_loop varyings tfVaryings = Throw msg ->
    msg = "Not an identifier." \/ msg = "Unexpected character".
Proof.
  induction tfVaryings as [| t rest IH]; intros msg H; simpl in H; [discriminate |].
  destruct (parseVariableName t) as [n |] eqn:Ep; simpl in H.
  - destruct (findAttributeNameEquals varying_name varyings n); [discriminate | eauto].
  - inversion H; subst. eapply parseVariableName_messages; eauto.
Qed.




(* ================================================================== *)
(** * Further properties of the code *)

(* ------------------------------------------------------------------ *)
(** ** The data-type algebra of gluShaderUtil.ts *)

(** X1. Scalar and vector types are exactly the pairs of a scalar type
    (float, int, uint, bool) and a size from 1 to 4: splitting a scalar or
    vector type into its scalar type and its size and passing both to
    getDataTypeVector gives the type back, and getDataTypeVector of a
    scalar type and a size from 1 to 4 is a scalar or vector type with
    that scalar type and that size. *)
Theorem getDataTypeVector_round_trip :
  (forall t : DataType,
     isDataTypeScalarOrVector t = true ->
     exists s n,
       getDataTypeScalarTypeAsDataType t = Ok s /\
       getDataTypeScalarSize t = Ok n /\
       In s scalarTypes /\ 1 <= n <= 4 /\
       getDataTypeVector s n = t) /\
  (forall (s : DataType) (n : Z),
     In s scalarTypes -> 1 <= n <= 4 ->
     isDataTypeScalarOrVector (getDataTypeVector s n) = true /\
     getDataTypeScalarTypeAsDataType (getDataTypeVector s n) = Ok s /\
     getDataTypeScalarSize (getDataTypeVector s n) = Ok n /\
     isDataTypeScalar (getDataTypeVector s n) = (n =? 1)).
Proof.
  split.
  - intros t Ht.
    destruct t; simpl in Ht; try discriminate;
      do 2 eexists; (repeat split; try reflexivity; simpl; try lia; tauto).
  - intros s n Hs Hn.
    assert (Hcases : n = 1 \/ n = 2 \/ n = 3 \/ n = 4) by lia.
    simpl in Hs.
    destruct Hs as [<- | [<- | [<- | [<- | []]]]];
      destruct Hcases as [-> | [-> | [-> | ->]]]; repeat split; reflexivity.
Qed.

Lemma getDataTypeVector_round_trip_witness :
  exists s n,
    getDataTypeScalarTypeAsDataType UINT_VEC3 = Ok s /\
    getDataTypeScalarSize UINT_VEC3 = Ok n /\
    In s scalarTypes /\ 1 <= n <= 4 /\
    getDataTypeVector s n = UINT_VEC3.
Proof.
  exact (proj1 getDataTypeVector_round_trip UINT_VEC3 eq_refl).
Defined.

(** X2. A matrix type has between 2 and 4 rows and columns; its scalar
    size is columns times rows, its name is mat<columns> for a square
    matrix and mat<columns>x<rows> otherwise, and one column of it is the
    float vector with as many components as the matrix has rows. The row
    and column counts are defined for matrix types only. *)
Theorem matrix_dimensions (m : DataType) :
  (isDataTypeMatrix m = true ->
   exists rows columns,
     getDataTypeMatrixNumRows m = Ok rows /\
     getDataTypeMatrixNumColumns m = Ok columns /\
     2 <= rows <= 4 /\ 2 <= columns <= 4 /\
     getDataTypeScalarSize m = Ok (columns * rows) /\
     getDataTypeName m = Ok (matrixName columns rows) /\
     isDataTypeVector (getDataTypeFloatVec rows) = true /\
     getDataTypeScalarSize (getDataTypeFloatVec rows) = Ok rows) /\
  (isDataTypeMatrix m = false ->
   throws (getDataTypeMatrixNumRows m) /\ throws (getDataTypeMatrixNumColumns m)).
Proof.
  split; intros Hm.
  - destruct m; simpl in Hm; try discriminate;
      do 2 eexists; (repeat split; try reflexivity; simpl; lia).
  - destruct m; simpl in Hm; try discriminate; split; eexists; reflexivity.
Qed.

Lemma matrix_dimensions_witness :
  exists rows columns,
    getDataTypeMatrixNumRows FLOAT_MAT2X3 = Ok rows /\
    getDataTypeMatrixNumColumns FLOAT_MAT2X3 = Ok columns /\
    2 <= rows <= 4 /\ 2 <= columns <= 4 /\
    getDataTypeScalarSize FLOAT_MAT2X3 = Ok (columns * rows) /\
    getDataTypeName FLOAT_MAT2X3 = Ok (matrixName columns rows) /\
    isDataTypeVector (getDataTypeFloatVec rows) = true /\
    getDataTypeScalarSize (getDataTypeFloatVec rows) = Ok rows.
Proof.
  exact (proj1 (matrix_dimensions FLOAT_MAT2X3) eq_refl).
Defined.

(** X3. getDataTypeName gives different names to different data types. *)
Theorem getDataTypeName_injective (a b : DataType) (n : string) :
  getDataTypeName a = Ok n -> getDataTypeName b = Ok n -> a = b.
Proof.
  intros Ha Hb. rewrite <- Hb in Ha. clear Hb.
  destruct a; destruct b; try reflexivity; discriminate Ha.
Qed.

Lemma getDataTypeName_injective_witness :
  getDataTypeName INT_VEC2 = Ok "ivec2" /\ INT_VEC2 = INT_VEC2.
Proof.
  split; [reflexivity |].
  exact (getDataTypeName_injective INT_VEC2 INT_VEC2 "ivec2" eq_refl eq_refl).
Defined.

(** X4. The scalar-type text of a data type (which chooses between the
    float and the bit-exact comparison of captured values) is the name of
    its scalar data type, and it is 'float' exactly for the float scalar,
    the float vectors and the matrices. *)
Theorem getDataTypeScalarType_is_name_of_scalar (t : DataType) :
  getDataTypeScalarType t
  = (s <- getDataTypeScalarTypeAsDataType t ;; getDataTypeName s) /\
  (getDataTypeScalarType t = Ok "float"
   <-> isDataTypeFloatOrVec t || isDataTypeMatrix t = true).
Proof.
  split; [destruct t; reflexivity |].
  destruct t; simpl; split; intros H; try reflexivity; discriminate H.
Qed.

(* ------------------------------------------------------------------ *)
(** ** The recursive variable type of gluVarType.ts *)

(** Induction over a type and, for a struct, over the types of all its
    members. *)
Lemma VarType_members_ind (P : VarType -> Prop) :
  (forall b p, P (TypeBasic b p)) ->
  (forall e n, P e -> P (TypeArray e n)) ->
  (forall name ms, Forall (fun m => P (memberType m)) ms -> P (TypeStruct (Struct name ms))) ->
  forall t, P t.
Proof.
  intros Hbasic Harray Hstruct.
  fix IH 1. intros [b p | e n | [name ms]].
  - apply Hbasic.
  - apply Harray, IH.
  - apply Hstruct. induction ms as [| [n ty] rest IHms]; constructor; [apply IH | exact IHms].
Qed.

(** The member loop of [getScalarSize] adds the members' sizes to the
    running sum. *)
Lemma getScalarSize_struct (name : string) (ms : list StructMember) :
  getScalarSize (TypeStruct (Struct name ms)) = structScalarSize ms 0.
Proof. reflexivity. Qed.

Lemma structScalarSize_nonneg (ms : list StructMember) :
  Forall (fun m => sizedType (memberType m) = true ->
                   exists n, getScalarSize (memberType m) = Ok n /\ 0 <= n) ms ->
  sizedType (TypeStruct (Struct "" ms)) = true ->
  forall size, 0 <= size -> exists n, structScalarSize ms size = Ok n /\ 0 <= n.
Proof.
  induction 1 as [| [mn ty] rest Hm Hrest IH]; intros Hall size Hsize; simpl.
  - eauto.
  - simpl in Hall. apply andb_true_iff in Hall. destruct Hall as [Hty Hall].
    destruct (Hm Hty) as (s & Hs & Hpos). simpl in Hs. rewrite Hs. simpl.
    apply IH; [exact Hall | lia].
Qed.

(** A type without unsized arrays has a scalar size, and it is not
    negative. *)
Lemma getScalarSize_nonneg (t : VarType) :
  sizedType t = true -> exists n, getScalarSize t = Ok n /\ 0 <= n.
Proof.
  induction t as [b p | e n IH | name ms IH] using VarType_members_ind;
    simpl; intros Ht.
  - destruct (getDataTypeScalarSize b) as [s |] eqn:E; [| discriminate].
    exists s. split; [reflexivity |]. destruct b; simpl in E; inversion E; lia.
  - apply andb_true_iff in Ht. destruct Ht as [Hn He]. apply Z.leb_le in Hn.
    destruct (IH He) as (s & -> & Hs). simpl. eexists. split; [reflexivity | nia].
  - apply (structScalarSize_nonneg ms IH Ht 0). lia.
Qed.

(** X5. For a type whose arrays all have a size of at least 0 (so none is
    unsized) and whose basic types are data types with a scalar size,
    getScalarSize returns a number n that is not negative, and for an
    unsized array of that type it returns - n, the element's size
    negated. *)
Theorem getScalarSize_sized (t : VarType) :
  sizedType t = true ->
  exists n,
    getScalarSize t = Ok n /\ 0 <= n /\
    getScalarSize (newTypeArray t UNSIZED_ARRAY) = Ok (- n).
Proof.
  intros Ht. destruct (getScalarSize_nonneg t Ht) as (n & Hn & Hpos).
  exists n. split; [exact Hn |]. split; [exact Hpos |].
  simpl. rewrite Hn. simpl. f_equal. unfold UNSIZED_ARRAY. lia.
Qed.

Lemma getScalarSize_sized_witness :
  getScalarSize struct_S = Ok 7 /\
  getScalarSize (newTypeArray struct_S UNSIZED_ARRAY) = Ok (- 7).
Proof.
  destruct (getScalarSize_sized struct_S eq_refl) as (n & Hn & _ & Hu).
  assert (E : n = 7) by (cbv in Hn; congruence).
  subst n. split; [exact Hn | exact Hu].
Defined.

(* ------------------------------------------------------------------ *)
(** ** Declarations *)

Lemma string_app_assoc (a b c : string) : ((a ++ b) ++ c = a ++ (b ++ c))%string.
Proof. induction a as [| ch a IH]; simpl; [reflexivity | rewrite IH; reflexivity]. Qed.

Lemma string_app_nil_r (a : string) : (a ++ "" = a)%string.
Proof. induction a as [| ch a IH]; simpl; [reflexivity | rewrite IH; reflexivity]. Qed.

Lemma printArraySizes_app (a b : list Z) :
  printArraySizes (a ++ b) = (printArraySizes a ++ printArraySizes b)%string.
Proof.
  induction a as [| x a IH]; simpl; [reflexivity |].
  rewrite IH, string_app_assoc. reflexivity.
Qed.

(** The sizes collected so far may as well be written behind the name. *)
Lemma declareVariable_from_sizes (t : VarType) :
  forall arraySizes name level,
    declareVariable_from arraySizes t name level
    = declareVariable_from [] t (name ++ printArraySizes arraySizes)%string level.
Proof.
  induction t as [b p | e IH n | s]; intros arraySizes name level.
  - simpl. destruct (getDataTypeName b); simpl; [| reflexivity].
    rewrite string_app_nil_r. reflexivity.
  - simpl. rewrite IH. rewrite (IH [n]).
    rewrite printArraySizes_app, string_app_assoc. reflexivity.
  - destruct s as [typeName ms]. simpl.
    match goal with |- bind ?d _ = _ => destruct d end; simpl; [| reflexivity].
    rewrite string_app_nil_r. reflexivity.
Qed.

(** X6. Declaring an array of a type under a name is declaring the
    element type under the name followed by the array's size in brackets
    (empty brackets for an unsized array); so the sizes of nested arrays
    follow the name from the outermost to the innermost. *)
Theorem declareVariable_array (elementType : VarType) (arraySize : Z)
  (name : string) (level : nat) :
  declareVariable (newTypeArray elementType arraySize) name level
  = declareVariable elementType
      (name ++ (if (arraySize =? UNSIZED_ARRAY)%Z then "[]"
                else "[" ++ string_of_Z arraySize ++ "]"))%string level.
Proof.
  unfold declareVariable. simpl.
  rewrite declareVariable_from_sizes. simpl.
  rewrite string_app_nil_r. reflexivity.
Qed.

(** The inline declaration in [declareVariable] is [declareStructType]. *)
Lemma declareStructType_members_inline (level : nat) :
  forall ms str,
    (fix members (ms : list StructMember) (str : string) : result string :=
       match ms with
       | [] => Ok str
       | Member n ty :: rest =>
           d <- declareVariable_from [] ty n (S level) ;;
           members rest (str ++ indent (S level) ++ d ++ ";" ++ newline)%string
       end) ms str
    = declareStructType_members ms level str.
Proof.
  induction ms as [| [n ty] rest IH]; intros str; simpl; [reflexivity |].
  unfold declareVariable. destruct (declareVariable_from [] ty n (S level)); simpl;
    [apply IH | reflexivity].
Qed.

(** A struct is declared by its type name alone unless that name is the
    text 'undefined': then [declareVariable] writes the whole struct
    declaration, as [declareStructType] gives it, in front of the variable
    name. *)
Lemma declareVariable_struct (structType : StructType) (name : string) (level : nat) :
  declareVariable (newTypeStruct structType) name level
  = if hasTypeName structType
    then Ok (getTypeName structType ++ " " ++ name)%string
    else (decl <- declareStructType structType level ;;
          Ok (decl ++ " " ++ name)%string).
Proof.
  destruct structType as [typeName ms]. unfold declareVariable, declareStructType. simpl.
  destruct (hasTypeName (Struct typeName ms)) eqn:Hn; simpl.
  - rewrite string_app_nil_r. reflexivity.
  - rewrite declareStructType_members_inline.
    destruct (declareStructType_members ms level _); simpl; [| reflexivity].
    rewrite string_app_nil_r. reflexivity.
Qed.

(* ------------------------------------------------------------------ *)
(** ** More on valid paths *)

Lemma is_struct_or_array_Some (c : VarTypeComponent) :
  is_struct_or_array c = true -> comp_type c <> None.
Proof. unfold is_struct_or_array. destruct (comp_type c); [discriminate | discriminate]. Qed.

Lemma type_eq_Some (t : option ComponentType) (k : ComponentType) :
  type_eq t k = true -> t <> None.
Proof. destruct t; [discriminate | discriminate]. Qed.

Lemma tailShape_kinds (cur : VarType) (tail : TypeComponentVector) (res : VarType) :
  tailShape cur tail res -> Forall (fun c => comp_type c <> None) tail.
Proof.
  intros H. inversion H; subst; repeat constructor; eapply type_eq_Some; eassumption.
Qed.

(** Every component of a valid path has a kind. *)
Lemma valid_path_kinds (type : VarType) (path : TypeComponentVector) :
  isValidTypePath type path = Ok true -> Forall (fun c => comp_type c <> None) path.
Proof.
  intros H. apply tailShape_complete in H.
  destruct H as (sa & cur & tail & res & -> & Hsa & _ & Hshape).
  apply Forall_app. split.
  - eapply Forall_impl; [| exact Hsa]. intros c. apply is_struct_or_array_Some.
  - eapply tailShape_kinds; eassumption.
Qed.

(** A path that holds a component made by the constructor for a struct
    member is not valid. *)
Lemma struct_member_path_invalid (type : VarType)
  (before after : TypeComponentVector) (ndx : Z) :
  isValidTypePath type (before ++ newVarTypeComponent STRUCT_MEMBER ndx :: after) <> Ok true.
Proof.
  intros H. apply valid_path_kinds in H. apply Forall_app in H. destruct H as [_ H].
  inversion H as [| ? ? Hk _]; subst. apply Hk. reflexivity.
Qed.

(** X7. A path that holds a component constructed as a struct member,
    new VarTypeComponent(STRUCT_MEMBER, ndx), at any place is never valid
    and never resolves, whatever the type and the other components are:
    validation does not answer true and getVarType throws. *)
Theorem struct_member_component_never_resolves (type : VarType)
  (before after : TypeComponentVector) (ndx : Z) :
  isValidTypePath type (before ++ newVarTypeComponent STRUCT_MEMBER ndx :: after) <> Ok true /\
  throws (getVarType type (before ++ newVarTypeComponent STRUCT_MEMBER ndx :: after)).
Proof.
  split; [apply struct_member_path_invalid |].
  apply getVarType_throws_iff. apply struct_member_path_invalid.
Qed.

(** The first loop over a concatenation is the loop over its parts. *)
Lemma isValidTypePath_prefix_cut :
  forall a b type cur,
    isValidTypePath_prefix type (a ++ b) = Ok (StoppedAt cur []) ->
    exists mid,
      isValidTypePath_prefix type a = Ok (StoppedAt mid []) /\
      isValidTypePath_prefix mid b = Ok (StoppedAt cur []).
Proof.
  induction a as [| element a IH]; intros b type cur H.
  - exists type. split; [reflexivity | exact H].
  - simpl in H |- *.
    destruct (type_eq (comp_type element) STRUCT_MEMBER).
    + destruct type; simpl in *; try discriminate.
      destruct (inBounds (comp_index element) 0 (getSize structPtr)); simpl in *;
        try discriminate.
      destruct (member_getType (getMember structPtr (comp_index element))); simpl in *;
        try discriminate.
      eauto.
    + destruct (type_eq (comp_type element) ARRAY_ELEMENT).
      * destruct type; simpl in *; try discriminate.
        destruct (negb (arraySize =? UNSIZED_ARRAY)
                  && negb (inBounds (comp_index element) 0 arraySize));
          try discriminate.
        eauto.
      * discriminate.
Qed.

Lemma tailShape_end_valid (type : VarType) (sa : TypeComponentVector) (cur : VarType) :
  isValidTypePath_prefix type sa = Ok (StoppedAt cur []) ->
  isValidTypePath type sa = Ok true.
Proof.
  intros H. pose proof (tailShape_sound type sa cur [] cur H (shape_end cur)) as [Hv _].
  rewrite app_nil_r in Hv. exact Hv.
Qed.

(** A valid path without its last component is valid. *)
Lemma valid_without_last (type : VarType) (pre : TypeComponentVector) (c : VarTypeComponent) :
  isValidTypePath type (pre ++ [c]) = Ok true -> isValidTypePath type pre = Ok true.
Proof.
  intros H. apply tailShape_complete in H.
  destruct H as (sa & cur & tail & res & Heq & Hsa & Hwalk & Hshape).
  inversion Hshape; subst.
  - rewrite app_nil_r in Heq. subst sa.
    apply isValidTypePath_prefix_cut in Hwalk. destruct Hwalk as (mid & Hmid & _).
    eapply tailShape_end_valid; eassumption.
  - apply app_inj_tail in Heq. destruct Heq as [-> _].
    eapply tailShape_end_valid; eassumption.
  - apply app_inj_tail in Heq. destruct Heq as [-> _].
    eapply tailShape_end_valid; eassumption.
  - change [mc; vc] with ([mc] ++ [vc]) in Heq. rewrite app_assoc in Heq.
    apply app_inj_tail in Heq. destruct Heq as [-> _].
    eapply (tailShape_sound type sa (TypeBasic m p) [mc]); [exact Hwalk |].
    eapply shape_column; eauto.
Qed.

Lemma valid_prefix (type : VarType) (p q : TypeComponentVector) :
  isValidTypePath type (p ++ q) = Ok true -> isValidTypePath type p = Ok true.
Proof.
  revert p. induction q as [| c q IH] using rev_ind; intros p H.
  - rewrite app_nil_r in H. exact H.
  - rewrite app_assoc in H. apply valid_without_last in H. apply IH. exact H.
Qed.

(** X8. Every prefix of a valid path is valid and resolves: if
    isValidTypePath answers true for a path, it answers true for each of
    its prefixes, and getVarType returns a type for each of them. *)
Theorem isValidTypePath_prefix_closed (type : VarType) (p q : TypeComponentVector) :
  isValidTypePath type (p ++ q) = Ok true ->
  isValidTypePath type p = Ok true /\ exists t, getVarType type p = Ok t.
Proof.
  intros H. apply valid_prefix in H. split; [exact H |].
  apply getVarType_of_valid. exact H.
Qed.

Lemma isValidTypePath_prefix_closed_witness :
  isValidTypePath struct_S member_1_column_1 = Ok true /\
  isValidTypePath struct_S [mkVarTypeComponent (Some STRUCT_MEMBER) 1] = Ok true /\
  exists t, getVarType struct_S [mkVarTypeComponent (Some STRUCT_MEMBER) 1] = Ok t.
Proof.
  split; [reflexivity |].
  exact (isValidTypePath_prefix_closed struct_S
           [mkVarTypeComponent (Some STRUCT_MEMBER) 1]
           [mkVarTypeComponent (Some MATRIX_COLUMN) 1] eq_refl).
Defined.

(* ------------------------------------------------------------------ *)
(** ** SubTypeAccess *)

(** X9. SubTypeAccess.member never returns: for every access and every
    member index the call throws, the component it pushed stays on the
    path, and from then on getType throws on that object as well. *)
Theorem SubTypeAccess_member_throws (this : SubTypeAccess) (ndx : Z) :
  throws (snd (access_member ndx this)) /\
  access_getPath (fst (access_member ndx this))
  = access_getPath this ++ [newVarTypeComponent STRUCT_MEMBER ndx] /\
  throws (access_getType (fst (access_member ndx this))).
Proof.
  pose proof (struct_member_path_invalid (access_type this) (access_path this) [] ndx)
    as Hnot.
  pose proof (proj2 (getVarType_throws_iff (access_type this)
                       (access_path this ++ [newVarTypeComponent STRUCT_MEMBER ndx])) Hnot)
    as Hthrows.
  unfold access_member, access_helper, access_getType, access_getPath, access_isValid.
  simpl. repeat split; [| exact Hthrows].
  destruct (isValidTypePath (access_type this)
              (access_path this ++ [newVarTypeComponent STRUCT_MEMBER ndx]))
    as [[|] | m]; simpl.
  - congruence.
  - eexists; reflexivity.
  - eexists; reflexivity.
Qed.

Lemma access_helper_Ok (kind : ComponentType) (ndx : Z) (this : SubTypeAccess) :
  snd (access_helper kind ndx this) = Ok tt ->
  access_isValid (fst (access_helper kind ndx this)) = Ok true.
Proof.
  unfold access_helper. simpl.
  destruct (access_isValid _) as [[|] | m]; simpl; intros H; [reflexivity | discriminate..].
Qed.

Lemma built_from_valid (type : VarType) (this : SubTypeAccess) :
  built_from type this -> access_type this = type /\ access_isValid this = Ok true.
Proof.
  induction 1 as [| this kind ndx Hb [IHt IHv] Hok | this Hb [IHt IHv] Hok].
  - split; reflexivity.
  - split; [exact IHt | apply access_helper_Ok; exact Hok].
  - unfold access_parent, access_isValid in *. destruct this as [t path]. simpl in *.
    induction path as [| last pre _] using rev_ind; [discriminate |].
    destruct (pre ++ [last]) eqn:Hp.
    + apply app_eq_nil in Hp. destruct Hp as [_ Hp]. discriminate.
    + rewrite <- Hp in *. simpl. rewrite removelast_last. split; [exact IHt |].
      eapply valid_without_last; eassumption.
Qed.

(** X10. A SubTypeAccess built from new SubTypeAccess(type) by calls of
    element, column, component and parent that returned is valid: isValid
    answers true and getType returns a type. A call of parent on it
    returns unless its path is empty, and then throws and leaves the
    object as it is. *)
Theorem SubTypeAccess_built_is_valid (type : VarType) (this : SubTypeAccess) :
  built_from type this ->
  access_isValid this = Ok true /\
  (exists t, access_getType this = Ok t) /\
  (access_empty this = false -> snd (access_parent this) = Ok tt) /\
  (access_empty this = true -> access_parent this = (this, Throw "")).
Proof.
  intros Hb. apply built_from_valid in Hb. destruct Hb as [_ Hv].
  split; [exact Hv |]. split; [apply getVarType_of_valid; exact Hv |].
  unfold access_empty, access_parent. destruct (access_path this); split;
    intros H; try discriminate; reflexivity.
Qed.

Lemma SubTypeAccess_built_is_valid_witness :
  access_isValid (fst (access_element 5 (newSubTypeAccess ten_floats))) = Ok true /\
  exists t, access_getType (fst (access_element 5 (newSubTypeAccess ten_floats))) = Ok t.
Proof.
  pose proof (SubTypeAccess_built_is_valid ten_floats _
                (built_step ten_floats (newSubTypeAccess ten_floats) ARRAY_ELEMENT 5
                   (built_new ten_floats) eq_refl)) as H.
  exact (conj (proj1 H) (proj1 (proj2 H))).
Defined.

(** X11. A step that returned is undone by parent: element, column or
    component followed by parent gives the object back as it was. *)
Theorem SubTypeAccess_parent_undoes (kind : ComponentType) (ndx : Z) (this : SubTypeAccess) :
  snd (access_helper kind ndx this) = Ok tt ->
  access_then (access_helper kind ndx this) access_parent = (this, Ok tt).
Proof.
  destruct this as [type path]. unfold access_helper. simpl. intros H. rewrite H.
  unfold access_then, access_parent. simpl.
  destruct (path ++ [newVarTypeComponent kind ndx]) eqn:Hp.
  - apply app_eq_nil in Hp. destruct Hp as [_ Hp]. discriminate.
  - rewrite <- Hp. rewrite removelast_last. reflexivity.
Qed.

Lemma SubTypeAccess_parent_undoes_witness :
  access_then (access_element 5 (newSubTypeAccess ten_floats)) access_parent
  = (newSubTypeAccess ten_floats, Ok tt).
Proof.
  exact (SubTypeAccess_parent_undoes ARRAY_ELEMENT 5 (newSubTypeAccess ten_floats) eq_refl).
Defined.

(* ------------------------------------------------------------------ *)
(** ** Resolving a path in two steps *)

Lemma getVarType_prefix_app :
  forall sa type cur tail,
    isValidTypePath_prefix type sa = Ok (StoppedAt cur []) ->
    getVarType_prefix type (sa ++ tail) = getVarType_prefix cur tail.
Proof.
  induction sa as [| element sa IH]; intros type cur tail H; simpl in H.
  - inv H. reflexivity.
  - simpl.
    destruct (type_eq (comp_type element) STRUCT_MEMBER).
    + destruct type; simpl in *; try discriminate.
      destruct (inBounds (comp_index element) 0 (getSize structPtr)); simpl in *;
        try discriminate.
      destruct (member_getType (getMember structPtr (comp_index element))); simpl in *;
        try discriminate.
      eauto.
    + destruct (type_eq (comp_type element) ARRAY_ELEMENT).
      * destruct type; simpl in *; try discriminate.
        destruct (negb (arraySize =? UNSIZED_ARRAY)
                  && negb (inBounds (comp_index element) 0 arraySize));
          try discriminate.
        eauto.
      * discriminate.
Qed.

(** After a struct/array prefix has been walked, the rest of the path is
    resolved from the type it leads to. *)
Lemma getVarType_app_walk (type : VarType) (sa : TypeComponentVector) (cur : VarType) :
  isValidTypePath_prefix type sa = Ok (StoppedAt cur []) ->
  forall q, getVarType type (sa ++ q) = getVarType cur q.
Proof.
  intros H q. unfold getVarType, isValidTypePath.
  rewrite (isValidTypePath_prefix_app _ _ _ q H).
  rewrite (getVarType_prefix_app _ _ _ q H). reflexivity.
Qed.

Lemma basic_walk (b : DataType) (p : precision) (sa : TypeComponentVector) (cur : VarType) :
  Forall (fun c => is_struct_or_array c = true) sa ->
  isValidTypePath_prefix (TypeBasic b p) sa = Ok (StoppedAt cur []) ->
  sa = [] /\ cur = TypeBasic b p.
Proof.
  intros Hsa H. destruct sa as [| c sa]; simpl in H.
  - inv H. split; reflexivity.
  - inversion Hsa as [| ? ? Hc _]; subst. unfold is_struct_or_array in Hc.
    destruct (type_eq (comp_type c) STRUCT_MEMBER); simpl in H; [discriminate |].
    simpl in Hc. rewrite Hc in H. simpl in H. discriminate.
Qed.

(** From a basic type a path resolves exactly in the four shapes. *)
Lemma getVarType_basic (b : DataType) (p : precision) (q : TypeComponentVector) (r : VarType) :
  getVarType (TypeBasic b p) q = Ok r <-> tailShape (TypeBasic b p) q r.
Proof.
  split.
  - intros H.
    assert (Hv : isValidTypePath (TypeBasic b p) q = Ok true).
    { destruct (isValidTypePath (TypeBasic b p) q) as [[|] | m] eqn:E; [reflexivity | |];
        exfalso; unfold getVarType in H; rewrite E in H; discriminate. }
    apply tailShape_complete in Hv.
    destruct Hv as (sa & cur & tail & res & -> & Hsa & Hwalk & Hshape).
    destruct (basic_walk _ _ _ _ Hsa Hwalk) as [-> ->]. simpl in *.
    pose proof (tailShape_sound _ [] _ _ _ Hwalk Hshape) as [_ Hres]. simpl in Hres.
    rewrite Hres in H. inv H. exact Hshape.
  - intros H.
    apply (tailShape_sound (TypeBasic b p) [] (TypeBasic b p) q r eq_refl H).
Qed.

Lemma scalar_of_vector (v s : DataType) :
  isDataTypeVector v = true ->
  getDataTypeScalarTypeAsDataType v = Ok s ->
  isDataTypeMatrix s = false /\ isDataTypeVector s = false.
Proof. destruct v; simpl; intros Hv H; try discriminate; inv H; split; reflexivity. Qed.

Lemma floatVec_of_rows (m : DataType) (rows : Z) :
  isDataTypeMatrix m = true ->
  getDataTypeMatrixNumRows m = Ok rows ->
  isDataTypeMatrix (getDataTypeFloatVec rows) = false /\
  isDataTypeVector (getDataTypeFloatVec rows) = true.
Proof. destruct m; simpl; intros Hm H; try discriminate; inv H; split; reflexivity. Qed.

Ltac kind_clash :=
  match goal with
  | H1 : type_eq ?t ?k1 = true, H2 : type_eq ?t ?k2 = true |- _ =>
      let E := fresh in
      assert (E : k1 = k2) by (eapply type_eq_exclusive; eassumption); discriminate E
  end.

Ltac same_basic :=
  repeat match goal with E : TypeBasic _ _ = TypeBasic _ _ |- _ => inv E end.

Ltac same_results :=
  repeat match goal with
  | A : ?f = Ok ?x, B : ?f = Ok ?y |- _ => rewrite A in B; inv B
  end.

Ltac shape_solve :=
  unfold newTypeBasic in *;
  solve [ apply shape_end
        | eapply shape_column; eauto
        | eapply shape_component; eauto
        | eapply shape_column_component; eauto ].

Lemma tailShape_after_scalar (s : DataType) (p : precision)
  (q : TypeComponentVector) (r : VarType) :
  isDataTypeMatrix s = false -> isDataTypeVector s = false ->
  (tailShape (TypeBasic s p) q r <-> q = [] /\ r = TypeBasic s p).
Proof.
  intros Hm Hv. split.
  - intros H. inversion H; subst; try (split; reflexivity);
      match goal with E : TypeBasic _ _ = TypeBasic _ _ |- _ => inv E end; congruence.
  - intros [-> ->]. constructor.
Qed.

Lemma getVarType_app_iff (type : VarType) (p : TypeComponentVector) (t' : VarType) :
  getVarType type p = Ok t' ->
  forall q r, getVarType type (p ++ q) = Ok r <-> getVarType t' q = Ok r.
Proof.
  intros Hp q r.
  assert (Hv : isValidTypePath type p = Ok true).
  { destruct (isValidTypePath type p) as [[|] | m] eqn:E; [reflexivity | |];
      exfalso; unfold getVarType in Hp; rewrite E in Hp; discriminate. }
  apply tailShape_complete in Hv.
  destruct Hv as (sa & cur & tail & res & -> & Hsa & Hwalk & Hshape).
  pose proof (tailShape_sound _ _ _ _ _ Hwalk Hshape) as [_ Hres].
  rewrite Hres in Hp. inv Hp.
  rewrite <- app_assoc, (getVarType_app_walk _ _ _ Hwalk).
  inversion Hshape; subst; simpl.
  - reflexivity.
  - (* one matrix column *)
    match goal with
    | A : isDataTypeMatrix ?m = true, B : getDataTypeMatrixNumRows ?m = Ok _ |- _ =>
        destruct (floatVec_of_rows _ _ A B) as [Hnm Hvec]
    end.
    unfold newTypeBasic. rewrite !getVarType_basic. split; intros Hs.
    + inversion Hs; subst; same_basic; try kind_clash; same_results; shape_solve.
    + inversion Hs; subst; same_basic; try congruence; shape_solve.
  - (* one vector component *)
    match goal with
    | A : isDataTypeVector ?v = true, B : getDataTypeScalarTypeAsDataType ?v = Ok _ |- _ =>
        destruct (scalar_of_vector _ _ A B) as [Hnm Hnv]
    end.
    unfold newTypeBasic. rewrite getVarType_basic, (getVarType_basic s).
    rewrite (tailShape_after_scalar _ _ q r Hnm Hnv). split.
    + intros Hs. inversion Hs; subst; same_basic; try kind_clash; same_results.
      split; reflexivity.
    + intros [-> ->]. shape_solve.
  - (* a matrix column and a vector component *)
    match goal with
    | A : isDataTypeVector ?v = true, B : getDataTypeScalarTypeAsDataType ?v = Ok _ |- _ =>
        destruct (scalar_of_vector _ _ A B) as [Hnm Hnv]
    end.
    unfold newTypeBasic. rewrite getVarType_basic, (getVarType_basic s).
    rewrite (tailShape_after_scalar _ _ q r Hnm Hnv). split.
    + intros Hs. inversion Hs; subst; same_basic; try kind_clash; same_results.
      split; reflexivity.
    + intros [-> ->]. shape_solve.
Qed.

(** X12. Resolving a path can be done in two steps: when getVarType
    resolves a path p to a type t', then for every further path q the
    whole path p followed by q resolves to a type r exactly when q
    resolves to r from t' (and so one of them throws exactly when the
    other does). *)
Theorem getVarType_composes (type : VarType) (p : TypeComponentVector) (t' : VarType) :
  getVarType type p = Ok t' ->
  forall q r, getVarType type (p ++ q) = Ok r <-> getVarType t' q = Ok r.
Proof. exact (getVarType_app_iff type p t'). Qed.

Lemma getVarType_composes_witness :
  getVarType struct_S [mkVarTypeComponent (Some STRUCT_MEMBER) 1]
  = Ok (TypeBasic FLOAT_MAT2X3 PRECISION_LOWP) /\
  (getVarType struct_S member_1_column_1 = Ok (TypeBasic FLOAT_VEC3 PRECISION_LOWP)
   <-> getVarType (TypeBasic FLOAT_MAT2X3 PRECISION_LOWP)
         [mkVarTypeComponent (Some MATRIX_COLUMN) 1]
       = Ok (TypeBasic FLOAT_VEC3 PRECISION_LOWP)).
Proof.
  split; [reflexivity |].
  exact (getVarType_composes struct_S [mkVarTypeComponent (Some STRUCT_MEMBER) 1]
           (TypeBasic FLOAT_MAT2X3 PRECISION_LOWP) eq_refl
           [mkVarTypeComponent (Some MATRIX_COLUMN) 1]
           (TypeBasic FLOAT_VEC3 PRECISION_LOWP)).
Defined.

(* ------------------------------------------------------------------ *)
(** ** Comparing two paths *)

Lemma comp_isnt_is (a b : VarTypeComponent) : comp_isnt a b = negb (comp_is a b).
Proof. unfold comp_isnt, comp_is. rewrite negb_andb. reflexivity. Qed.

Lemma array_op_equivalent_loop_Some (y : VarTypeComponent) (arr1 : TypeComponentVector) :
  array_op_equivalent_loop arr1 (Some y) = Ok (forallb (fun x => comp_is x y) arr1).
Proof.
  induction arr1 as [| x arr1 IH]; simpl; [reflexivity |].
  rewrite comp_isnt_is. destruct (comp_is x y); simpl; [exact IH | reflexivity].
Qed.

(** X13. array_op_equivalent compares every component of its first
    argument with the component at index 1 of the second. For paths of
    different lengths it answers false; for two paths of the same length
    it answers true if they are empty, throws a TypeError if they have one
    component, and otherwise answers whether every component of the first
    path is the second component of the second path. So a path of one
    component is not equivalent to itself, and a path of two components is
    equivalent to itself only if the two are the same. *)
Theorem array_op_equivalent_spec (arr1 arr2 : TypeComponentVector) :
  (List.length arr1 <> List.length arr2 -> array_op_equivalent arr1 arr2 = Ok false) /\
  (List.length arr1 = List.length arr2 ->
   array_op_equivalent arr1 arr2
   = match arr1, arr2 with
     | [], _ => Ok true
     | _ :: _, _ :: y :: _ => Ok (forallb (fun x => comp_is x y) arr1)
     | _ :: _, _ => Throw "TypeError"
     end) /\
  (forall c, array_op_equivalent [c] [c] = Throw "TypeError") /\
  (forall a b, array_op_equivalent [a; b] [a; b] = Ok (comp_is a b)).
Proof.
  unfold array_op_equivalent. repeat split.
  - intros H. destruct (Z.eqb_spec (Z.of_nat (List.length arr1)) (Z.of_nat (List.length arr2)));
      [lia | reflexivity].
  - intros H. rewrite H, Z.eqb_refl. simpl.
    destruct arr1 as [| x arr1]; [reflexivity |].
    destruct arr2 as [| z [| y arr2]]; simpl; try reflexivity.
    rewrite comp_isnt_is.
    destruct (comp_is x y) eqn:E; simpl; [| reflexivity].
    apply array_op_equivalent_loop_Some.
  - intros a b. simpl. rewrite !comp_isnt_is.
    assert (Hb : comp_is b b = true).
    { unfold comp_is. rewrite Z.eqb_refl, andb_true_r.
      destruct (comp_type b) as [k |]; simpl; [apply Z.eqb_refl | reflexivity]. }
    rewrite Hb. simpl. destruct (comp_is a b); reflexivity.
Qed.

(* ------------------------------------------------------------------ *)
(** ** What the sub-type iterators do on structs and arrays *)

Lemma getVarType_nil (t : VarType) : getVarType t [] = Ok t.
Proof. reflexivity. Qed.

Lemma getVarType_element (e : VarType) (n i : Z) :
  getVarType (TypeArray e n) [mkVarTypeComponent (Some ARRAY_ELEMENT) i]
  = if negb (n =? UNSIZED_ARRAY) && negb (inBounds i 0 n)
    then Throw "Type is invalid" else Ok e.
Proof.
  unfold getVarType, isValidTypePath. simpl.
  destruct (negb (n =? UNSIZED_ARRAY) && negb (inBounds i 0 n)); reflexivity.
Qed.

Section IteratorSteps.

Variable isExpanded : VarType -> bool.

(** One turn of the loop of [findNext], by what the path resolves to. *)
Lemma findNext_loop_throw (fuel : nat) (type : option VarType)
  (path : TypeComponentVector) (m : string) :
  getVarType_of type path = Throw m ->
  findNext_loop isExpanded (S fuel) type path = Some (Throw m).
Proof. intros H. simpl. rewrite H. reflexivity. Qed.

Lemma findNext_loop_expanded (fuel : nat) (type : option VarType)
  (path : TypeComponentVector) (t : VarType) :
  getVarType_of type path = Ok t -> isExpanded t = true ->
  findNext_loop isExpanded (S fuel) type path = Some (Ok path).
Proof. intros H He. simpl. rewrite H, He. reflexivity. Qed.

Lemma findNext_loop_array (fuel : nat) (type : option VarType)
  (path : TypeComponentVector) (e : VarType) (n : Z) :
  getVarType_of type path = Ok (TypeArray e n) -> isExpanded (TypeArray e n) = false ->
  findNext_loop isExpanded (S fuel) type path
  = findNext_loop isExpanded fuel type
      (path ++ [mkVarTypeComponent (Some ARRAY_ELEMENT) 4]).
Proof. intros H He. simpl. rewrite H, He. reflexivity. Qed.

Lemma findNext_loop_struct (fuel : nat) (type : option VarType)
  (path : TypeComponentVector) (s : StructType) :
  getVarType_of type path = Ok (TypeStruct s) -> isExpanded (TypeStruct s) = false ->
  findNext_loop isExpanded (S fuel) type path
  = findNext_loop isExpanded fuel type (path ++ [mkVarTypeComponent None 4]).
Proof. intros H He. simpl. rewrite H, He. reflexivity. Qed.

Lemma newSubTypeIterator_struct (s : StructType) (fuel : nat) :
  isExpanded (TypeStruct s) = false ->
  newSubTypeIterator isExpanded (S (S fuel)) (TypeStruct s)
  = Some (Throw "Not a matrix or a vector").
Proof.
  intros He. unfold newSubTypeIterator, findNext. cbn [m_path m_type].
  rewrite (findNext_loop_struct _ _ _ s) by (try reflexivity; exact He).
  rewrite (findNext_loop_throw _ _ _ "Not a matrix or a vector") by reflexivity.
  reflexivity.
Qed.

Lemma newSubTypeIterator_small_array (e : VarType) (n : Z) (fuel : nat) :
  isExpanded (TypeArray e n) = false ->
  structOrSmallArray (TypeArray e n) = true ->
  newSubTypeIterator isExpanded (S (S fuel)) (TypeArray e n)
  = Some (Throw "Type is invalid").
Proof.
  intros He Hsmall. unfold newSubTypeIterator, findNext. cbn [m_path m_type].
  rewrite (findNext_loop_array _ _ _ e n) by (try reflexivity; exact He).
  rewrite (findNext_loop_throw _ _ _ "Type is invalid"); [reflexivity |].
  cbn [app getVarType_of]. rewrite getVarType_element.
  simpl in Hsmall. apply andb_true_iff in Hsmall. destruct Hsmall as [Hn Hu].
  rewrite Hu. apply Z.leb_le in Hn.
  unfold inBounds. destruct (Z.ltb_spec 4 n); [lia |]. reflexivity.
Qed.

Lemma newSubTypeIterator_no_fuel (type : VarType) (fuel : nat) :
  (fuel < 2)%nat ->
  isExpanded type = false ->
  structOrSmallArray type = true ->
  newSubTypeIterator isExpanded fuel type = None.
Proof.
  intros Hf He Hs. destruct fuel as [| [| fuel]]; [reflexivity | | lia].
  unfold newSubTypeIterator, findNext. cbn [m_path m_type].
  destruct type as [b p | e n | s]; [discriminate | |].
  - rewrite (findNext_loop_array _ _ _ e n) by (try reflexivity; exact He). reflexivity.
  - rewrite (findNext_loop_struct _ _ _ s) by (try reflexivity; exact He). reflexivity.
Qed.

(** The iterator is never constructed for a struct or a small array. *)
Lemma newSubTypeIterator_never_enters (type : VarType) (fuel : nat) :
  isExpanded type = false ->
  structOrSmallArray type = true ->
  forall it, newSubTypeIterator isExpanded fuel type <> Some (Ok it).
Proof.
  intros He Hs it.
  destruct (Nat.lt_ge_cases fuel 2) as [Hf | Hf].
  - rewrite newSubTypeIterator_no_fuel by assumption. discriminate.
  - destruct fuel as [| [| fuel]]; [lia | lia |].
    destruct type as [b p | e n | s]; [discriminate | |].
    + rewrite newSubTypeIterator_small_array by assumption. discriminate.
    + rewrite newSubTypeIterator_struct by assumption. discriminate.
Qed.

End IteratorSteps.

Lemma isExpanded_struct_or_array (type : VarType) :
  structOrSmallArray type = true ->
  BasicTypeIterator_isExpanded type = false /\
  VectorTypeIterator_isExpanded type = false /\
  ScalarTypeIterator_isExpanded type = false.
Proof. destruct type; simpl; intros H; try discriminate; repeat split. Qed.

(** X14. No sub-type iterator can be constructed over a struct or over
    an array that has a size of at most four: for each of the three
    iterator classes the constructor throws 'Not a matrix or a vector' for
    a struct and 'Type is invalid' for such an array (the first component
    pushed is a struct member without a kind, or the array element 4). *)
Theorem SubTypeIterator_struct_or_small_array (fuel : nat) (type : VarType) :
  (2 <= fuel)%nat ->
  structOrSmallArray type = true ->
  newSubTypeIterator BasicTypeIterator_isExpanded fuel type
  = Some (Throw (iteratorMessage type)) /\
  newSubTypeIterator VectorTypeIterator_isExpanded fuel type
  = Some (Throw (iteratorMessage type)) /\
  newSubTypeIterator ScalarTypeIterator_isExpanded fuel type
  = Some (Throw (iteratorMessage type)).
Proof.
  intros Hf Hs. destruct fuel as [| [| fuel]]; [lia | lia |].
  destruct (isExpanded_struct_or_array type Hs) as (Hb & Hv & Hsc).
  destruct type as [b p | e n | s]; [discriminate | |]; cbn [iteratorMessage].
  - repeat split; apply newSubTypeIterator_small_array; assumption.
  - repeat split; apply newSubTypeIterator_struct; assumption.
Qed.

Lemma SubTypeIterator_struct_or_small_array_witness :
  newSubTypeIterator BasicTypeIterator_isExpanded 2 struct_S
  = Some (Throw "Not a matrix or a vector") /\
  newSubTypeIterator VectorTypeIterator_isExpanded 2 struct_S
  = Some (Throw "Not a matrix or a vector") /\
  newSubTypeIterator ScalarTypeIterator_isExpanded 2 struct_S
  = Some (Throw "Not a matrix or a vector").
Proof.
  exact (SubTypeIterator_struct_or_small_array 2 struct_S ltac:(lia) eq_refl).
Defined.

Lemma computeInputLayout_varyings_never (fuel : nat) (varyings : list Varying) :
  Exists (fun v => structOrSmallArray (varying_type v) = true) varyings ->
  forall st r, computeInputLayout_varyings fuel varyings st <> Some (Ok r).
Proof.
  induction varyings as [| v rest IH]; intros Hex st r; [inversion Hex |].
  simpl. unfold forEachSubType.
  destruct (newSubTypeIterator VectorTypeIterator_isExpanded fuel (varying_type v))
    as [[it |] |] eqn:Hit; try discriminate.
  destruct (forEach VectorTypeIterator_isExpanded fuel it
              (computeInputLayout_body (varying_name v)) st) as [[st' |] |];
    try discriminate.
  inversion Hex as [? ? Hv | ? ? Hrest]; subst.
  - exfalso. eapply newSubTypeIterator_never_enters; [| exact Hv | exact Hit].
    apply isExpanded_struct_or_array. exact Hv.
  - apply IH. exact Hrest.
Qed.

Lemma forEachSubType_never_enters {A : Type} (fuel : nat) (type : VarType)
  (body : SubTypeIterator -> A -> result A) (acc : A) :
  structOrSmallArray type = true ->
  forEachSubType VectorTypeIterator_isExpanded (S (S fuel)) type body acc
  = Some (Throw (iteratorMessage type)).
Proof.
  intros Hs. unfold forEachSubType.
  destruct (isExpanded_struct_or_array type Hs) as (_ & Hv & _).
  destruct type as [b p | e n | s]; [discriminate | |]; cbn [iteratorMessage].
  - rewrite newSubTypeIterator_small_array by assumption. reflexivity.
  - rewrite newSubTypeIterator_struct by assumption. reflexivity.
Qed.

(** X15. computeInputLayout returns no layout when one of the varyings
    is a struct or an array with a size of at most four: it throws (or,
    in the model, runs out of fuel). For the varyings of a BasicArrayCase,
    whose arrays have one to four elements, it throws 'Type is invalid',
    whatever the data type, the precision and the buffer mode of the case
    are. *)
Theorem computeInputLayout_struct_or_small_array (fuel : nat)
  (attributes : list Attribute) (usePointSize : bool) :
  (forall varyings,
     Exists (fun v => structOrSmallArray (varying_type v) = true) varyings ->
     computeInputLayout fuel attributes varyings usePointSize = None \/
     exists m, computeInputLayout fuel attributes varyings usePointSize = Some (Throw m)) /\
  (forall reduced type prec interp,
     (2 <= fuel)%nat ->
     computeInputLayout fuel attributes
       (BasicArrayCase_varyings reduced type prec interp) usePointSize
     = Some (Throw "Type is invalid")).
Proof.
  split.
  - intros varyings Hex.
    pose proof (computeInputLayout_varyings_never fuel varyings Hex) as Hnever.
    unfold computeInputLayout.
    match goal with
    | |- ?c = None \/ _ => destruct c as [[r | m] |] eqn:E
    end.
    + exfalso. eapply Hnever. exact E.
    + right. eauto.
    + left. reflexivity.
  - intros reduced type prec interp Hf. destruct fuel as [| [| f]]; [lia | lia |].
    unfold computeInputLayout, BasicArrayCase_varyings.
    destruct reduced; cbn [computeInputLayout_varyings varying_type];
      rewrite forEachSubType_never_enters by reflexivity; reflexivity.
Qed.

Lemma computeInputLayout_struct_or_small_array_witness :
  computeInputLayout 2 [] (BasicArrayCase_varyings false FLOAT PRECISION_HIGHP SMOOTH) true
  = Some (Throw "Type is invalid").
Proof.
  exact (proj2 (computeInputLayout_struct_or_small_array 2 [] true)
           false FLOAT PRECISION_HIGHP SMOOTH ltac:(lia)).
Defined.

(* ------------------------------------------------------------------ *)
(** ** Iterating over an array of expanded elements *)

Section IteratorOnArray.

Variable isExpanded : VarType -> bool.
Variable e : VarType.
Variable n : Z.
Hypothesis array_not_expanded : isExpanded (TypeArray e n) = false.
Hypothesis element_expanded : isExpanded e = true.

Lemma removeTraversed_element (i : Z) :
  removeTraversed (elementIterator (TypeArray e n) i)
  = Ok (mkSubTypeIterator (Some (TypeArray e n))
          (if i + 1 <? n then [mkVarTypeComponent (Some ARRAY_ELEMENT) i] else [])).
Proof.
  unfold removeTraversed, elementIterator. simpl.
  destruct (i + 1 <? n); reflexivity.
Qed.

Lemma next_element (fuel : nat) (i : Z) :
  0 <= i + 1 ->
  next isExpanded (S fuel) (elementIterator (TypeArray e n) i)
  = Some (Ok (if i + 1 <? n then elementIterator (TypeArray e n) (i + 1)
              else mkSubTypeIterator None [])).
Proof.
  intros Hi. unfold next. cbn [m_path elementIterator].
  rewrite removeTraversed_element.
  destruct (Z.ltb_spec (i + 1) n) as [Hlt | Hge]; cbn [m_path]; [| reflexivity].
  unfold findNext. cbn [m_path m_type].
  change (incrementLast [mkVarTypeComponent (Some ARRAY_ELEMENT) i])
    with [mkVarTypeComponent (Some ARRAY_ELEMENT) (i + 1)].
  rewrite (findNext_loop_expanded isExpanded fuel _ _ e); [reflexivity | | exact element_expanded].
  cbn [getVarType_of]. rewrite getVarType_element.
  unfold inBounds.
  destruct (Z.leb_spec 0 (i + 1)); [| lia]. destruct (Z.ltb_spec (i + 1) n); [| lia].
  rewrite andb_false_r. reflexivity.
Qed.

Lemma forEach_last_element {A : Type} (body : SubTypeIterator -> A -> result A)
  (i : Z) (fuel : nat) (acc : A) :
  0 <= i + 1 -> n <= i + 1 ->
  forEach isExpanded (S fuel) (elementIterator (TypeArray e n) i) body acc
  = Some (foldResult body [elementIterator (TypeArray e n) i] acc).
Proof.
  intros Hi Hn. cbn [forEach iterator_end elementIterator m_type foldResult].
  fold (elementIterator (TypeArray e n) i).
  destruct (body _ acc) as [acc' | m]; [| reflexivity].
  rewrite next_element by lia.
  destruct (Z.ltb_spec (i + 1) n); [lia |].
  destruct fuel; reflexivity.
Qed.

(** The loop over the elements from [i] to the last visits them in order. *)
Lemma forEach_elements {A : Type} (body : SubTypeIterator -> A -> result A) :
  forall (k : nat) (i : Z) (fuel : nat) (acc : A),
    0 <= i -> i + Z.of_nat (S k) = n -> (S k <= fuel)%nat ->
    forEach isExpanded fuel (elementIterator (TypeArray e n) i) body acc
    = Some (foldResult body
              (map (fun d => elementIterator (TypeArray e n) (i + Z.of_nat d)) (seq 0 (S k)))
              acc).
Proof.
  induction k as [| k IH]; intros i fuel acc Hi Hn Hf;
    (destruct fuel as [| fuel]; [lia |]).
  - rewrite forEach_last_element by lia.
    cbn [seq map]. rewrite Z.add_0_r. reflexivity.
  - cbn [forEach iterator_end elementIterator m_type].
    change (seq 0 (S (S k))) with (0%nat :: seq 1 (S k)).
    cbn [map foldResult]. rewrite Z.add_0_r.
    fold (elementIterator (TypeArray e n) i).
    destruct (body _ acc) as [acc' | m]; [| reflexivity].
    rewrite next_element by lia.
    destruct (Z.ltb_spec (i + 1) n); [| lia].
    rewrite (IH (i + 1) fuel acc') by lia.
    f_equal. f_equal. rewrite <- seq_shift, map_map.
    apply map_ext. intros d. f_equal. lia.
Qed.

Lemma newSubTypeIterator_enters (fuel : nat) :
  n = UNSIZED_ARRAY \/ 4 < n ->
  newSubTypeIterator isExpanded (S (S fuel)) (TypeArray e n)
  = Some (Ok (elementIterator (TypeArray e n) 4)).
Proof.
  intros Hn. unfold newSubTypeIterator, findNext. cbn [m_path m_type].
  rewrite (findNext_loop_array _ _ _ _ e n) by (try reflexivity; exact array_not_expanded).
  rewrite (findNext_loop_expanded _ _ _ _ e); [reflexivity | | exact element_expanded].
  cbn [app getVarType_of]. rewrite getVarType_element.
  unfold inBounds, UNSIZED_ARRAY in *.
  destruct Hn as [-> | Hn]; [reflexivity |].
  destruct (Z.ltb_spec 4 n); [| lia]. simpl. rewrite andb_false_r. reflexivity.
Qed.

Lemma foldResult_paths (its : list SubTypeIterator) :
  forall acc,
    foldResult (fun it acc => Ok (acc ++ [getPath it])) its acc
    = Ok (acc ++ map getPath its).
Proof.
  induction its as [| it its IH]; intros acc; simpl.
  - rewrite app_nil_r. reflexivity.
  - rewrite IH, <- app_assoc. reflexivity.
Qed.

Lemma enumeratePaths_array (fuel : nat) :
  4 < n -> (Z.to_nat n <= fuel)%nat ->
  enumeratePaths isExpanded fuel (TypeArray e n)
  = Some (Ok (elementPaths 4 (Z.to_nat (n - 4)))).
Proof.
  intros Hn Hf. unfold enumeratePaths, forEachSubType.
  destruct fuel as [| [| fuel]]; [lia | lia |].
  rewrite newSubTypeIterator_enters by (right; exact Hn).
  destruct (Z.to_nat (n - 4)) as [| k] eqn:Hk; [lia |].
  rewrite (forEach_elements _ k) by lia.
  rewrite foldResult_paths. unfold elementPaths. rewrite map_map. reflexivity.
Qed.

Lemma enumeratePaths_unsized_array (fuel : nat) :
  n = UNSIZED_ARRAY ->
  enumeratePaths isExpanded (S (S fuel)) (TypeArray e n)
  = Some (Ok (elementPaths 4 1)).
Proof.
  intros Hn. unfold enumeratePaths, forEachSubType.
  rewrite newSubTypeIterator_enters by (left; exact Hn).
  rewrite forEach_last_element by (unfold UNSIZED_ARRAY in Hn; lia).
  reflexivity.
Qed.

End IteratorOnArray.

(** X16. Over an array of more than four elements whose element type
    the iterator does not expand further (for the vector iterator: a
    scalar or a vector), the iteration visits the elements 4, 5, ... up to
    the last one, each once and in this order, and never the elements 0
    to 3; over an unsized array of such elements it visits the element 4
    alone. *)
Theorem SubTypeIterator_array_elements (isExpanded : VarType -> bool)
  (e : VarType) (n : Z) (fuel : nat) :
  isExpanded (TypeArray e n) = false ->
  isExpanded e = true ->
  (4 < n -> (Z.to_nat n <= fuel)%nat ->
   enumeratePaths isExpanded fuel (TypeArray e n)
   = Some (Ok (elementPaths 4 (Z.to_nat (n - 4))))) /\
  (n = UNSIZED_ARRAY -> (2 <= fuel)%nat ->
   enumeratePaths isExpanded fuel (TypeArray e n) = Some (Ok (elementPaths 4 1))).
Proof.
  intros Ha He. split.
  - apply enumeratePaths_array; assumption.
  - intros Hn Hf. destruct fuel as [| [| fuel]]; [lia | lia |].
    apply enumeratePaths_unsized_array; assumption.
Qed.

Lemma SubTypeIterator_array_elements_witness :
  enumeratePaths VectorTypeIterator_isExpanded 7
    (TypeArray (TypeBasic FLOAT_VEC2 PRECISION_LOWP) 7)
  = Some (Ok [[mkVarTypeComponent (Some ARRAY_ELEMENT) 4];
              [mkVarTypeComponent (Some ARRAY_ELEMENT) 5];
              [mkVarTypeComponent (Some ARRAY_ELEMENT) 6]]).
Proof.
  exact (proj1 (SubTypeIterator_array_elements VectorTypeIterator_isExpanded
                  (TypeBasic FLOAT_VEC2 PRECISION_LOWP) 7 7 eq_refl eq_refl)
           ltac:(lia) ltac:(simpl; lia)).
Defined.

(* ------------------------------------------------------------------ *)
(** ** The tokenizer on a text in two parts *)

Lemma string_length_app (a b : string) :
  String.length (a ++ b) = (String.length a + String.length b)%nat.
Proof. induction a as [| c a IH]; simpl; [reflexivity | rewrite IH; reflexivity]. Qed.

Lemma substring_app_skip (a b : string) (k m : nat) :
  String.substring (String.length a + k) m (a ++ b) = String.substring k m b.
Proof. induction a as [| c a IH]; simpl; [reflexivity | exact IH]. Qed.

Lemma substring_prefix (a b : string) :
  String.substring 0 (String.length a) (a ++ b) = a.
Proof.
  induction a as [| c a IH]; simpl.
  - destruct b; reflexivity.
  - rewrite IH. reflexivity.
Qed.

Lemma substring_all (a : string) : String.substring 0 (String.length a) a = a.
Proof.
  pose proof (substring_prefix a "") as H. rewrite string_app_nil_r in H. exact H.
Qed.

Lemma string_from_app (a b : string) (k : nat) :
  string_from (String.length a + k) (a ++ b) = string_from k b.
Proof.
  unfold string_from. rewrite substring_app_skip, string_length_app.
  f_equal. lia.
Qed.

Lemma string_from_0 (s : string) : string_from 0 s = s.
Proof. unfold string_from. rewrite Nat.sub_0_r. apply substring_all. Qed.

Lemma string_from_1 (c : ascii) (s : string) : string_from 1 (String c s) = s.
Proof. unfold string_from. simpl. rewrite Nat.sub_0_r. apply substring_all. Qed.

Lemma get_app_skip (a b : string) (k : nat) :
  String.get (String.length a + k) (a ++ b) = String.get k b.
Proof. induction a as [| c a IH]; simpl; [reflexivity | exact IH]. Qed.

(** [advance] looks at the text behind the current token only. *)
Lemma advance_at (done rest : string) (kind : Token.t) (start len : nat) :
  Token.eqb kind Token.END = false ->
  (start + len)%nat = String.length done ->
  advance (mkVarTokenizer (done ++ rest) kind start len)
  = (t <- firstToken rest ;;
     Ok (mkVarTokenizer (done ++ rest) (fst t) (String.length done) (snd t))).
Proof.
  intros Hk Hpos. unfold advance. cbn [m_token m_str m_tokenStart m_tokenLen].
  rewrite Hk, Hpos.
  destruct rest as [| c r].
  - rewrite string_app_nil_r.
    destruct (Nat.leb_spec (String.length done) (String.length done)); [| lia].
    reflexivity.
  - rewrite string_length_app. cbn [String.length].
    destruct (Nat.leb_spec (String.length done + S (String.length r)) (String.length done));
      [lia |].
    replace (String.length done) with (String.length done + 0)%nat at 1 by lia.
    rewrite get_app_skip. cbn [String.get].
    replace (S (String.length done)) with (String.length done + 1)%nat by lia.
    rewrite string_from_app, string_from_1.
    unfold firstToken.
    destruct (Ascii.eqb c "["); [reflexivity |].
    destruct (Ascii.eqb c "]"); [reflexivity |].
    destruct (Ascii.eqb c "."); [reflexivity |].
    destruct (isNum c); [reflexivity |].
    destruct (isIdentifierChar c); reflexivity.
Qed.

Lemma newVarTokenizer_at (text : string) :
  newVarTokenizer text
  = (t <- firstToken text ;; Ok (mkVarTokenizer text (fst t) 0 (snd t))).
Proof.
  unfold newVarTokenizer. apply (advance_at "" text Token.NONE 0 0); reflexivity.
Qed.

Lemma takeWhile_count (p : ascii -> bool) (s : string) :
  String.substring 0 (count_while p s) s = takeWhile p s.
Proof.
  induction s as [| c s IH]; simpl; [reflexivity |].
  destruct (p c); simpl; [rewrite IH |]; reflexivity.
Qed.

(** X17. parseVariableName returns the longest leading run of letters,
    digits and underscores of the text when the text starts with a letter
    or an underscore; it throws 'Not an identifier.' when the text is
    empty or starts with a digit, a bracket or a period, and 'Unexpected
    character' when it starts with any other character. *)
Theorem parseVariableName_spec (text : string) :
  parseVariableName text
  = match text with
    | EmptyString => Throw "Not an identifier."
    | String c _ =>
        if isPunctuation c || isNum c then Throw "Not an identifier."
        else if isIdentifierChar c then Ok (takeWhile isIdentifierChar text)
        else Throw "Unexpected character"
    end.
Proof.
  unfold parseVariableName. rewrite newVarTokenizer_at.
  destruct text as [| c r]; [reflexivity |].
  unfold firstToken, isPunctuation.
  destruct (Ascii.eqb c "["); [reflexivity |].
  destruct (Ascii.eqb c "]"); [reflexivity |].
  destruct (Ascii.eqb c "."); [reflexivity |].
  destruct (isNum c); [reflexivity |].
  destruct (isIdentifierChar c) eqn:Hc; [| reflexivity].
  cbn [bind fst snd getToken m_token Token.eqb negb orb].
  unfold getIdentifier. cbn [m_tokenStart m_tokenLen m_str].
  f_equal. cbn [takeWhile]. rewrite Hc. cbn [String.substring].
  rewrite takeWhile_count. reflexivity.
Qed.

(* ------------------------------------------------------------------ *)
(** ** Writing a path and parsing it again *)

Lemma advance_from (str done rest : string) (kind : Token.t) (start len : nat) :
  str = (done ++ rest)%string ->
  Token.eqb kind Token.END = false ->
  (start + len)%nat = String.length done ->
  advance (mkVarTokenizer str kind start len)
  = (t <- firstToken rest ;;
     Ok (mkVarTokenizer str (fst t) (String.length done) (snd t))).
Proof. intros ->. apply advance_at. Qed.

Lemma digits_allChars (d : Decimal.uint) :
  allChars isNum (NilEmpty.string_of_uint d) = true.
Proof. induction d; simpl; auto. Qed.

(** The decimal text of a positive number: digits only, not empty, and
    read back as the number. *)
Lemma string_of_Z_digits (i : Z) :
  1 <= i ->
  exists c r u,
    string_of_Z i = String c r /\
    isNum c = true /\ allChars isNum r = true /\
    NilZero.uint_of_string (string_of_Z i) = Some u /\ Z.of_uint u = i.
Proof.
  intros Hi. destruct i as [| p | p]; try lia.
  unfold string_of_Z. cbn [Z.to_int NilZero.string_of_int].
  pose proof (Unsigned.to_uint_nonnil p) as Hnil.
  pose proof (NilZero.usu _ Hnil) as Husu.
  pose proof (digits_allChars (Pos.to_uint p)) as Hall.
  assert (Hs : NilZero.string_of_uint (Pos.to_uint p)
               = NilEmpty.string_of_uint (Pos.to_uint p))
    by (destruct (Pos.to_uint p); [congruence | reflexivity..]).
  rewrite Hs in *.
  destruct (NilEmpty.string_of_uint (Pos.to_uint p)) as [| c r] eqn:E.
  - destruct (Pos.to_uint p); simpl in E; congruence.
  - simpl in Hall. apply andb_true_iff in Hall. destruct Hall as [Hc Hr].
    exists c, r, (Pos.to_uint p). repeat split; auto.
    unfold Z.of_uint. rewrite Unsigned.of_to. reflexivity.
Qed.

Lemma count_while_all (p : ascii -> bool) (a b : string) :
  allChars p a = true ->
  match b with EmptyString => True | String c _ => p c = false end ->
  count_while p (a ++ b) = String.length a.
Proof.
  intros Ha Hb. induction a as [| c a IH]; simpl.
  - destruct b as [| c b]; simpl; [reflexivity | rewrite Hb; reflexivity].
  - simpl in Ha. apply andb_true_iff in Ha. destruct Ha as [Hc Ha].
    rewrite Hc, IH by exact Ha. reflexivity.
Qed.

Lemma isNum_not_punctuation (c : ascii) :
  isNum c = true ->
  Ascii.eqb c "[" = false /\ Ascii.eqb c "]" = false /\ Ascii.eqb c "." = false.
Proof.
  intros H. repeat split;
    match goal with |- Ascii.eqb c ?x = false =>
      destruct (Ascii.eqb_spec c x) as [-> |]; [discriminate H | reflexivity]
    end.
Qed.

Lemma isIdentifierChar_not_punctuation (c : ascii) :
  isIdentifierChar c = true ->
  Ascii.eqb c "[" = false /\ Ascii.eqb c "]" = false /\ Ascii.eqb c "." = false.
Proof.
  intros H. repeat split;
    match goal with |- Ascii.eqb c ?x = false =>
      destruct (Ascii.eqb_spec c x) as [-> |]; [discriminate H | reflexivity]
    end.
Qed.

(** The subscripts of a path start with a bracket, or are empty. *)
Lemma subscripts_start (p : ascii -> bool) (path : TypeComponentVector) :
  p "["%char = false ->
  match subscripts path with EmptyString => True | String c _ => p c = false end.
Proof. intros H. destruct path; simpl; [exact I | exact H]. Qed.

Lemma firstToken_subscripts (path : TypeComponentVector) :
  firstToken (subscripts path)
  = Ok (match path with [] => Token.END | _ => Token.LEFT_BRACKET end, 1%nat).
Proof. destruct path; reflexivity. Qed.

Lemma firstToken_number (i : Z) (rest : string) :
  1 <= i ->
  match rest with EmptyString => True | String c _ => isNum c = false end ->
  firstToken (string_of_Z i ++ rest)
  = Ok (Token.NUMBER, String.length (string_of_Z i)).
Proof.
  intros Hi Hrest. destruct (string_of_Z_digits i Hi) as (c & r & u & -> & Hc & Hr & _).
  cbn [String.append firstToken].
  destruct (isNum_not_punctuation c Hc) as (-> & -> & ->). rewrite Hc.
  rewrite count_while_all by assumption. reflexivity.
Qed.

Lemma getNumber_digits (str done rest : string) (i : Z) (kind : Token.t) :
  1 <= i ->
  str = (done ++ string_of_Z i ++ rest)%string ->
  getNumber (mkVarTokenizer str kind (String.length done) (String.length (string_of_Z i)))
  = Some i.
Proof.
  intros Hi ->.
  assert (Hid : String.substring (String.length done) (String.length (string_of_Z i))
                  (done ++ string_of_Z i ++ rest) = string_of_Z i).
  { replace (String.length done) with (String.length done + 0)%nat by lia.
    rewrite substring_app_skip. apply substring_prefix. }
  unfold getNumber, getIdentifier. cbn [m_tokenStart m_tokenLen m_str]. rewrite Hid.
  destruct (string_of_Z_digits i Hi) as (c & r & u & Hs & Hc & Hr & Hu & Hz).
  assert (Hcount : count_while isNum (string_of_Z i) = String.length (string_of_Z i)).
  { pose proof (count_while_all isNum (string_of_Z i) "") as H.
    rewrite string_app_nil_r in H. apply H; [| exact I].
    rewrite Hs. simpl. rewrite Hc, Hr. reflexivity. }
  rewrite Hcount, substring_all, Hu. simpl. rewrite Hz. reflexivity.
Qed.

Lemma newVarTypeComponent_plain (k : ComponentType) (i : Z) :
  k <> STRUCT_MEMBER -> i <> 0 ->
  newVarTypeComponent k i = mkVarTypeComponent (Some k) i.
Proof.
  intros Hk Hi. unfold newVarTypeComponent.
  destruct (Z.eqb_spec i 0); [contradiction |].
  destruct k; try reflexivity. contradiction.
Qed.

Lemma vector_not_matrix (v : DataType) :
  isDataTypeVector v = true -> isDataTypeMatrix v = false.
Proof. destruct v; simpl; intros H; try discriminate; reflexivity. Qed.

Lemma checkBounds_in (i bound : Z) :
  1 <= i < bound -> checkBounds (Some i) bound = Ok i.
Proof.
  intros H. unfold checkBounds, inBounds.
  destruct (Z.leb_spec 0 i); [| lia]. destruct (Z.ltb_spec i bound); [| lia]. reflexivity.
Qed.

(** What the first component of a subscript path is parsed to, and the
    type it leads to. *)
Lemma subscriptPath_first (cur : VarType) (c : VarTypeComponent)
  (rest : TypeComponentVector) :
  subscriptPath cur (c :: rest) ->
  1 <= comp_index c /\
  parseSubscript cur (Some (comp_index c)) = Ok c /\
  exists next, getVarType cur [c] = Ok next /\ subscriptPath next rest.
Proof.
  intros H. inversion H; subst; cbn [comp_index].
  - split; [lia |]. split.
    + unfold parseSubscript. cbn [isArrayType getArraySize DE_ASSERT bind].
      rewrite checkBounds_in by lia. cbn [bind].
      rewrite newVarTypeComponent_plain by (try discriminate; lia). reflexivity.
    + exists e. split; [| assumption].
      rewrite getVarType_element. unfold inBounds.
      destruct (Z.leb_spec 0 i); [| lia]. destruct (Z.ltb_spec i n); [| lia].
      rewrite andb_false_r. reflexivity.
  - split; [lia |]. split.
    + unfold parseSubscript.
      cbn [isArrayType isBasicType getBasicType DE_ASSERT bind andb].
      match goal with Hm : isDataTypeMatrix _ = true |- _ => rewrite Hm end.
      match goal with Hc : getDataTypeMatrixNumColumns _ = Ok _ |- _ => rewrite Hc end.
      cbn [bind]. rewrite checkBounds_in by lia. cbn [bind].
      rewrite newVarTypeComponent_plain by (try discriminate; lia). reflexivity.
    + eexists. split; [| eassumption].
      apply getVarType_basic. eapply shape_column; eauto.
  - split; [lia |]. split.
    + unfold parseSubscript.
      cbn [isArrayType isBasicType getBasicType DE_ASSERT bind andb].
      match goal with Hv : isDataTypeVector _ = true |- _ =>
        rewrite (vector_not_matrix _ Hv), Hv
      end.
      match goal with Hs : getDataTypeScalarSize _ = Ok _ |- _ => rewrite Hs end.
      cbn [bind]. rewrite checkBounds_in by lia. cbn [bind].
      rewrite newVarTypeComponent_plain by (try discriminate; lia). reflexivity.
    + match goal with Hv : isDataTypeVector _ = true |- _ =>
        destruct (vector_scalar _ Hv) as [s Hs]
      end.
      eexists. split; [| apply subscript_none].
      apply getVarType_basic. eapply shape_component; eauto.
Qed.

Ltac string_assoc :=
  repeat first [ rewrite string_app_assoc | progress cbn [String.append subscripts] ];
  reflexivity.

Ltac advance_side Hstr :=
  first [ reflexivity
        | rewrite Hstr; string_assoc
        | rewrite ?string_length_app; simpl; lia ].

(** One turn of the parser loop on a text that starts with a subscript of
    the path. *)
Lemma parseTypePath_step_subscript (type cur : VarType) (str done : string)
  (pathSoFar : TypeComponentVector) (c : VarTypeComponent) (rest : TypeComponentVector) :
  getVarType type pathSoFar = Ok cur ->
  subscriptPath cur (c :: rest) ->
  str = (done ++ subscripts (c :: rest))%string ->
  parseTypePath_step type
    (mkVarTokenizer str Token.LEFT_BRACKET (String.length done) 1) pathSoFar
  = Ok (mkVarTokenizer str
          (match rest with [] => Token.END | _ => Token.LEFT_BRACKET end)
          (String.length (done ++ "[" ++ string_of_Z (comp_index c) ++ "]")) 1,
        pathSoFar ++ [c]).
Proof.
  intros Hcur Hsub Hstr.
  destruct (subscriptPath_first _ _ _ Hsub) as (Hi & Hparse & _).
  cbn [subscripts] in Hstr.
  unfold parseTypePath_step. rewrite Hcur. cbn [bind getToken m_token Token.eqb].
  (* the number *)
  rewrite (advance_from str (done ++ "[")
             (string_of_Z (comp_index c) ++ "]" ++ subscripts rest))
    by (advance_side Hstr).
  rewrite firstToken_number by (try exact Hi; reflexivity).
  cbn [bind fst snd getToken m_token Token.eqb negb].
  rewrite (getNumber_digits str (done ++ "[") ("]" ++ subscripts rest))
    by (try exact Hi; rewrite Hstr; string_assoc).
  rewrite Hparse. cbn [bind].
  (* the closing bracket *)
  rewrite (advance_from str (done ++ "[" ++ string_of_Z (comp_index c))
             ("]" ++ subscripts rest))
    by (advance_side Hstr).
  cbn [firstToken String.append Ascii.eqb Bool.eqb bind fst snd getToken m_token
       Token.eqb negb].
  (* the token behind it *)
  rewrite (advance_from str (done ++ "[" ++ string_of_Z (comp_index c) ++ "]")
             (subscripts rest))
    by (advance_side Hstr).
  rewrite firstToken_subscripts. reflexivity.
Qed.

Lemma parseTypePath_loop_subscripts (type : VarType) :
  forall (rest : TypeComponentVector) (cur : VarType) (str done : string)
         (pathSoFar : TypeComponentVector) (fuel : nat),
    getVarType type pathSoFar = Ok cur ->
    subscriptPath cur rest ->
    str = (done ++ subscripts rest)%string ->
    (List.length rest <= fuel)%nat ->
    parseTypePath_loop fuel type
      (mkVarTokenizer str (match rest with [] => Token.END | _ => Token.LEFT_BRACKET end)
         (String.length done) 1) pathSoFar
    = Some (Ok (pathSoFar ++ rest)).
Proof.
  induction rest as [| c rest IH]; intros cur str done pathSoFar fuel Hcur Hsub Hstr Hf.
  - rewrite app_nil_r. destruct fuel; reflexivity.
  - destruct fuel as [| fuel]; [simpl in Hf; lia |].
    cbn [parseTypePath_loop getToken m_token Token.eqb].
    rewrite (parseTypePath_step_subscript type cur str done pathSoFar c rest Hcur Hsub Hstr).
    destruct (subscriptPath_first _ _ _ Hsub) as (_ & _ & next & Hnext & Hrest).
    rewrite (IH next str (done ++ "[" ++ string_of_Z (comp_index c) ++ "]")%string
               (pathSoFar ++ [c]) fuel).
    + rewrite <- app_assoc. reflexivity.
    + apply (getVarType_app_iff type pathSoFar cur Hcur). exact Hnext.
    + exact Hrest.
    + rewrite Hstr. cbn [subscripts]. string_assoc.
    + simpl in Hf. lia.
Qed.

Lemma subscripts_length (path : TypeComponentVector) :
  (List.length path <= String.length (subscripts path))%nat.
Proof.
  induction path as [| c path IH]; simpl; [lia |].
  rewrite !string_length_app. simpl. lia.
Qed.

Lemma toString_loop_brackets (path : TypeComponentVector) :
  Forall (fun c => comp_type c = Some MATRIX_COLUMN \/ comp_type c = Some VECTOR_COMPONENT)
    path ->
  forall cur i str,
    toString_loop cur path i str = Ok (str ++ subscripts path)%string.
Proof.
  induction 1 as [| c path Hc Hpath IH]; intros cur i str; simpl.
  - rewrite string_app_nil_r. reflexivity.
  - destruct Hc as [-> | ->]; rewrite IH; f_equal; string_assoc.
Qed.

Lemma subscriptPath_basic (b : DataType) (p : precision) (path : TypeComponentVector) :
  subscriptPath (TypeBasic b p) path ->
  Forall (fun c => comp_type c = Some MATRIX_COLUMN \/ comp_type c = Some VECTOR_COMPONENT)
    path.
Proof.
  remember (TypeBasic b p) as t eqn:Ht. intros H. revert b p Ht.
  induction H as [type | e n idx rest Hidx Hrest IH
                 | m pm rows columns idx rest Hm Hrows Hcols Hidx Hrest IH
                 | v pv size idx Hv Hsize Hidx];
    intros b p' Ht; try discriminate.
  - constructor.
  - constructor; [left; reflexivity | eapply IH; reflexivity].
  - constructor; [right; reflexivity | constructor].
Qed.

Lemma toString_loop_subscripts (cur : VarType) (path : TypeComponentVector) :
  subscriptPath cur path ->
  forall i str, toString_loop cur path i str = Ok (str ++ subscripts path)%string.
Proof.
  induction 1 as [type | e n idx rest Hidx Hrest IH
                 | m pm rows columns idx rest Hm Hrows Hcols Hidx Hrest IH
                 | v pv size idx Hv Hsize Hidx]; intros i str.
  - simpl. rewrite string_app_nil_r. reflexivity.
  - simpl. rewrite IH. f_equal. string_assoc.
  - apply toString_loop_brackets. apply (subscriptPath_basic m pm).
    exact (subscript_column m pm rows columns idx rest Hm Hrows Hcols Hidx Hrest).
  - apply toString_loop_brackets. apply (subscriptPath_basic v pv).
    exact (subscript_component v pv size idx Hv Hsize Hidx).
Qed.

(** X18. A path of array elements, matrix columns and vector components
    whose indices are at least 1 and within the sizes survives writing
    and parsing: TypeAccessFormat.toString writes it as its subscripts
    [i][j]..., and parseTypePath of a variable name followed by that text
    returns the path again. *)
Theorem parseTypePath_toString_round_trip (type : VarType)
  (path : TypeComponentVector) (name : string) :
  subscriptPath type path ->
  isIdentifier name = true ->
  TypeAccessFormat_toString type path = Ok (subscripts path) /\
  parseTypePath (name ++ subscripts path) type = Some (Ok path).
Proof.
  intros Hsub Hname. split.
  - unfold TypeAccessFormat_toString. rewrite (toString_loop_subscripts _ _ Hsub). reflexivity.
  - unfold parseTypePath. rewrite newVarTokenizer_at.
    destruct name as [| c r]; [discriminate |].
    cbn [isIdentifier allChars] in Hname.
    apply andb_true_iff in Hname. destruct Hname as [Hnum Hid].
    apply andb_true_iff in Hid. destruct Hid as [Hc Hr].
    apply negb_true_iff in Hnum.
    cbn [String.append firstToken].
    destruct (isIdentifierChar_not_punctuation c Hc) as (-> & -> & ->).
    rewrite Hnum, Hc.
    rewrite (count_while_all isIdentifierChar r (subscripts path) Hr)
      by (apply subscripts_start; reflexivity).
    cbn [bind fst snd getToken m_token Token.eqb].
    rewrite (advance_from _ (String c r) (subscripts path)) by reflexivity.
    rewrite firstToken_subscripts. cbn [bind fst snd].
    apply (parseTypePath_loop_subscripts type path type _ (String c r) []);
      [reflexivity | exact Hsub | reflexivity |].
    pose proof (subscripts_length path) as Hl.
    change (String c (r ++ subscripts path)) with (String c r ++ subscripts path)%string.
    rewrite string_length_app. lia.
Qed.

Lemma parseTypePath_toString_round_trip_witness :
  TypeAccessFormat_toString
    (TypeArray (TypeBasic FLOAT_MAT3X2 PRECISION_MEDIUMP) 12)
    [mkVarTypeComponent (Some ARRAY_ELEMENT) 10; mkVarTypeComponent (Some MATRIX_COLUMN) 2;
     mkVarTypeComponent (Some VECTOR_COMPONENT) 1]
  = Ok "[10][2][1]" /\
  parseTypePath "v_var[10][2][1]" (TypeArray (TypeBasic FLOAT_MAT3X2 PRECISION_MEDIUMP) 12)
  = Some (Ok [mkVarTypeComponent (Some ARRAY_ELEMENT) 10;
              mkVarTypeComponent (Some MATRIX_COLUMN) 2;
              mkVarTypeComponent (Some VECTOR_COMPONENT) 1]).
Proof.
  refine (parseTypePath_toString_round_trip
            (TypeArray (TypeBasic FLOAT_MAT3X2 PRECISION_MEDIUMP) 12)
            [mkVarTypeComponent (Some ARRAY_ELEMENT) 10;
             mkVarTypeComponent (Some MATRIX_COLUMN) 2;
             mkVarTypeComponent (Some VECTOR_COMPONENT) 1] "v_var" _ eq_refl).
  apply subscript_element; [lia |].
  eapply subscript_column; [reflexivity | reflexivity | reflexivity | lia |].
  eapply subscript_component; [reflexivity | reflexivity | lia].
Defined.

(* ------------------------------------------------------------------ *)
(** ** The outputs of a transform-feedback program *)

Lemma sumBytes_app (a b : list Output) : sumBytes (a ++ b) = sumBytes a + sumBytes b.
Proof.
  unfold sumBytes. rewrite map_app.
  induction (map outputBytes a) as [| x l IH]; simpl; [reflexivity | lia].
Qed.

Lemma andThen_Ok {A B : Type} (r : option (result A)) (k : A -> option (result B))
  (b : B) :
  andThen r k = Some (Ok b) -> exists a, r = Some (Ok a) /\ k a = Some (Ok b).
Proof.
  destruct r as [[a | m] |]; simpl; intros H; try discriminate. exists a. auto.
Qed.

Lemma outputs_placed_nil (separate : bool) : outputs_placed separate [].
Proof. intros k out H. destruct k; discriminate. Qed.

Lemma outputs_placed_snoc (separate : bool) (outputs : list Output) (out : Output)
  (size : Z) :
  outputs_placed separate outputs ->
  getScalarSize (out_type out) = Ok size ->
  out_bufferNdx out = (if separate then Z.of_nat (List.length outputs) else 0) ->
  out_offset out = (if separate then 0 else sumBytes outputs) ->
  outputs_placed separate (outputs ++ [out]).
Proof.
  intros Hplaced Hsize Hbuf Hoff k o Hk.
  destruct (Nat.lt_ge_cases k (List.length outputs)) as [Hlt | Hge].
  - rewrite nth_error_app1 in Hk by exact Hlt.
    destruct (Hplaced k o Hk) as (Hs & Hb & Ho). repeat split; try assumption.
    rewrite Ho. destruct separate; [reflexivity |].
    rewrite firstn_app. replace (k - List.length outputs)%nat with 0%nat by lia.
    simpl. rewrite app_nil_r. reflexivity.
  - rewrite nth_error_app2 in Hk by exact Hge.
    destruct (k - List.length outputs)%nat as [| d] eqn:Hd; simpl in Hk.
    + inversion Hk; subst o. assert (k = List.length outputs) by lia. subst k.
      repeat split; [eauto | exact Hbuf |].
      rewrite Hoff. destruct separate; [reflexivity |].
      rewrite firstn_app, firstn_all, Nat.sub_diag. simpl. rewrite app_nil_r. reflexivity.
    + destruct d; discriminate.
Qed.

(** The loop keeps the placement of the outputs and appends one output
    for each name. *)
Lemma computeTransformFeedbackOutputs_loop_placed (fuel : nat)
  (attributes : list Attribute) (varyings : list Varying) (separate : bool) :
  forall names varNdx accumulatedSize outputs res,
    outputs_placed separate outputs ->
    varNdx = Z.of_nat (List.length outputs) ->
    accumulatedSize = sumBytes outputs ->
    computeTransformFeedbackOutputs_loop fuel attributes varyings separate names
      varNdx accumulatedSize outputs = Some (Ok res) ->
    outputs_placed separate res /\ map out_name res = map out_name outputs ++ names.
Proof.
  induction names as [| name rest IH]; intros varNdx acc outputs res Hplaced Hndx Hacc H.
  - simpl in H. inversion H; subst. rewrite app_nil_r. auto.
  - simpl in H. apply andThen_Ok in H. destruct H as ([type inputs] & _ & H).
    cbn [fst snd andThen out_type] in H.
    destruct (getScalarSize type) as [size |] eqn:Hsize'; [| discriminate].
    apply IH in H.
    + destruct H as [Hres Hnames]. split; [exact Hres |].
      rewrite Hnames, map_app. simpl. rewrite <- app_assoc. reflexivity.
    + eapply outputs_placed_snoc; [exact Hplaced | exact Hsize' | |]; simpl;
        subst; reflexivity.
    + rewrite length_app. simpl. lia.
    + rewrite sumBytes_app. unfold sumBytes at 2. simpl. unfold outputBytes. simpl.
      rewrite Hsize'. lia.
Qed.

Lemma init_totalSize_sum :
  forall outputs totalSize,
    Forall (fun out => exists size, getScalarSize (out_type out) = Ok size) outputs ->
    init_totalSize outputs totalSize = Ok (totalSize + sumBytes outputs).
Proof.
  induction outputs as [| out rest IH]; intros totalSize Hall; simpl.
  - unfold sumBytes. simpl. f_equal. lia.
  - inversion Hall as [| ? ? (size & Hsize) Hrest]; subst.
    rewrite Hsize. simpl. rewrite IH by exact Hrest.
    unfold sumBytes. simpl. unfold outputBytes at 2. rewrite Hsize. f_equal. lia.
Qed.

Lemma init_separateStrides_map :
  forall outputs bufferStrides,
    Forall (fun out => exists size, getScalarSize (out_type out) = Ok size) outputs ->
    init_separateStrides outputs bufferStrides
    = Ok (bufferStrides ++ map outputBytes outputs).
Proof.
  induction outputs as [| out rest IH]; intros strides Hall; simpl.
  - rewrite app_nil_r. reflexivity.
  - inversion Hall as [| ? ? (size & Hsize) Hrest]; subst.
    rewrite Hsize. simpl. rewrite IH by exact Hrest.
    unfold outputBytes at 2. rewrite Hsize. rewrite <- app_assoc. reflexivity.
Qed.

Lemma outputs_placed_sizes (separate : bool) (outputs : list Output) :
  outputs_placed separate outputs ->
  Forall (fun out => exists size, getScalarSize (out_type out) = Ok size) outputs.
Proof.
  intros H. apply Forall_forall. intros out Hin.
  apply In_nth_error in Hin. destruct Hin as [k Hk]. apply (H k out Hk).
Qed.

Lemma sumBytes_nonneg (outputs : list Output) :
  Forall (fun out => sizedType (out_type out) = true) outputs -> 0 <= sumBytes outputs.
Proof.
  induction 1 as [| out rest Hout Hrest IH]; unfold sumBytes; simpl; [lia |].
  fold (sumBytes rest). unfold outputBytes.
  destruct (getScalarSize_nonneg _ Hout) as (n & -> & Hn). lia.
Qed.

Lemma firstn_skipn_nth {A : Type} (l : list A) (k : nat) (x : A) :
  nth_error l k = Some x -> l = firstn k l ++ x :: skipn (S k) l.
Proof.
  revert k. induction l as [| y l IH]; intros [| k] H; simpl in *; try discriminate.
  - inversion H. reflexivity.
  - f_equal. apply IH. exact H.
Qed.

(** X19. When computeTransformFeedbackOutputs returns, it has made one
    output for each captured name, in order and under that name. In
    separate mode output k is in buffer k at offset 0 and init gives each
    buffer the stride of its output; otherwise every output is in buffer 0
    at the sum of the sizes of the outputs before it, and init gives the one
    buffer the sum of all sizes as its stride. If no output type has an
    unsized array, the interleaved outputs lie inside the record: offsets
    are not negative and no output ends behind the stride. Without captured
    names init throws. *)
Theorem computeTransformFeedbackOutputs_placement (fuel : nat)
  (attributes : list Attribute) (varyings : list Varying) (names : list string)
  (separate : bool) (outputs : list Output) :
  computeTransformFeedbackOutputs fuel [] attributes varyings names separate
  = Some (Ok outputs) ->
  map out_name outputs = names /\
  outputs_placed separate outputs /\
  init_bufferStrides outputs separate
  = match names with
    | [] => Throw "transformFeedbackOutputs cannot be empty."
    | _ => Ok (if separate then map outputBytes outputs else [sumBytes outputs])
    end /\
  (separate = false ->
   Forall (fun out => sizedType (out_type out) = true) outputs ->
   Forall (fun out => 0 <= out_offset out /\
                      out_offset out + outputBytes out <= sumBytes outputs) outputs).
Proof.
  intros H. unfold computeTransformFeedbackOutputs in H.
  apply computeTransformFeedbackOutputs_loop_placed in H;
    [| apply outputs_placed_nil | reflexivity | reflexivity].
  destruct H as [Hplaced Hnames]. simpl in Hnames.
  pose proof (outputs_placed_sizes separate outputs Hplaced) as Hsizes.
  split; [exact Hnames |]. split; [exact Hplaced |]. split.
  - unfold init_bufferStrides. rewrite <- Hnames.
    destruct outputs as [| out rest]; [reflexivity |].
    cbn [map]. destruct separate.
    + rewrite init_separateStrides_map by exact Hsizes. reflexivity.
    + rewrite init_totalSize_sum by exact Hsizes. reflexivity.
  - intros -> Hsized. apply Forall_forall. intros out Hin.
    apply In_nth_error in Hin. destruct Hin as [k Hk].
    destruct (Hplaced k out Hk) as (_ & _ & Hoff).
    pose proof (firstn_skipn_nth outputs k out Hk) as Hsplit.
    assert (Hparts : Forall (fun out => sizedType (out_type out) = true)
                       (firstn k outputs) /\
                     Forall (fun out => sizedType (out_type out) = true)
                       (skipn (S k) outputs)).
    { rewrite Hsplit in Hsized. apply Forall_app in Hsized. destruct Hsized as [Ha Hb].
      inversion Hb; subst. auto. }
    destruct Hparts as [Hbefore Hafter].
    apply sumBytes_nonneg in Hbefore. apply sumBytes_nonneg in Hafter.
    assert (Hsum : sumBytes outputs
                   = sumBytes (firstn k outputs) + (outputBytes out
                     + sumBytes (skipn (S k) outputs))).
    { rewrite Hsplit at 1. rewrite sumBytes_app. reflexivity. }
    rewrite Hoff. lia.
Qed.

Lemma computeTransformFeedbackOutputs_placement_witness :
  map out_name basicType_outputs = ["v_varA"; "v_varB"] /\
  init_bufferStrides basicType_outputs false = Ok [sumBytes basicType_outputs].
Proof.
  pose proof (computeTransformFeedbackOutputs_placement 2 basicType_attributes
                (getVaryings basicTypeSpec) ["v_varA"; "v_varB"] false basicType_outputs
                eq_refl) as H.
  exact (conj (proj1 H) (proj1 (proj2 (proj2 H)))).
Defined.

(* ------------------------------------------------------------------ *)
(** ** The layout and the outputs of the test classes *)

(** X20. Whatever the varyings of a program are called, the outputs for
    the two built-in names take their inputs from the layout's own
    attributes: where computeInputLayout returns, the output for
    gl_Position has the type highp vec4 and the input a_position at offset
    0, and, when gl_PointSize is among the captured names, the output for
    gl_PointSize has the type highp float and the input a_pointSize at
    offset 16. The look-up of these two attributes never fails. *)
Theorem builtin_outputs (fuel : nat) (spec : ProgramSpec)
  (attributes : list Attribute) (stride : Z) :
  computeInputLayout fuel [] (getVaryings spec) (isPointSizeUsed spec)
  = Some (Ok (attributes, stride)) ->
  computeTransformFeedbackOutputs_output fuel attributes (getVaryings spec) "gl_Position"
  = Some (Ok (TypeBasic FLOAT_VEC4 PRECISION_HIGHP,
              [Some (mkAttribute "a_position" (TypeBasic FLOAT_VEC4 PRECISION_HIGHP) 0)])) /\
  (In "gl_PointSize" (getTransformFeedbackVaryings spec) ->
   computeTransformFeedbackOutputs_output fuel attributes (getVaryings spec) "gl_PointSize"
   = Some (Ok (TypeBasic FLOAT PRECISION_HIGHP,
               [Some (mkAttribute "a_pointSize" (TypeBasic FLOAT PRECISION_HIGHP) 16)]))).
Proof.
  intros H. apply computeInputLayout_returns_layout in H. destruct H as [_ [rest ->]].
  split; [reflexivity |].
  intros Hin.
  assert (Hused : isPointSizeUsed spec = true).
  { unfold isPointSizeUsed. apply existsb_exists. exists "gl_PointSize". split;
      [exact Hin | reflexivity]. }
  rewrite Hused. reflexivity.
Qed.

Lemma builtin_outputs_witness :
  computeTransformFeedbackOutputs_output 2
    [a_position; mkAttribute "a_pointSize" (TypeBasic FLOAT PRECISION_HIGHP) 16]
    [] "gl_PointSize"
  = Some (Ok (TypeBasic FLOAT PRECISION_HIGHP,
              [Some (mkAttribute "a_pointSize" (TypeBasic FLOAT PRECISION_HIGHP) 16)])).
Proof.
  exact (proj2 (builtin_outputs 2 (builtinSpec ["gl_PointSize"])
                  [a_position; mkAttribute "a_pointSize" (TypeBasic FLOAT PRECISION_HIGHP) 16]
                  20 eq_refl)
           (or_introl eq_refl)).
Defined.

(** X21. For a BasicTypeCase over a scalar or vector type with n
    components, init lays out a_position at 0, a_varA at 16 and a_varB at
    16 + 4n with the input stride 16 + 8n, and makes the outputs v_varA and
    v_varB, each with the varying's type and its own attribute as the one
    input: in separate mode in the buffers 0 and 1 at offset 0 with the
    strides 4n and 4n, in interleaved mode in buffer 0 at the offsets 0 and
    4n with the stride 8n. *)
Theorem BasicTypeCase_init (fuel : nat) (type : DataType) (prec : precision)
  (interp : interpolation) (separate : bool) (size : Z) :
  isDataTypeScalarOrVector type = true ->
  getDataTypeScalarSize type = Ok size ->
  init_layout (S (S fuel)) (BasicTypeCase_spec type prec interp) separate
  = Some (Ok
      ([mkAttribute "a_position" (TypeBasic FLOAT_VEC4 PRECISION_HIGHP) 0;
        mkAttribute "a_varA" (TypeBasic type prec) 16;
        mkAttribute "a_varB" (TypeBasic type prec) (16 + size * 4)],
       16 + size * 4 + size * 4,
       [mkOutput 0 0 "v_varA" (TypeBasic type prec)
          [Some (mkAttribute "a_varA" (TypeBasic type prec) 16)];
        mkOutput (if separate then 1 else 0) (if separate then 0 else size * 4) "v_varB"
          (TypeBasic type prec)
          [Some (mkAttribute "a_varB" (TypeBasic type prec) (16 + size * 4))]],
       if separate then [size * 4; size * 4] else [size * 4 + size * 4])).
Proof.
  intros Ht Hs.
  destruct type; try discriminate Ht; simpl in Hs; inversion Hs; subst size;
    destruct separate; reflexivity.
Qed.

Lemma BasicTypeCase_init_witness :
  init_layout 2 (BasicTypeCase_spec INT_VEC3 PRECISION_LOWP FLAT) false
  = Some (Ok
      ([mkAttribute "a_position" (TypeBasic FLOAT_VEC4 PRECISION_HIGHP) 0;
        mkAttribute "a_varA" (TypeBasic INT_VEC3 PRECISION_LOWP) 16;
        mkAttribute "a_varB" (TypeBasic INT_VEC3 PRECISION_LOWP) 28],
       40,
       [mkOutput 0 0 "v_varA" (TypeBasic INT_VEC3 PRECISION_LOWP)
          [Some (mkAttribute "a_varA" (TypeBasic INT_VEC3 PRECISION_LOWP) 16)];
        mkOutput 0 12 "v_varB" (TypeBasic INT_VEC3 PRECISION_LOWP)
          [Some (mkAttribute "a_varB" (TypeBasic INT_VEC3 PRECISION_LOWP) 28)]],
       [24])).
Proof.
  exact (BasicTypeCase_init 0 INT_VEC3 PRECISION_LOWP FLAT false 3 eq_refl eq_refl).
Defined.


(* ------------------------------------------------------------------ *)
(** ** The draw block of runTest *)

Lemma replay_app :
  forall a b state draws,
    replay (a ++ b) state draws
    = match replay a state draws with
      | Some (state', draws') => replay b state' draws'
      | None => None
      end.
Proof.
  induction a as [| c a IH]; intros b state draws; [reflexivity |].
  destruct c, state; simpl; try reflexivity; apply IH.
Qed.

Section DrawBlockWithoutErrors.

Variable getError : list GLCall -> Z.
Hypothesis no_error : forall history, getError history = NO_ERROR.

Lemma GLU_EXPECT_NO_ERROR_passes (msg : string) (s : DrawState) :
  GLU_EXPECT_NO_ERROR getError msg s = (s, Ok tt).
Proof. unfold GLU_EXPECT_NO_ERROR. rewrite no_error. reflexivity. Qed.

Lemma runTest_drawCall_issues (primType : primitiveType) (glPrim : GLprimitive)
  (call : DrawCall) (s : DrawState) :
  getPrimitiveGLType primType = Ok glPrim ->
  exists issued,
    runTest_drawCall getError primType call s
    = (mkDrawState (calls_made s ++ issued) (transformFeedbackEnabled call)
         (draw_offset s + numElements call), Ok tt) /\
    forall draws,
      replay issued (feedbackOf (tfEnabled s)) draws
      = Some (feedbackOf (transformFeedbackEnabled call),
              draws ++ [(draw_offset s, numElements call, transformFeedbackEnabled call)]).
Proof.
  intros Hprim. unfold runTest_drawCall. rewrite Hprim.
  destruct s as [made enabled offset].
  destruct (transformFeedbackEnabled call) eqn:Hcall, enabled;
    repeat first
      [ rewrite GLU_EXPECT_NO_ERROR_passes
      | progress unfold seq_
      | progress cbn [negb Bool.eqb gl_call set_tfEnabled add_offset ret raise
                      calls_made tfEnabled draw_offset] ];
    rewrite <- ?app_assoc; eexists; (split; [reflexivity |]); intros draws; reflexivity.
Qed.

Lemma runTest_drawCalls_issues (primType : primitiveType) (glPrim : GLprimitive) :
  getPrimitiveGLType primType = Ok glPrim ->
  forall calls s,
    exists s' issued,
      runTest_drawCalls getError primType calls s = (s', Ok tt) /\
      calls_made s' = calls_made s ++ issued /\
      forall draws,
        replay issued (feedbackOf (tfEnabled s)) draws
        = Some (feedbackOf (tfEnabled s'), draws ++ scriptedDraws calls (draw_offset s)).
Proof.
  intros Hprim. induction calls as [| call rest IH]; intros s.
  - exists s, []. simpl. rewrite app_nil_r. split; [reflexivity |]. split; [reflexivity |].
    intros draws. rewrite app_nil_r. reflexivity.
  - destruct (runTest_drawCall_issues primType glPrim call s Hprim) as (first & Hcall & Hfirst).
    destruct (IH (mkDrawState (calls_made s ++ first) (transformFeedbackEnabled call)
                    (draw_offset s + numElements call))) as (s' & more & Hrest & Hmade & Hmore).
    exists s', (first ++ more). cbn [runTest_drawCalls]. unfold seq_ at 1. rewrite Hcall.
    split; [exact Hrest |]. split.
    + rewrite Hmade. simpl. rewrite app_assoc. reflexivity.
    + intros draws. rewrite replay_app, Hfirst. simpl in Hmore. rewrite Hmore.
      simpl. rewrite <- app_assoc. reflexivity.
Qed.

End DrawBlockWithoutErrors.

(** X23. When the context reports no error and the primitive type is not
    PATCHES, the draw block of runTest returns, and the calls it makes are
    a correct use of transform feedback: begun once, paused and resumed
    only in the states that allow it, and ended while capturing. The draws
    are those of the script, in order: each call draws its vertices from
    the offset that is the sum of the earlier calls' counts, and it is
    captured exactly when the call has transform feedback enabled. *)
Theorem runTest_draw_protocol (getError : list GLCall -> Z) (primType : primitiveType)
  (calls : list DrawCall) (s : DrawState) :
  (forall history, getError history = NO_ERROR) ->
  primType <> PATCHES ->
  exists s' issued,
    runTest_draw getError primType calls s = (s', Ok tt) /\
    calls_made s' = calls_made s ++ issued /\
    replay issued Inactive [] = Some (Inactive, scriptedDraws calls 0).
Proof.
  intros Hno Hprim.
  assert (Hmode : exists mode, getTransformFeedbackPrimitiveMode primType = Ok mode).
  { destruct primType; try (eexists; reflexivity). contradiction. }
  assert (Hgl : exists glPrim, getPrimitiveGLType primType = Ok glPrim).
  { destruct primType; try (eexists; reflexivity). contradiction. }
  destruct Hmode as [mode Hmode]. destruct Hgl as [glPrim Hgl].
  unfold runTest_draw, try_catch_rethrow, try_finally. rewrite Hmode.
  unfold seq_. cbn [gl_call raise calls_made tfEnabled draw_offset].
  rewrite GLU_EXPECT_NO_ERROR_passes by exact Hno.
  destruct (runTest_drawCalls_issues getError Hno primType glPrim Hgl calls
              (mkDrawState ((calls_made s ++ [gl_clear])
                            ++ [gl_beginTransformFeedback mode]) true 0))
    as (s1 & issued & Hloop & Hmade & Hreplay).
  rewrite Hloop. simpl in Hmade, Hreplay.
  destruct s1 as [made1 enabled1 offset1]. simpl in Hmade. subst made1.
  destruct enabled1; unfold seq_;
    cbn [negb gl_call ret calls_made tfEnabled draw_offset];
    rewrite GLU_EXPECT_NO_ERROR_passes by exact Hno.
  - eexists. exists ([gl_clear; gl_beginTransformFeedback mode] ++ issued
                     ++ [gl_endTransformFeedback]).
    split; [reflexivity |]. split.
    + simpl. rewrite <- !app_assoc. reflexivity.
    + cbn [app replay]. rewrite replay_app, Hreplay. reflexivity.
  - eexists. exists ([gl_clear; gl_beginTransformFeedback mode] ++ issued
                     ++ [gl_resumeTransformFeedback; gl_endTransformFeedback]).
    split; [reflexivity |]. split.
    + simpl. rewrite <- !app_assoc. reflexivity.
    + cbn [app replay]. rewrite replay_app, Hreplay. reflexivity.
Qed.

Lemma GLU_EXPECT_NO_ERROR_state (getError : list GLCall -> Z) (msg : string)
  (s s' : DrawState) (r : result unit) :
  GLU_EXPECT_NO_ERROR getError msg s = (s', r) -> s' = s.
Proof.
  unfold GLU_EXPECT_NO_ERROR. destruct (negb _); intros H; inversion H; reflexivity.
Qed.

Section DrawBlockCleanup.

Variable getError : list GLCall -> Z.

Lemma runTest_drawCall_calls (primType : primitiveType) (call : DrawCall)
  (s s' : DrawState) (r : result unit) :
  runTest_drawCall getError primType call s = (s', r) ->
  exists issued, calls_made s' = calls_made s ++ issued /\ Forall loopCall issued.
Proof.
  unfold runTest_drawCall, seq_, GLU_EXPECT_NO_ERROR, gl_call, set_tfEnabled, add_offset,
    ret, raise.
  intros H.
  repeat match type of H with
         | context [if ?b then _ else _] => destruct b
         | context [match ?x with _ => _ end] => destruct x
         end;
    cbn [calls_made] in H; inversion H; subst; cbn [calls_made];
    eexists; (split;
      [first [ rewrite <- ?app_assoc; reflexivity | symmetry; apply app_nil_r ]
      | repeat constructor]).
Qed.

Lemma runTest_drawCalls_calls (primType : primitiveType) :
  forall calls s s' r,
    runTest_drawCalls getError primType calls s = (s', r) ->
    exists issued, calls_made s' = calls_made s ++ issued /\ Forall loopCall issued.
Proof.
  induction calls as [| call rest IH]; intros s s' r H.
  - inversion H; subst. exists []. rewrite app_nil_r. auto.
  - cbn [runTest_drawCalls] in H. unfold seq_ at 1 in H.
    destruct (runTest_drawCall getError primType call s) as [s1 r1] eqn:Hcall.
    apply runTest_drawCall_calls in Hcall. destruct Hcall as (first & Hfirst & Hloop1).
    destruct r1 as [[] | msg].
    + apply IH in H. destruct H as (more & Hmore & Hloop2).
      exists (first ++ more). rewrite Hmore, Hfirst, app_assoc. split; [reflexivity |].
      apply Forall_app. auto.
    + inversion H; subst. eauto.
Qed.

End DrawBlockCleanup.

Lemma loopCall_no_cleanup (issued : list GLCall) :
  Forall loopCall issued ->
  ~ In gl_endTransformFeedback issued /\ ~ In gl_deleteQuery issued.
Proof.
  intros H. split; intros Hin; rewrite Forall_forall in H; apply H in Hin; exact Hin.
Qed.

Lemma runTest_draw_protocol_witness :
  exists s' issued,
    runTest_draw (fun _ => NO_ERROR) POINTS basicPause1 (mkDrawState [] true 0)
    = (s', Ok tt) /\
    calls_made s' = [] ++ issued /\
    replay issued Inactive [] = Some (Inactive, scriptedDraws basicPause1 0).
Proof.
  apply (runTest_draw_protocol (fun _ => NO_ERROR) POINTS basicPause1
           (mkDrawState [] true 0)); [intros history; reflexivity | discriminate].
Defined.

(** X24. Whatever errors the context reports, and for every primitive
    type and script, the draw block of runTest calls endTransformFeedback
    exactly once, as its last call when it returns; when it throws, the one
    call behind it is deleteQuery, which is called in no other case. (For
    PATCHES transform feedback is ended although it was never begun.) *)
Theorem runTest_draw_cleanup (getError : list GLCall -> Z) (primType : primitiveType)
  (calls : list DrawCall) (s s' : DrawState) (r : result unit) :
  runTest_draw getError primType calls s = (s', r) ->
  exists issued,
    calls_made s'
    = calls_made s ++ gl_clear :: issued
      ++ gl_endTransformFeedback
         :: match r with Ok _ => [] | Throw _ => [gl_deleteQuery] end /\
    ~ In gl_endTransformFeedback issued /\ ~ In gl_deleteQuery issued.
Proof.
  unfold runTest_draw, try_catch_rethrow, try_finally. unfold seq_ at 1.
  cbn [gl_call calls_made tfEnabled draw_offset].
  match goal with
  | |- context [seq_ ?m ?k ?st] => destruct (seq_ m k st) as [s1 r1] eqn:Hbody
  end.
  assert (Hissued : exists issued,
             calls_made s1 = (calls_made s ++ [gl_clear]) ++ issued /\
             ~ In gl_endTransformFeedback issued /\ ~ In gl_deleteQuery issued).
  { unfold seq_ at 1 in Hbody. unfold raise in Hbody.
    destruct (getTransformFeedbackPrimitiveMode primType) as [mode | msg].
    - unfold seq_ at 1 in Hbody. cbn [gl_call calls_made tfEnabled draw_offset] in Hbody.
      unfold seq_ at 1 in Hbody.
      match type of Hbody with
      | context [GLU_EXPECT_NO_ERROR ?g ?m ?st] =>
          destruct (GLU_EXPECT_NO_ERROR g m st) as [s2 r2] eqn:Hcheck;
          apply GLU_EXPECT_NO_ERROR_state in Hcheck; subst s2
      end.
      destruct r2 as [[] | msg].
      + apply runTest_drawCalls_calls in Hbody. destruct Hbody as (issued & Hmade & Hloop).
        cbn [calls_made] in Hmade.
        exists (gl_beginTransformFeedback mode :: issued).
        split; [rewrite Hmade, <- app_assoc; reflexivity |].
        destruct (loopCall_no_cleanup issued Hloop) as [Hend Hdel].
        repeat split; try tauto; intros [Hin | Hin]; try discriminate; tauto.
      + inversion Hbody; subst. exists [gl_beginTransformFeedback mode].
        cbn [calls_made]. repeat split; try tauto; intros [Hin | []]; discriminate.
    - inversion Hbody; subst. exists []. cbn [calls_made]. rewrite app_nil_r.
      repeat split; try tauto; intros []. }
  destruct Hissued as (issued & Hmade & Hend & Hdel).
  unfold seq_, GLU_EXPECT_NO_ERROR, gl_call, ret.
  destruct s1 as [made1 enabled1 offset1]. cbn [calls_made] in Hmade. subst made1.
  cbn [calls_made tfEnabled draw_offset].
  destruct enabled1; cbn [negb calls_made tfEnabled draw_offset].
  - match goal with
    | |- context [if ?b then _ else _] => destruct b
    end.
    + intros H. inversion H; subst. cbn [calls_made]. exists issued.
      split; [rewrite <- !app_assoc; reflexivity | auto].
    + destruct r1 as [[] | msg]; intros H; inversion H; subst; cbn [calls_made];
        exists issued; (split; [rewrite <- !app_assoc; reflexivity | auto]).
  - match goal with
    | |- context [if ?b then _ else _] => destruct b
    end.
    + intros H. inversion H; subst. cbn [calls_made].
      exists (issued ++ [gl_resumeTransformFeedback]).
      split; [rewrite <- !app_assoc; reflexivity |].
      split; intros Hin; apply in_app_or in Hin; destruct Hin as [Hin | [Hin | []]];
        try discriminate; tauto.
    + destruct r1 as [[] | msg]; intros H; inversion H; subst; cbn [calls_made];
        exists (issued ++ [gl_resumeTransformFeedback]);
        (split; [rewrite <- !app_assoc; reflexivity |]);
        split; intros Hin; apply in_app_or in Hin; destruct Hin as [Hin | [Hin | []]];
        try discriminate; tauto.
Qed.

Lemma runTest_draw_cleanup_witness :
  exists issued,
    [gl_clear; gl_beginTransformFeedback GL_POINTS; gl_drawArrays GL_POINTS 0 1;
     gl_endTransformFeedback; gl_deleteQuery]
    = [] ++ gl_clear :: issued ++ [gl_endTransformFeedback; gl_deleteQuery] /\
    ~ In gl_endTransformFeedback issued /\ ~ In gl_deleteQuery issued.
Proof.
  exact (runTest_draw_cleanup errorAfterDraw POINTS elemCount1 (mkDrawState [] true 0)
           (mkDrawState [gl_clear; gl_beginTransformFeedback GL_POINTS;
                         gl_drawArrays GL_POINTS 0 1; gl_endTransformFeedback;
                         gl_deleteQuery] true 0)
           (Throw "glDrawArrays: gl.GetError() returned 1282") eq_refl).
Defined.

(* ------------------------------------------------------------------ *)
(** ** The totals of runTest and the windows it compares *)

Lemma getTransformFeedbackOutputCount_nonneg (primType : primitiveType) (n count : Z) :
  0 <= n -> getTransformFeedbackOutputCount primType n = Ok count -> 0 <= count.
Proof.
  intros Hn H. destruct primType; simpl in H; inversion H; subst; clear H;
    unfold js_mod; try lia.
  - pose proof (Z.rem_bound_pos n 3 Hn ltac:(lia)).
    assert (Z.rem n 3 <= n) by (apply Z.rem_le; lia). lia.
  - assert (Z.rem n 2 <= n) by (apply Z.rem_le; lia). lia.
  - destruct (1 <? n); lia.
Qed.

Lemma Forall_prefix {A : Type} (P : A -> Prop) (l : list A) :
  Forall P l -> forall k, Forall P (firstn k l).
Proof.
  induction 1 as [| x l Hx Hl IH]; intros [| k]; simpl; constructor; auto.
Qed.

(** The totals grow with the calls. *)
Lemma runTest_totals_grow (primType : primitiveType) :
  forall calls numInputs numOutputs totalInputs totalOutputs,
    Forall (fun call => 0 <= numElements call) calls ->
    runTest_totals primType calls numInputs numOutputs = Ok (totalInputs, totalOutputs) ->
    numInputs <= totalInputs /\ numOutputs <= totalOutputs.
Proof.
  induction calls as [| call rest IH]; intros ni no ti to Hall H; simpl in H.
  - inversion H; subst. lia.
  - inversion Hall as [| ? ? Hcall Hrest]; subst.
    destruct (transformFeedbackEnabled call).
    + destruct (getTransformFeedbackOutputCount primType (numElements call))
        as [count |] eqn:Hcount; simpl in H; [| discriminate].
      apply getTransformFeedbackOutputCount_nonneg in Hcount; [| exact Hcall].
      apply IH in H; [lia | exact Hrest].
    + simpl in H. apply IH in H; [lia | exact Hrest].
Qed.

(** The comparison loop started at the offsets [numInputs], [numOutputs]. *)
Lemma runTest_compareCalls_windows (compare : Z -> Z -> Z -> result bool)
  (primType : primitiveType) (inputStride stride : Z) :
  forall calls numInputs numOutputs totalInputs totalOutputs,
    Forall (fun call => 0 <= numElements call) calls ->
    runTest_totals primType calls numInputs numOutputs = Ok (totalInputs, totalOutputs) ->
    (runTest_compareCalls compare primType inputStride stride calls numInputs numOutputs
     = Ok true
     <->
     forall k call,
       nth_error calls k = Some call ->
       transformFeedbackEnabled call = true ->
       exists inputOffset outputOffset count,
         runTest_totals primType (firstn k calls) numInputs numOutputs
         = Ok (inputOffset, outputOffset) /\
         getTransformFeedbackOutputCount primType (numElements call) = Ok count /\
         compare (numElements call) (inputOffset * inputStride) (outputOffset * stride)
         = Ok true /\
         numInputs <= inputOffset /\ inputOffset + numElements call <= totalInputs /\
         numOutputs <= outputOffset /\ outputOffset + count <= totalOutputs).
Proof.
  induction calls as [| call rest IH]; intros ni no ti to Hall Htotals.
  - simpl. split; [| reflexivity]. intros _ k call Hk. destruct k; discriminate.
  - inversion Hall as [| ? ? Hcall Hrest]; subst.
    cbn [runTest_totals] in Htotals. cbn [runTest_compareCalls].
    destruct (transformFeedbackEnabled call) eqn:Henabled.
    + destruct (getTransformFeedbackOutputCount primType (numElements call))
        as [count |] eqn:Hcount; cbn [bind] in Htotals; [| discriminate].
      pose proof (getTransformFeedbackOutputCount_nonneg _ _ _ Hcall Hcount) as Hpos.
      pose proof (runTest_totals_grow _ _ _ _ _ _ Hrest Htotals) as [Hgi Hgo].
      specialize (IH _ _ _ _ Hrest Htotals).
      split.
      * intros H.
        destruct (compare (numElements call) (ni * inputStride) (no * stride))
          as [[|] |] eqn:Hcmp; cbn [bind negb] in H; try discriminate.
        intros [| k] c Hk Hc.
        -- simpl in Hk. inversion Hk; subst c. exists ni, no, count.
           simpl. repeat split; try assumption; lia.
        -- simpl in Hk. destruct (proj1 IH H k c Hk Hc)
             as (i & o & cnt & Hpre & Hcnt & Hc' & Hi1 & Hi2 & Ho1 & Ho2).
           exists i, o, cnt. cbn [firstn runTest_totals]. rewrite Henabled, Hcount.
           cbn [bind]. repeat split; try assumption; lia.
      * intros H.
        destruct (H 0%nat call eq_refl Henabled)
          as (i & o & cnt & Hpre & Hcnt & Hc' & _).
        simpl in Hpre. inversion Hpre; subst i o. rewrite Hc'. cbn [bind negb].
        apply (proj2 IH). intros k c Hk Hc.
        destruct (H (S k) c Hk Hc) as (i & o & cnt' & Hpre' & Hcnt' & Hc'' & Hi1 & Hi2 & Ho1 & Ho2).
        cbn [firstn runTest_totals] in Hpre'. rewrite Henabled, Hcount in Hpre'.
        cbn [bind] in Hpre'.
        exists i, o, cnt'. repeat split; try assumption.
        -- apply runTest_totals_grow in Hpre'; [lia | apply Forall_prefix; exact Hrest].
        -- apply runTest_totals_grow in Hpre'; [lia | apply Forall_prefix; exact Hrest].
    + cbn [bind] in Htotals. cbn [bind negb].
      pose proof (runTest_totals_grow _ _ _ _ _ _ Hrest Htotals) as [Hgi Hgo].
      specialize (IH _ _ _ _ Hrest Htotals).
      split.
      * intros H [| k] c Hk Hc.
        -- simpl in Hk. inversion Hk; subst c. congruence.
        -- simpl in Hk. destruct (proj1 IH H k c Hk Hc)
             as (i & o & cnt & Hpre & Hcnt & Hc' & Hi1 & Hi2 & Ho1 & Ho2).
           exists i, o, cnt. cbn [firstn runTest_totals]. rewrite Henabled.
           cbn [bind]. repeat split; try assumption; lia.
      * intros H. apply (proj2 IH). intros k c Hk Hc.
        destruct (H (S k) c Hk Hc) as (i & o & cnt' & Hpre' & Hcnt' & Hc'' & Hi1 & Hi2 & Ho1 & Ho2).
        cbn [firstn runTest_totals] in Hpre'. rewrite Henabled in Hpre'.
        cbn [bind] in Hpre'.
        exists i, o, cnt'. repeat split; try assumption.
        -- apply runTest_totals_grow in Hpre'; [lia | apply Forall_prefix; exact Hrest].
        -- apply runTest_totals_grow in Hpre'; [lia | apply Forall_prefix; exact Hrest].
Qed.

(** X25. For a script whose calls have no negative vertex counts and
    whose totals runTest has computed, the loop that compares one output
    leaves outputsOk untouched exactly when the comparison answers true for
    every call with transform feedback enabled, each compared at the byte
    offsets (vertices of the earlier calls) * input stride and (captured
    vertices of the earlier enabled calls) * output stride. Every such
    window lies inside the totals: the input records end at or before
    numInputs and the output records at or before numOutputs, where the
    guard band begins. *)
Theorem runTest_compare_windows (compare : Z -> Z -> Z -> result bool)
  (primType : primitiveType) (inputStride stride : Z) (calls : list DrawCall)
  (numInputs numOutputs : Z) :
  Forall (fun call => 0 <= numElements call) calls ->
  runTest_totals primType calls 0 0 = Ok (numInputs, numOutputs) ->
  (runTest_compareCalls compare primType inputStride stride calls 0 0 = Ok true
   <->
   forall k call,
     nth_error calls k = Some call ->
     transformFeedbackEnabled call = true ->
     exists inputOffset outputOffset count,
       runTest_totals primType (firstn k calls) 0 0 = Ok (inputOffset, outputOffset) /\
       getTransformFeedbackOutputCount primType (numElements call) = Ok count /\
       compare (numElements call) (inputOffset * inputStride) (outputOffset * stride)
       = Ok true /\
       0 <= inputOffset /\ inputOffset + numElements call <= numInputs /\
       0 <= outputOffset /\ outputOffset + count <= numOutputs).
Proof.
  intros Hall Htotals.
  exact (runTest_compareCalls_windows compare primType inputStride stride calls 0 0
           numInputs numOutputs Hall Htotals).
Qed.

Lemma runTest_compare_windows_witness :
  exists inputOffset outputOffset count,
    runTest_totals POINTS (firstn 2 basicPause1) 0 0 = Ok (inputOffset, outputOffset) /\
    getTransformFeedbackOutputCount POINTS 64 = Ok count /\
    (fun _ _ _ : Z => Ok true) 64 (inputOffset * 24) (outputOffset * 8) = Ok true /\
    0 <= inputOffset /\ inputOffset + 64 <= 192 /\
    0 <= outputOffset /\ outputOffset + count <= 128.
Proof.
  assert (Hcalls : Forall (fun call => 0 <= numElements call) basicPause1).
  { repeat constructor; simpl; lia. }
  exact (proj1 (runTest_compare_windows (fun _ _ _ => Ok true) POINTS 24 8 basicPause1
                  192 128 Hcalls eq_refl)
           eq_refl 2%nat (dc 64 true) eq_refl eq_refl).
Defined.

(* ------------------------------------------------------------------ *)
(** ** Captured vertices and expected primitives *)

Lemma returnsZ_Ok (q : Q) (z : Z) : returnsZ (Ok q) z <-> (q == inject_Z z)%Q.
Proof.
  unfold returnsZ. split.
  - intros (q' & Hq & Heq). inversion Hq; subst. exact Heq.
  - intros H. exists q. auto.
Qed.

(** X26. For a non-negative vertex count the number of captured vertices
    is a whole number of primitives of the transform-feedback mode (three
    vertices for the triangle types, two for the line types, one for
    points). The primitive count that getTransformFeedbackPrimitiveCount
    expects of the query is that number of primitives for strips, fans,
    line strips, line loops and points; for TRIANGLES it is that number
    only when there is no vertex, and for LINES only when the vertex count
    is even. *)
Theorem primitive_count_and_output_count (primType : primitiveType) (n : Z)
  (mode : GLprimitive) (count : Z) :
  0 <= n ->
  getTransformFeedbackPrimitiveMode primType = Ok mode ->
  getTransformFeedbackOutputCount primType n = Ok count ->
  exists primitives,
    0 <= primitives /\
    count = primitives * verticesPerPrimitive mode /\
    (returnsZ (getTransformFeedbackPrimitiveCount primType n) primitives
     <-> match primType with
         | TRIANGLES => n = 0
         | LINES => Z.even n = true
         | _ => True
         end).
Proof.
  intros Hn Hmode Hcount.
  destruct primType; simpl in Hmode, Hcount; inversion Hmode; inversion Hcount;
    subst mode count; clear Hmode Hcount; cbn [verticesPerPrimitive];
    unfold getTransformFeedbackPrimitiveCount; try rewrite js_mod_nonneg by lia.
  - exists (n / 3). split; [apply Z.div_pos; lia |].
    split; [pose proof (Z.div_mod n 3); lia |].
    rewrite returnsZ_Ok. unfold Qeq, Qminus, Qplus, Qopp, Qdiv, Qmult, Qinv, inject_Z.
    simpl. pose proof (Z.div_mod n 3). pose proof (Z.mod_pos_bound n 3). split; intros; lia.
  - exists (Z.max 0 (n - 2)). split; [lia |]. split; [reflexivity |].
    rewrite returnsZ_Ok. split; [auto | reflexivity].
  - exists (Z.max 0 (n - 2)). split; [lia |]. split; [reflexivity |].
    rewrite returnsZ_Ok. split; [auto | reflexivity].
  - exists (n / 2). split; [apply Z.div_pos; lia |].
    split; [pose proof (Z.div_mod n 2); lia |].
    rewrite returnsZ_Ok. unfold Qeq, Qminus, Qplus, Qopp, Qdiv, Qmult, Qinv, inject_Z.
    simpl. pose proof (Z.div_mod n 2). pose proof (Z.mod_pos_bound n 2).
    rewrite Zeven_mod. split; intros H1.
    + apply Z.eqb_eq. lia.
    + apply Z.eqb_eq in H1. lia.
  - exists (Z.max 0 (n - 1)). split; [lia |]. split; [reflexivity |].
    rewrite returnsZ_Ok. split; [auto | reflexivity].
  - exists (if 1 <? n then n else 0). split; [destruct (1 <? n); lia |].
    split; [destruct (1 <? n); lia |].
    rewrite returnsZ_Ok. split; [auto |]. intros _. destruct (1 <? n); reflexivity.
  - exists n. split; [lia |]. split; [lia |].
    rewrite returnsZ_Ok. split; [auto | reflexivity].
Qed.

Lemma primitive_count_and_output_count_witness :
  exists primitives,
    0 <= primitives /\
    4 = primitives * verticesPerPrimitive GL_LINES /\
    (returnsZ (getTransformFeedbackPrimitiveCount LINES 5) primitives
     <-> Z.even 5 = true).
Proof.
  exact (primitive_count_and_output_count LINES 5 GL_LINES 4 ltac:(lia) eq_refl eq_refl).
Defined.

(* ------------------------------------------------------------------ *)
(** ** The support check and the layout *)

(** A loop that counts the sub-types makes as many turns as a loop whose
    body adds one to a measure of its state each turn. *)
Lemma forEach_counts {A : Type} (isExpanded : VarType -> bool)
  (body : SubTypeIterator -> A -> result A) (measure : A -> Z) :
  (forall it acc acc', body it acc = Ok acc' -> measure acc' = measure acc + 1) ->
  forall fuel it acc res total,
    forEach isExpanded fuel it body acc = Some (Ok res) ->
    forEach isExpanded fuel it (fun _ t => Ok (t + 1)) total
    = Some (Ok (total + (measure res - measure acc))).
Proof.
  intros Hbody. induction fuel as [| fuel IH]; intros it acc res total H; simpl in H |- *.
  - destruct (iterator_end it); [| discriminate]. inversion H; subst. do 2 f_equal. lia.
  - destruct (iterator_end it); [inversion H; subst; do 2 f_equal; lia |].
    destruct (body it acc) as [acc' |] eqn:Eb; [| discriminate].
    destruct (next isExpanded (S fuel) it) as [[it' |] |]; try discriminate.
    rewrite (IH it' acc' res (total + 1) H). apply Hbody in Eb. do 2 f_equal. lia.
Qed.

Lemma forEachSubType_counts {A : Type} (isExpanded : VarType -> bool)
  (body : SubTypeIterator -> A -> result A) (measure : A -> Z) :
  (forall it acc acc', body it acc = Ok acc' -> measure acc' = measure acc + 1) ->
  forall fuel type acc res total,
    forEachSubType isExpanded fuel type body acc = Some (Ok res) ->
    forEachSubType isExpanded fuel type (fun _ t => Ok (t + 1)) total
    = Some (Ok (total + (measure res - measure acc))).
Proof.
  intros Hbody fuel type acc res total H. unfold forEachSubType in H |- *.
  destruct (newSubTypeIterator isExpanded fuel type) as [[it |] |]; try discriminate.
  eapply forEach_counts; eauto.
Qed.

Lemma computeInputLayout_body_counts (varyingName : string) (it : SubTypeIterator)
  (st st' : list Attribute * Z) :
  computeInputLayout_body varyingName it st = Ok st' ->
  attributeCount st' = attributeCount st + 1.
Proof.
  intros H. apply computeInputLayout_body_appends in H. destruct H as [a Ha].
  unfold attributeCount. rewrite Ha, length_app. simpl. lia.
Qed.

Lemma isProgramSupported_attribs_counts (fuel : nat) :
  forall varyings st st' total,
    computeInputLayout_varyings fuel varyings st = Some (Ok st') ->
    isProgramSupported_attribs fuel varyings total
    = Some (Ok (total + (attributeCount st' - attributeCount st))).
Proof.
  induction varyings as [| v rest IH]; intros st st' total H; simpl in H |- *.
  - inversion H; subst. do 2 f_equal. lia.
  - destruct (forEachSubType VectorTypeIterator_isExpanded fuel (varying_type v)
                (computeInputLayout_body (varying_name v)) st) as [[st1 |] |] eqn:Ef;
      try discriminate.
    rewrite (forEachSubType_counts VectorTypeIterator_isExpanded
               (computeInputLayout_body (varying_name v)) attributeCount
               (computeInputLayout_body_counts (varying_name v))
               fuel (varying_type v) st st1 total Ef).
    simpl. rewrite (IH st1 st' _ H). do 2 f_equal. lia.
Qed.

Lemma not_inherited (name : string) :
  ~ In name inheritedKeys -> existsb (String.eqb name) inheritedKeys = false.
Proof.
  intros H. destruct (existsb (String.eqb name) inheritedKeys) eqn:E; [| reflexivity].
  exfalso. apply H. apply existsb_exists in E. destruct E as (k & Hin & Hk).
  apply String.eqb_eq in Hk. subst k. exact Hin.
Qed.

(** The components the support check counts for a captured name are the
    scalar size of the output made for it. *)
Lemma isProgramSupported_numComponents_output (fuel : nat) (usePointSize : bool)
  (others : list Attribute) (varyings : list Varying) (name : string)
  (type : VarType) (inputs : list (option Attribute)) :
  ~ In name inheritedKeys ->
  (name = "gl_PointSize" -> usePointSize = true) ->
  computeTransformFeedbackOutputs_output fuel
    (mkAttribute "a_position" (TypeBasic FLOAT_VEC4 PRECISION_HIGHP) 0
     :: (if usePointSize
         then [mkAttribute "a_pointSize" (TypeBasic FLOAT PRECISION_HIGHP) 16]
         else [])
     ++ others) varyings name
  = Some (Ok (type, inputs)) ->
  isProgramSupported_numComponents varyings name
  = Some (size <- getScalarSize type ;; Ok (Some size)).
Proof.
  intros Hkey Hpoint H.
  unfold computeTransformFeedbackOutputs_output in H.
  unfold isProgramSupported_numComponents.
  destruct (String.eqb name "gl_Position") eqn:Epos.
  - simpl in H. inversion H; subst. reflexivity.
  - destruct (String.eqb name "gl_PointSize") eqn:Esize.
    + apply String.eqb_eq in Esize. rewrite (Hpoint Esize) in H. simpl in H.
      inversion H; subst. reflexivity.
    + rewrite (not_inherited name Hkey).
      destruct (parseVariableName name) as [varName |]; simpl in H |- *;
        [| discriminate].
      destruct (findAttributeNameEquals varying_name varyings varName) as [varying |];
        simpl in H |- *; [| discriminate].
      destruct (parseTypePath name (varying_type varying)) as [[varPath |] |];
        simpl in H |- *; try discriminate.
      destruct (getVarType (varying_type varying) varPath) as [t |]; simpl in H |- *;
        [| discriminate].
      apply andThen_Ok in H. destruct H as (ins & _ & H). inversion H; subst.
      reflexivity.
Qed.

Section SupportCheck.

Variable fuel : nat.
Variable limits : Limits.
Variable varyings : list Varying.
Variable tfMode : Z.
Variable usePointSize : bool.
Variable others : list Attribute.

Hypothesis known_mode : tfMode = SEPARATE_ATTRIBS \/ tfMode = INTERLEAVED_ATTRIBS.

Lemma isProgramSupported_varyings_outputs :
  forall names varNdx accumulatedSize outputs res components attribs,
    Forall (fun name => ~ In name inheritedKeys) names ->
    (In "gl_PointSize" names -> usePointSize = true) ->
    computeTransformFeedbackOutputs_loop fuel
      (mkAttribute "a_position" (TypeBasic FLOAT_VEC4 PRECISION_HIGHP) 0
       :: (if usePointSize
           then [mkAttribute "a_pointSize" (TypeBasic FLOAT PRECISION_HIGHP) 16]
           else [])
       ++ others) varyings (tfMode =? SEPARATE_ATTRIBS) names varNdx accumulatedSize
      outputs
    = Some (Ok res) ->
    exists new,
      res = outputs ++ new /\
      isProgramSupported_varyings limits varyings tfMode names (Some components) attribs
      = Some (Ok (if tfMode =? SEPARATE_ATTRIBS
                  then forallb (fun out => outputBytes out
                                           <=? 4 * maxTfSeparateComponents limits) new
                       && (attribs + Z.of_nat (List.length new)
                           <=? maxTfSeparateAttribs limits)
                  else 4 * components + sumBytes new
                       <=? 4 * maxTfInterleavedComponents limits)).
Proof.
  induction names as [| name rest IH];
    intros varNdx acc outputs res components attribs Hkeys Hpoint H.
  - simpl in H. inversion H; subst. exists []. rewrite app_nil_r. split; [reflexivity |].
    cbn [isProgramSupported_varyings js_gt forallb List.length sumBytes map fold_right].
    destruct known_mode as [-> | ->]; cbn [Z.eqb SEPARATE_ATTRIBS INTERLEAVED_ATTRIBS
                                            Pos.eqb andb].
    + change (35981 =? 35981) with true. cbn [andb].
      destruct (Z.ltb_spec (maxTfSeparateAttribs limits) attribs);
        destruct (Z.leb_spec (attribs + Z.of_nat 0) (maxTfSeparateAttribs limits));
        try lia; try reflexivity.
    + change (35980 =? 35981) with false. change (35980 =? 35980) with true. cbn [andb].
      destruct (Z.ltb_spec (maxTfInterleavedComponents limits) components);
        destruct (Z.leb_spec (4 * components + 0) (4 * maxTfInterleavedComponents limits));
        try lia; reflexivity.
  - inversion Hkeys as [| ? ? Hkey Hrest]; subst.
    cbn [computeTransformFeedbackOutputs_loop] in H.
    apply andThen_Ok in H. destruct H as ([type inputs] & Hout & H).
    cbn [fst snd andThen out_type] in H.
    destruct (getScalarSize type) as [size |] eqn:Hsize; [| discriminate].
    apply (IH _ _ _ _ (components + size) (attribs + 1)) in H;
      [| exact Hrest | intros Hin; apply Hpoint; right; exact Hin].
    destruct H as (new & Hres & Hsupported).
    match type of Hres with
    | res = (outputs ++ [?o]) ++ new => exists (o :: new); set (out := o) in *
    end.
    split; [rewrite Hres, <- app_assoc; reflexivity |].
    cbn [isProgramSupported_varyings].
    rewrite (isProgramSupported_numComponents_output fuel usePointSize others varyings
               name type inputs Hkey
               (fun Hname => Hpoint (or_introl Hname)) Hout).
    rewrite Hsize. cbn [bind andThen js_gt js_add]. rewrite Hsupported.
    assert (Hbytes : outputBytes out = size * 4).
    { unfold outputBytes, out. cbn [out_type]. rewrite Hsize. reflexivity. }
    cbn [forallb List.length]. unfold sumBytes. cbn [map fold_right].
    fold (sumBytes new). rewrite Hbytes.
    destruct known_mode as [-> | ->].
    + change (SEPARATE_ATTRIBS =? SEPARATE_ATTRIBS) with true. cbn [andb].
      destruct (Z.ltb_spec (maxTfSeparateComponents limits) size);
        destruct (Z.leb_spec (size * 4) (4 * maxTfSeparateComponents limits));
        try lia; cbn [andb]; [reflexivity |].
      do 3 f_equal. rewrite Nat2Z.inj_succ. f_equal. lia.
    + change (INTERLEAVED_ATTRIBS =? SEPARATE_ATTRIBS) with false. cbn [andb].
      do 2 f_equal. f_equal. lia.
Qed.

End SupportCheck.

(** X27. isProgramSupported counts what init lays out. For a program
    whose input layout and outputs init can compute, in separate or in
    interleaved mode and with no captured name that is a key inherited from
    Object.prototype, isProgramSupported returns, and it answers true
    exactly when the layout has no more attributes than MAX_VERTEX_ATTRIBS
    and, in separate mode, every output has at most
    MAX_TRANSFORM_FEEDBACK_SEPARATE_COMPONENTS components and there are at
    most MAX_TRANSFORM_FEEDBACK_SEPARATE_ATTRIBS outputs, or, in interleaved
    mode, the outputs together have at most
    MAX_TRANSFORM_FEEDBACK_INTERLEAVED_COMPONENTS components. *)
Theorem isProgramSupported_agrees_with_layout (fuel : nat) (limits : Limits)
  (spec : ProgramSpec) (tfMode : Z) (attributes : list Attribute) (stride : Z)
  (outputs : list Output) :
  tfMode = SEPARATE_ATTRIBS \/ tfMode = INTERLEAVED_ATTRIBS ->
  Forall (fun name => ~ In name inheritedKeys) (getTransformFeedbackVaryings spec) ->
  computeInputLayout fuel [] (getVaryings spec) (isPointSizeUsed spec)
  = Some (Ok (attributes, stride)) ->
  computeTransformFeedbackOutputs fuel [] attributes (getVaryings spec)
    (getTransformFeedbackVaryings spec) (tfMode =? SEPARATE_ATTRIBS)
  = Some (Ok outputs) ->
  isProgramSupported fuel limits spec tfMode
  = Some (Ok (withinLimits limits tfMode attributes outputs)).
Proof.
  intros Hmode Hkeys Hlayout Houtputs.
  pose proof (computeInputLayout_returns_layout _ _ _ _ _ Hlayout) as [_ [others Hattrs]].
  unfold isProgramSupported, withinLimits.
  unfold computeInputLayout in Hlayout.
  match type of Hlayout with
  | computeInputLayout_varyings _ _ ?start = _ =>
      rewrite (isProgramSupported_attribs_counts fuel (getVaryings spec) start
                 (attributes, stride) (1 + (if isPointSizeUsed spec then 1 else 0)) Hlayout);
      assert (Hcount : 1 + (if isPointSizeUsed spec then 1 else 0)
                       + (attributeCount (attributes, stride) - attributeCount start)
                       = Z.of_nat (List.length attributes))
  end.
  { unfold attributeCount. destruct (isPointSizeUsed spec); cbn [fst List.length app]; lia. }
  rewrite Hcount. cbn [andThen].
  destruct (Z.ltb_spec (maxVertexAttribs limits) (Z.of_nat (List.length attributes)));
    destruct (Z.leb_spec (Z.of_nat (List.length attributes)) (maxVertexAttribs limits));
    try lia; cbn [andb]; [reflexivity |].
  unfold computeTransformFeedbackOutputs in Houtputs. rewrite Hattrs in Houtputs.
  apply (isProgramSupported_varyings_outputs fuel limits (getVaryings spec) tfMode
           (isPointSizeUsed spec) others Hmode _ _ _ _ _ 0 0 Hkeys) in Houtputs.
  - destruct Houtputs as (new & Hres & Hsupported). simpl in Hres. subst new.
    rewrite Hsupported. reflexivity.
  - intros Hin. unfold isPointSizeUsed. apply existsb_exists.
    exists "gl_PointSize". split; [exact Hin | reflexivity].
Qed.

Lemma isProgramSupported_agrees_with_layout_witness :
  isProgramSupported 2 (mkLimits 16 64 4 4) basicTypeSpec INTERLEAVED_ATTRIBS
  = Some (Ok (withinLimits (mkLimits 16 64 4 4) INTERLEAVED_ATTRIBS basicType_attributes
                basicType_outputs)).
Proof.
  apply (isProgramSupported_agrees_with_layout 2 (mkLimits 16 64 4 4) basicTypeSpec
           INTERLEAVED_ATTRIBS basicType_attributes 24 basicType_outputs).
  - right. reflexivity.
  - repeat constructor; intros H; simpl in H;
      repeat (destruct H as [H | H]; [discriminate H |]); exact H.
  - reflexivity.
  - reflexivity.
Defined.

(* ------------------------------------------------------------------ *)
(** ** What the comparison of an output reads *)

Section CompareWindows.

Variable readInput readInput' : Q -> result Z.
Variable readOutput readOutput' : Z -> result Z.
Variable primType : primitiveType.
Variable numInputs numOutputs : Z.
Variable inputOffset inputStride outputOffset outputStride : Z.

Hypothesis independent : independentPrimitives primType = true.
Hypothesis count : getTransformFeedbackOutputCount primType numInputs = Ok numOutputs.
Hypothesis inputs_nonneg : 0 <= numInputs.
Hypothesis inputStride_nonneg : 0 <= inputStride.
Hypothesis outputStride_nonneg : 0 <= outputStride.

Hypothesis same_input :
  forall (q : Q) (address : Z),
    (q == inject_Z address)%Q ->
    inputOffset <= address < inputOffset + inputStride * numInputs ->
    readInput q = readInput' q.

Hypothesis same_output :
  forall address : Z,
    outputOffset <= address < outputOffset + outputStride * numOutputs ->
    readOutput address = readOutput' address.

Lemma numOutputs_bound : numOutputs <= numInputs.
Proof.
  destruct primType; try discriminate independent; simpl in count; inversion count;
    unfold js_mod.
  - pose proof (Z.rem_nonneg numInputs 3 ltac:(lia) inputs_nonneg). lia.
  - pose proof (Z.rem_nonneg numInputs 2 ltac:(lia) inputs_nonneg). lia.
  - lia.
Qed.

Lemma getAttributeIndex_independent (outNdx : Z) :
  getAttributeIndex primType numInputs outNdx = Ok (inject_Z outNdx).
Proof. destruct primType; try discriminate independent; reflexivity. Qed.

Lemma compare_components_same (scalarType : string) (prec : precision)
  (inputBase : Q) (inputAddress outputBase : Z) :
  (inputBase == inject_Z inputAddress)%Q ->
  forall turns compNdx,
    0 <= compNdx ->
    inputOffset <= inputAddress ->
    inputAddress + (compNdx + Z.of_nat turns) * 4
    <= inputOffset + inputStride * numInputs ->
    outputOffset <= outputBase ->
    outputBase + (compNdx + Z.of_nat turns) * 4
    <= outputOffset + outputStride * numOutputs ->
    compare_components readInput readOutput turns scalarType prec inputBase outputBase
      compNdx
    = compare_components readInput' readOutput' turns scalarType prec inputBase outputBase
        compNdx.
Proof.
  intros Hbase. induction turns as [| turns IH]; intros compNdx Hc Hin1 Hin2 Hout1 Hout2;
    [reflexivity |].
  cbn [compare_components].
  rewrite (same_output (outputBase + compNdx * 4)) by lia.
  destruct (readOutput' (outputBase + compNdx * 4)) as [outWord |]; [| reflexivity].
  cbn [bind].
  rewrite (same_input (inputBase + inject_Z (compNdx * 4))%Q (inputAddress + compNdx * 4)).
  - destruct (readInput' (inputBase + inject_Z (compNdx * 4))%Q) as [inWord |];
      [| reflexivity].
    cbn [bind]. destruct (compareComponent scalarType prec inWord outWord) as [[|] |];
      cbn [bind negb]; try reflexivity.
    apply IH; lia.
  - rewrite Hbase, inject_Z_plus. reflexivity.
  - lia.
Qed.

Lemma compare_vertices_same (numComponents : Z) (scalarType : string) (prec : precision)
  (attributeOffset outOffset : Z) :
  0 <= attributeOffset ->
  attributeOffset + Z.max 0 numComponents * 4 <= inputStride ->
  0 <= outOffset ->
  outOffset + Z.max 0 numComponents * 4 <= outputStride ->
  forall turns outNdx,
    0 <= outNdx ->
    outNdx + Z.of_nat turns <= numOutputs ->
    compare_vertices readInput readOutput turns primType numInputs numComponents
      scalarType prec inputOffset inputStride attributeOffset outputOffset outputStride
      outOffset outNdx
    = compare_vertices readInput' readOutput' turns primType numInputs numComponents
        scalarType prec inputOffset inputStride attributeOffset outputOffset outputStride
        outOffset outNdx.
Proof.
  intros Ha1 Ha2 Ho1 Ho2. pose proof numOutputs_bound as Hbound.
  induction turns as [| turns IH]; intros outNdx Hndx Hturns; [reflexivity |].
  cbn [compare_vertices]. rewrite getAttributeIndex_independent. cbn [bind].
  rewrite (compare_components_same scalarType prec _
             (inputOffset + inputStride * outNdx + attributeOffset)).
  - destruct (compare_components readInput' readOutput' _ _ _ _ _ _) as [[|] |];
      cbn [bind]; try reflexivity.
    apply IH; lia.
  - rewrite !inject_Z_plus, inject_Z_mult. reflexivity.
  - lia.
  - nia.
  - nia.
  - nia.
  - nia.
Qed.

Lemma compare_inputs_same :
  forall inputs isOk outOffset,
    Forall (fun input =>
              exists attribute,
                input = Some attribute /\
                0 <= attr_offset attribute /\
                attr_offset attribute + attributeBytes attribute <= inputStride) inputs ->
    0 <= outOffset ->
    outOffset + inputBytes inputs <= outputStride ->
    compare_inputs readInput readOutput primType numInputs inputOffset inputStride
      outputOffset outputStride inputs isOk outOffset
    = compare_inputs readInput' readOutput' primType numInputs inputOffset inputStride
        outputOffset outputStride inputs isOk outOffset.
Proof.
  induction inputs as [| input rest IH]; intros isOk outOffset Hall Ho1 Ho2;
    [reflexivity |].
  inversion Hall as [| ? ? (attribute & -> & Ha1 & Ha2) Hrest]; subst.
  cbn [compare_inputs found bind].
  unfold inputBytes in Ho2. cbn [map fold_right] in Ho2. fold (inputBytes rest) in Ho2.
  pose proof (attributeBytes_nonneg attribute) as Hbytes.
  assert (Hrestbytes : 0 <= inputBytes rest).
  { clear - Hrest. induction Hrest as [| x l (a & -> & _) _ IHl]; unfold inputBytes;
      cbn [map fold_right]; [lia |]. fold (inputBytes l).
    pose proof (attributeBytes_nonneg a). lia. }
  unfold attributeBytes in Ha2, Ho2, Hbytes.
  unfold getBasicType, getPrecision.
  destruct (attr_type attribute) as [b p | |]; cbn [isBasicType DE_ASSERT bind];
    try reflexivity.
  destruct (getDataTypeScalarSize b) as [numComponents |] eqn:Hsize; cbn [bind];
    [| reflexivity].
  destruct (getDataTypeScalarType b) as [scalarType |]; cbn [bind]; [| reflexivity].
  rewrite count. cbn [bind].
  assert (Hpos : 0 <= numComponents).
  { destruct b; simpl in Hsize; inversion Hsize; lia. }
  assert (Hloop :
            (if isOk
             then compare_vertices readInput readOutput (Z.to_nat numOutputs) primType
                    numInputs numComponents scalarType p inputOffset inputStride
                    (attr_offset attribute) outputOffset outputStride outOffset 0
             else Ok false)
            = (if isOk
               then compare_vertices readInput' readOutput' (Z.to_nat numOutputs) primType
                      numInputs numComponents scalarType p inputOffset inputStride
                      (attr_offset attribute) outputOffset outputStride outOffset 0
               else Ok false)).
  { destruct isOk; [| reflexivity].
    pose proof (getTransformFeedbackOutputCount_nonneg _ _ _ inputs_nonneg count).
    apply compare_vertices_same; lia. }
  rewrite Hloop.
  match goal with |- bind ?r _ = _ => destruct r as [isOk' |] end; cbn [bind];
    [| reflexivity].
  apply IH; [exact Hrest | lia | lia].
Qed.

End CompareWindows.

(** X28. The comparison of an output first makes a view of each whole
    buffer, the input's before the output's: a buffer whose byte length is
    not a multiple of 4 makes it throw a RangeError before anything is
    read. Past that, for TRIANGLES, LINES and POINTS it reads only its own
    windows of the two buffers: the input records of the call (numInputs
    records of the input stride from the input offset) and the captured
    records of the call (as many records of the output stride from the
    output offset as vertices are captured). If every input of the output
    is an attribute that lies inside the input record and the inputs
    together fit behind the output's offset inside the output record, then
    two pairs of buffers that agree on these windows, and whose byte
    lengths are multiples of 4 alike, give the same answer or the same
    exception; what lies outside the windows, the guard band included, is
    not read. *)
Theorem compareTransformFeedbackOutput_reads_its_windows
  (readInput readInput' : Q -> result Z) (readOutput readOutput' : Z -> result Z)
  (inputByteLength inputByteLength' outputByteLength outputByteLength' : Z)
  (primType : primitiveType) (output : Output) (numInputs numOutputs : Z)
  (inputOffset inputStride outputOffset outputStride : Z) :
  independentPrimitives primType = true ->
  getTransformFeedbackOutputCount primType numInputs = Ok numOutputs ->
  0 <= numInputs ->
  0 <= inputStride ->
  Forall (fun input =>
            exists attribute,
              input = Some attribute /\
              0 <= attr_offset attribute /\
              attr_offset attribute + attributeBytes attribute <= inputStride)
    (out_inputs output) ->
  0 <= out_offset output ->
  out_offset output + inputBytes (out_inputs output) <= outputStride ->
  (inputByteLength mod 4 = 0 <-> inputByteLength' mod 4 = 0) ->
  (outputByteLength mod 4 = 0 <-> outputByteLength' mod 4 = 0) ->
  (forall (q : Q) (address : Z),
      (q == inject_Z address)%Q ->
      inputOffset <= address < inputOffset + inputStride * numInputs ->
      readInput q = readInput' q) ->
  (forall address : Z,
      outputOffset <= address < outputOffset + outputStride * numOutputs ->
      readOutput address = readOutput' address) ->
  compareTransformFeedbackOutput readInput readOutput inputByteLength outputByteLength
    primType output numInputs inputOffset inputStride outputOffset outputStride
  = compareTransformFeedbackOutput readInput' readOutput' inputByteLength'
      outputByteLength' primType output numInputs inputOffset inputStride outputOffset
      outputStride /\
  (inputByteLength mod 4 <> 0 \/ outputByteLength mod 4 <> 0 ->
   compareTransformFeedbackOutput readInput readOutput inputByteLength outputByteLength
     primType output numInputs inputOffset inputStride outputOffset outputStride
   = Throw "RangeError").
Proof.
  intros Hindependent Hcount Hinputs Hstride Hall Hoff Hfit Hlen_in Hlen_out
    Hsame_in Hsame_out.
  unfold compareTransformFeedbackOutput, Uint32Array_view.
  destruct (Z.eqb_spec (inputByteLength mod 4) 0) as [Hi | Hi];
    destruct (Z.eqb_spec (inputByteLength' mod 4) 0) as [Hi' | Hi'];
    try (exfalso; tauto); cbn [bind];
    [| split; [reflexivity | intros _; reflexivity]].
  destruct (Z.eqb_spec (outputByteLength mod 4) 0) as [Ho | Ho];
    destruct (Z.eqb_spec (outputByteLength' mod 4) 0) as [Ho' | Ho'];
    try (exfalso; tauto); cbn [bind];
    [| split; [reflexivity | intros _; reflexivity]].
  split; [| intros [H | H]; contradiction].
  assert (Hout : 0 <= outputStride).
  { assert (0 <= inputBytes (out_inputs output)); [| lia].
    clear - Hall. induction Hall as [| x l (a & -> & _) _ IHl]; unfold inputBytes;
      cbn [map fold_right]; [lia |]. fold (inputBytes l).
    pose proof (attributeBytes_nonneg a). lia. }
  apply (compare_inputs_same readInput readInput' readOutput readOutput' primType
           numInputs numOutputs inputOffset inputStride outputOffset outputStride
           Hindependent Hcount Hinputs Hstride Hout Hsame_in Hsame_out);
    assumption.
Qed.

Lemma compareTransformFeedbackOutput_reads_its_windows_witness :
  compareTransformFeedbackOutput (fun q => zeroWords (Qfloor q)) zeroWords 96 32
    POINTS out_varB 3 0 24 0 8
  = compareTransformFeedbackOutput (fun q => zeroWordsWithin 72 (Qfloor q))
      (zeroWordsWithin 24) 72 24 POINTS out_varB 3 0 24 0 8.
Proof.
  refine (proj1 (compareTransformFeedbackOutput_reads_its_windows
                   (fun q => zeroWords (Qfloor q))
                   (fun q => zeroWordsWithin 72 (Qfloor q))
                   zeroWords (zeroWordsWithin 24) 96 72 32 24 POINTS out_varB 3 3
                   0 24 0 8 _ _ _ _ _ _ _ _ _ _ _)).
  - reflexivity.
  - reflexivity.
  - lia.
  - lia.
  - repeat constructor. exists a_varB. simpl. repeat split; lia.
  - simpl. lia.
  - simpl. lia.
  - split; reflexivity.
  - split; reflexivity.
  - intros q address Hq Hwindow. rewrite (Qfloor_comp q (inject_Z address) Hq), Qfloor_Z.
    unfold zeroWords, zeroWordsWithin.
    destruct (Z.leb_spec 0 address); [| lia]. destruct (Z.ltb_spec address 72); [| lia].
    reflexivity.
  - intros address Hwindow. unfold zeroWords, zeroWordsWithin.
    destruct (Z.leb_spec 0 address); [| lia]. destruct (Z.ltb_spec address 24); [| lia].
    reflexivity.
Defined.

(* ------------------------------------------------------------------ *)
(** ** The pixels of a surface *)

Lemma storeAt_length (value : Z) :
  forall bytes index, List.length (storeAt bytes index value) = List.length bytes.
Proof.
  induction bytes as [| b rest IH]; intros [| index]; simpl; auto.
Qed.

Lemma storeAt_same (value : Z) :
  forall bytes index,
    (index < List.length bytes)%nat ->
    nth_error (storeAt bytes index value) index = Some (value mod 256).
Proof.
  induction bytes as [| b rest IH]; intros [| index] H; simpl in *; try lia; auto.
  apply IH. lia.
Qed.

Lemma storeAt_other (value : Z) :
  forall bytes index other,
    index <> other ->
    nth_error (storeAt bytes index value) other = nth_error bytes other.
Proof.
  induction bytes as [| b rest IH]; intros [| index] [| other] H; simpl; auto;
    try contradiction.
Qed.

Lemma storeByte_length (bytes : list Z) (index value : Z) :
  List.length (storeByte bytes index value) = List.length bytes.
Proof. unfold storeByte. destruct (index <? 0); [reflexivity | apply storeAt_length]. Qed.

Lemma loadByte_storeByte_same (bytes : list Z) (index value : Z) :
  0 <= index < Z.of_nat (List.length bytes) ->
  loadByte (storeByte bytes index value) index = Some (value mod 256).
Proof.
  intros H. unfold loadByte, storeByte.
  destruct (Z.ltb_spec index 0); [lia |]. apply storeAt_same. lia.
Qed.

Lemma loadByte_storeByte_other (bytes : list Z) (index other value : Z) :
  index <> other ->
  loadByte (storeByte bytes index value) other = loadByte bytes other.
Proof.
  intros H. unfold loadByte, storeByte.
  destruct (Z.ltb_spec other 0); [reflexivity |].
  destruct (Z.ltb_spec index 0); [reflexivity |].
  apply storeAt_other. lia.
Qed.

(** Two pixels inside a surface with the same offset are the same. *)
Lemma pixel_offset_injective (width x y x' y' : Z) :
  0 <= x < width -> 0 <= x' < width ->
  x + y * width = x' + y' * width -> x = x' /\ y = y'.
Proof.
  intros Hx Hx' H.
  assert (Hy : y = y').
  { destruct (Z.lt_trichotomy y y') as [Hlt | [Heq | Hgt]]; [| exact Heq |]; nia. }
  subst y'. split; [lia | reflexivity].
Qed.

Lemma inside_passes (x y width height : Z) :
  0 <= x < width -> 0 <= y < height ->
  DE_ASSERT (deInBounds32 x 0 width) = Ok tt /\
  DE_ASSERT (deInBounds32 y 0 height) = Ok tt.
Proof.
  intros Hx Hy. unfold DE_ASSERT, deInBounds32.
  destruct (Z.leb_spec 0 x); [| lia]. destruct (Z.ltb_spec x width); [| lia].
  destruct (Z.leb_spec 0 y); [| lia]. destruct (Z.ltb_spec y height); [| lia].
  auto.
Qed.

(** X29. On a surface that holds four bytes for each pixel (as every
    surface made with a positive width and height does), setPixel at a
    pixel inside the surface returns and keeps the size; getPixel at that
    pixel then gives the four channels of the color modulo 256 (an absent
    channel as 0), and getPixel at every other pixel inside the surface
    gives what it gave before. At a pixel outside the surface setPixel and
    getPixel throw 'Assert failed'. *)
Theorem Surface_setPixel_getPixel (this : Surface) (x y : Z) (color : list Z) :
  surface_ok this ->
  (0 <= x < surface_width this -> 0 <= y < surface_height this ->
   exists this',
     setPixel this x y color = Ok this' /\
     surface_ok this' /\
     surface_width this' = surface_width this /\
     surface_height this' = surface_height this /\
     getPixel this' x y
     = Ok [Some (channel color 0 mod 256); Some (channel color 1 mod 256);
           Some (channel color 2 mod 256); Some (channel color 3 mod 256)] /\
     forall x' y',
       0 <= x' < surface_width this -> 0 <= y' < surface_height this ->
       (x', y') <> (x, y) ->
       getPixel this' x' y' = getPixel this x' y') /\
  (deInBounds32 x 0 (surface_width this) && deInBounds32 y 0 (surface_height this) = false ->
   setPixel this x y color = Throw "Assert failed" /\
   getPixel this x y = Throw "Assert failed").
Proof.
  intros (bytes & Hpixels & Hlength). split.
  - intros Hx Hy.
    destruct (inside_passes x y _ _ Hx Hy) as [Hax Hay].
    unfold setPixel. rewrite Hax, Hay. unfold pixels_of. rewrite Hpixels. cbn [bind].
    eexists. split; [reflexivity |].
    set (width := surface_width this) in *. set (height := surface_height this) in *.
    set (offset := 4 * (x + y * width)).
    assert (Hrange : 0 <= offset /\ offset + 3 < Z.of_nat (List.length bytes)).
    { unfold offset. rewrite Hlength. nia. }
    split.
    { eexists. cbn [surface_pixels surface_width surface_height].
      split; [reflexivity |]. rewrite !storeByte_length. exact Hlength. }
    split; [reflexivity |]. split; [reflexivity |]. split.
    + unfold getPixel. cbn [surface_pixels surface_width surface_height].
      fold width height. rewrite Hax, Hay. unfold pixels_of. cbn [bind surface_pixels].
      fold offset.
      repeat first
        [ rewrite loadByte_storeByte_same by (rewrite ?storeByte_length; lia)
        | rewrite loadByte_storeByte_other by lia ].
      reflexivity.
    + intros x' y' Hx' Hy' Hother.
      destruct (inside_passes x' y' _ _ Hx' Hy') as [Hax' Hay'].
      unfold getPixel. cbn [surface_pixels surface_width surface_height].
      fold width height. rewrite Hax', Hay'. unfold pixels_of. rewrite Hpixels.
      cbn [bind surface_pixels].
      assert (Hfar : x + y * width <> x' + y' * width).
      { intros Heq. apply Hother.
        destruct (pixel_offset_injective width x y x' y' Hx Hx' Heq) as [-> ->].
        reflexivity. }
      fold offset.
      repeat rewrite loadByte_storeByte_other by (unfold offset; lia).
      reflexivity.
  - intros Hout. unfold setPixel, getPixel, DE_ASSERT.
    destruct (deInBounds32 x 0 (surface_width this)); cbn [bind];
      [| split; reflexivity].
    simpl in Hout. rewrite Hout. split; reflexivity.
Qed.

Lemma newSurface_ok (width height : Z) :
  0 < width -> 0 < height -> surface_ok (newSurface width height).
Proof.
  intros Hw Hh. unfold surface_ok, newSurface, setSize.
  cbn [surface_pixels surface_width surface_height].
  destruct (Z.ltb_spec 0 (width * height)); [| nia].
  eexists. split; [reflexivity |]. rewrite repeat_length. lia.
Qed.

Lemma Surface_setPixel_getPixel_witness :
  exists this',
    setPixel (newSurface 2 2) 1 1 [300; 1; 2] = Ok this' /\
    getPixel this' 1 1 = Ok [Some 44; Some 1; Some 2; Some 0] /\
    getPixel this' 0 1 = getPixel (newSurface 2 2) 0 1.
Proof.
  destruct (proj1 (Surface_setPixel_getPixel (newSurface 2 2) 1 1 [300; 1; 2]
                     (newSurface_ok 2 2 ltac:(lia) ltac:(lia)))
              ltac:(simpl; lia) ltac:(simpl; lia))
    as (this' & Hset & _ & _ & _ & Hget & Hother).
  exists this'. split; [exact Hset |]. split; [exact Hget |].
  apply Hother; [simpl; lia | simpl; lia | discriminate].
Defined.

(* ------------------------------------------------------------------ *)
(** ** The comparison of an output, component by component *)

(** The test of the innermost loop on two words: it returns, and it is
    the stated test, whatever the precision. *)
Lemma compareComponent_passes (scalarType : string) (prec : precision)
  (inWord outWord : Z) :
  (scalarType = "float" -> prec <> PRECISION_LAST) ->
  0 <= inWord < 2 ^ 32 ->
  0 <= outWord < 2 ^ 32 ->
  exists isEqual,
    compareComponent scalarType prec inWord outWord = Ok isEqual /\
    (isEqual = true <-> componentPasses scalarType inWord outWord).
Proof.
  intros Hprec Hin Hout. unfold compareComponent, componentPasses.
  destruct (String.eqb_spec scalarType "float") as [Hfloat | Hother].
  - specialize (Hprec Hfloat).
    destruct prec; try congruence; eexists; (split; [reflexivity |]); reflexivity.
  - rewrite !Z.mod_small by lia. eexists. split; [reflexivity |]. apply Z.eqb_eq.
Qed.

Lemma getAttributeIndex_returns (primType : primitiveType) (numInputs numOutputs : Z) :
  getTransformFeedbackOutputCount primType numInputs = Ok numOutputs ->
  forall outNdx, exists inNdx, getAttributeIndex primType numInputs outNdx = Ok inNdx.
Proof.
  intros Hcount outNdx. destruct primType; try discriminate Hcount; eexists; reflexivity.
Qed.

Lemma inputBytes_cons (attribute : Attribute) (type : DataType) (prec : precision)
  (numComponents : Z) (rest : list (option Attribute)) :
  attr_type attribute = TypeBasic type prec ->
  getDataTypeScalarSize type = Ok numComponents ->
  inputBytes (Some attribute :: rest) = numComponents * 4 + inputBytes rest.
Proof.
  intros Htype Hsize. unfold inputBytes. cbn [map fold_right].
  unfold attributeBytes. rewrite Htype, Hsize. reflexivity.
Qed.

Section CompareEveryComponent.

Variable inputWords : Q -> Z.
Variable outputWords : Z -> Z.
Variable primType : primitiveType.
Variable numInputs numOutputs : Z.
Variable inputOffset inputStride outputOffset outputStride : Z.

Hypothesis inputWords_range : forall q, 0 <= inputWords q < 2 ^ 32.
Hypothesis outputWords_range : forall address, 0 <= outputWords address < 2 ^ 32.
Hypothesis count : getTransformFeedbackOutputCount primType numInputs = Ok numOutputs.

Lemma compare_components_passes (scalarType : string) (prec : precision)
  (inputBase : Q) (outputBase : Z) :
  (scalarType = "float" -> prec <> PRECISION_LAST) ->
  forall turns compNdx,
  exists isOk,
    compare_components (fun q => Ok (inputWords q)) (fun address => Ok (outputWords address))
      turns scalarType prec inputBase outputBase compNdx = Ok isOk /\
    (isOk = true <->
     forall c,
       compNdx <= c < compNdx + Z.of_nat turns ->
       componentPasses scalarType
         (inputWords (inputBase + inject_Z (c * 4))%Q)
         (outputWords (outputBase + c * 4))).
Proof.
  intros Hprec. induction turns as [| turns IH]; intros compNdx.
  - exists true. split; [reflexivity |]. split; [intros _ c Hc; lia | reflexivity].
  - cbn [compare_components bind].
    destruct (compareComponent_passes scalarType prec
                (inputWords (inputBase + inject_Z (compNdx * 4))%Q)
                (outputWords (outputBase + compNdx * 4))
                Hprec (inputWords_range _) (outputWords_range _))
      as (isEqual & Hreturns & Hequal).
    rewrite Hreturns. cbn [bind]. destruct isEqual; cbn [negb].
    + destruct (IH (compNdx + 1)) as (isOk & Hrest & Hok).
      exists isOk. split; [exact Hrest |]. rewrite Hok. split.
      * intros H c Hc. destruct (Z.eq_dec c compNdx) as [Hsame | Hlater].
        -- subst c. apply Hequal. reflexivity.
        -- apply H. lia.
      * intros H c Hc. apply H. lia.
    + exists false. split; [reflexivity |]. split; [discriminate |].
      intros H. apply Hequal. apply H. lia.
Qed.

Lemma compare_vertices_passes (numComponents : Z) (scalarType : string) (prec : precision)
  (attributeOffset outOffset : Z) :
  (scalarType = "float" -> prec <> PRECISION_LAST) ->
  forall turns outNdx,
  exists isOk,
    compare_vertices (fun q => Ok (inputWords q)) (fun address => Ok (outputWords address))
      turns primType numInputs numComponents scalarType prec inputOffset inputStride
      attributeOffset outputOffset outputStride outOffset outNdx = Ok isOk /\
    (isOk = true <->
     forall o inNdx c,
       outNdx <= o < outNdx + Z.of_nat turns ->
       getAttributeIndex primType numInputs o = Ok inNdx ->
       0 <= c < numComponents ->
       componentPasses scalarType
         (inputWords (inject_Z inputOffset + inject_Z inputStride * inNdx
                      + inject_Z attributeOffset + inject_Z (c * 4))%Q)
         (outputWords (outputOffset + outputStride * o + outOffset + c * 4))).
Proof.
  intros Hprec. induction turns as [| turns IH]; intros outNdx.
  - exists true. split; [reflexivity |]. split; [intros _ o inNdx c Ho; lia | reflexivity].
  - cbn [compare_vertices].
    destruct (getAttributeIndex_returns primType numInputs numOutputs count outNdx)
      as [inNdx Hindex].
    rewrite Hindex. cbn [bind].
    destruct (compare_components_passes scalarType prec
                (inject_Z inputOffset + inject_Z inputStride * inNdx
                 + inject_Z attributeOffset)%Q
                (outputOffset + outputStride * outNdx + outOffset)
                Hprec (Z.to_nat numComponents) 0)
      as (isOk & Hreturns & Hok).
    rewrite Hreturns. cbn [bind]. destruct isOk.
    + destruct (IH (outNdx + 1)) as (isOk & Hrest & Hlater).
      exists isOk. split; [exact Hrest |]. rewrite Hlater. split.
      * intros H o i c Ho Hi Hc. destruct (Z.eq_dec o outNdx) as [Hsame | Hother].
        -- subst o. rewrite Hindex in Hi. injection Hi as <-.
           apply (proj1 Hok eq_refl). lia.
        -- apply H; [lia | exact Hi | exact Hc].
      * intros H o i c Ho Hi Hc. apply H; [lia | exact Hi | exact Hc].
    + exists false. split; [reflexivity |]. split; [discriminate |].
      intros H. apply Hok. intros c Hc. apply (H outNdx inNdx c); [lia | exact Hindex | lia].
Qed.

Lemma compare_inputs_passes :
  forall inputs isOk outOffset,
    Forall comparableInput inputs ->
    exists isOk',
      compare_inputs (fun q => Ok (inputWords q)) (fun address => Ok (outputWords address))
        primType numInputs inputOffset inputStride outputOffset outputStride
        inputs isOk outOffset = Ok isOk' /\
      (isOk' = true <->
       isOk = true /\
       forall k attribute type prec numComponents scalarType,
         nth_error inputs k = Some (Some attribute) ->
         attr_type attribute = TypeBasic type prec ->
         getDataTypeScalarSize type = Ok numComponents ->
         getDataTypeScalarType type = Ok scalarType ->
         forall outNdx inNdx compNdx,
           0 <= outNdx < numOutputs ->
           getAttributeIndex primType numInputs outNdx = Ok inNdx ->
           0 <= compNdx < numComponents ->
           componentPasses scalarType
             (inputWords (inject_Z inputOffset + inject_Z inputStride * inNdx
                          + inject_Z (attr_offset attribute) + inject_Z (compNdx * 4))%Q)
             (outputWords (outputOffset + outputStride * outNdx
                           + (outOffset + inputBytes (firstn k inputs)) + compNdx * 4))).
Proof.
  induction inputs as [| input rest IH]; intros isOk outOffset Hall.
  - exists isOk. split; [reflexivity |]. split; [| tauto].
    intros H. split; [exact H |]. intros [| k] ? ? ? ? ? Hnth; discriminate Hnth.
  - inversion Hall
      as [| ? ? (attribute & type & prec & numComponents & scalarType
                 & -> & Htype & Hsize & Hscalar & Hprec) Hrest]; subst.
    cbn [compare_inputs found bind]. unfold getBasicType, getPrecision.
    rewrite Htype. cbn [isBasicType DE_ASSERT bind].
    rewrite Hsize, Hscalar, count. cbn [bind].
    destruct isOk.
    + destruct (compare_vertices_passes numComponents scalarType prec
                  (attr_offset attribute) outOffset Hprec (Z.to_nat numOutputs) 0)
        as (isOk & Hreturns & Hok).
      rewrite Hreturns. cbn [bind].
      destruct (IH isOk (outOffset + numComponents * 4) Hrest) as (isOk' & Hlater & Hok').
      exists isOk'. split; [exact Hlater |]. rewrite Hok', Hok. split.
      * intros [Hfirst Hothers]. split; [reflexivity |].
        intros k a t p n st Hnth Ha Hn Hst o i c Ho Hi Hc.
        destruct k as [| k].
        -- injection Hnth as <-. rewrite Htype in Ha. injection Ha as <- <-.
           rewrite Hsize in Hn. injection Hn as <-.
           rewrite Hscalar in Hst. injection Hst as <-.
           cbn [firstn]. unfold inputBytes. cbn [map fold_right].
           rewrite Z.add_0_r. apply Hfirst; [lia | exact Hi | exact Hc].
        -- cbn [nth_error] in Hnth. cbn [firstn].
           rewrite (inputBytes_cons attribute type prec numComponents _ Htype Hsize).
           rewrite (Z.add_assoc outOffset (numComponents * 4)).
           apply (Hothers k a t p n st Hnth Ha Hn Hst o i c Ho Hi Hc).
      * intros [_ H]. split.
        -- intros o i c Ho Hi Hc.
           pose proof (H 0%nat attribute type prec numComponents scalarType eq_refl
                         Htype Hsize Hscalar o i c ltac:(lia) Hi Hc) as Hp.
           cbn [firstn] in Hp. unfold inputBytes in Hp. cbn [map fold_right] in Hp.
           rewrite Z.add_0_r in Hp. exact Hp.
        -- intros k a t p n st Hnth Ha Hn Hst o i c Ho Hi Hc.
           pose proof (H (S k) a t p n st Hnth Ha Hn Hst o i c Ho Hi Hc) as Hp.
           cbn [firstn] in Hp.
           rewrite (inputBytes_cons attribute type prec numComponents _ Htype Hsize)
             in Hp.
           rewrite (Z.add_assoc outOffset (numComponents * 4)) in Hp. exact Hp.
    + cbn [bind].
      destruct (IH false (outOffset + numComponents * 4) Hrest) as (isOk' & Hlater & Hok').
      exists isOk'. split; [exact Hlater |]. rewrite Hok'.
      split; intros [H _]; discriminate H.
Qed.

End CompareEveryComponent.

(** C8. On buffers whose byte lengths are multiples of 4 and whose words
    can be read, for inputs that are attributes of basic types (a float
    with one of the three precisions), compareTransformFeedbackOutput
    returns, and it returns true exactly when every component of every
    captured vertex of every input passes: for a float the input value and
    the captured value differ by less than 0.1, with the same test for
    lowp, mediump and highp; for the other scalar types (int, uint) the
    two 32-bit words are the same. The component compNdx of the captured
    vertex outNdx of the input k is read 4 * compNdx bytes behind the
    attribute's offset in the input record getAttributeIndex gives, and as
    far behind the output's offset plus the sizes of the inputs before k
    in the captured record outNdx. *)
Theorem compareTransformFeedbackOutput_compares_every_component
  (inputWords : Q -> Z) (outputWords : Z -> Z) (inputByteLength outputByteLength : Z)
  (primType : primitiveType) (output : Output) (numInputs numOutputs : Z)
  (inputOffset inputStride outputOffset outputStride : Z) :
  (forall q, 0 <= inputWords q < 2 ^ 32) ->
  (forall address, 0 <= outputWords address < 2 ^ 32) ->
  inputByteLength mod 4 = 0 ->
  outputByteLength mod 4 = 0 ->
  getTransformFeedbackOutputCount primType numInputs = Ok numOutputs ->
  Forall comparableInput (out_inputs output) ->
  exists isOk,
    compareTransformFeedbackOutput
      (fun q => Ok (inputWords q)) (fun address => Ok (outputWords address))
      inputByteLength outputByteLength primType output numInputs
      inputOffset inputStride outputOffset outputStride = Ok isOk /\
    (isOk = true <->
     forall k attribute type prec numComponents scalarType,
       nth_error (out_inputs output) k = Some (Some attribute) ->
       attr_type attribute = TypeBasic type prec ->
       getDataTypeScalarSize type = Ok numComponents ->
       getDataTypeScalarType type = Ok scalarType ->
       forall outNdx inNdx compNdx,
         0 <= outNdx < numOutputs ->
         getAttributeIndex primType numInputs outNdx = Ok inNdx ->
         0 <= compNdx < numComponents ->
         let inWord :=
           inputWords (inject_Z inputOffset + inject_Z inputStride * inNdx
                       + inject_Z (attr_offset attribute) + inject_Z (compNdx * 4))%Q in
         let outWord :=
           outputWords (outputOffset + outputStride * outNdx
                        + (out_offset output + inputBytes (firstn k (out_inputs output)))
                        + compNdx * 4) in
         if String.eqb scalarType "float"
         then PrimFloat.ltb
                (PrimFloat.abs (f32_of_bits inWord - f32_of_bits outWord)%float)
                float_0_1 = true
         else inWord = outWord).
Proof.
  intros Hin Hout Hlen_in Hlen_out Hcount Hall.
  unfold compareTransformFeedbackOutput, Uint32Array_view.
  rewrite Hlen_in, Hlen_out. cbn [Z.eqb bind].
  destruct (compare_inputs_passes inputWords outputWords primType numInputs numOutputs
              inputOffset inputStride outputOffset outputStride Hin Hout Hcount
              (out_inputs output) true (out_offset output) Hall)
    as (isOk & Hreturns & Hok).
  exists isOk. split; [exact Hreturns |]. rewrite Hok.
  unfold componentPasses. split.
  - intros [_ H]. exact H.
  - intros H. split; [reflexivity | exact H].
Qed.

Lemma compareTransformFeedbackOutput_compares_every_component_witness :
  compareTransformFeedbackOutput
    (fun q => Ok 0x3F800000) (fun address => Ok 0x3F866666) 72 24
    POINTS out_varB 3 0 24 0 8
  = Ok true.
Proof.
  destruct (compareTransformFeedbackOutput_compares_every_component
              (fun q => 0x3F800000) (fun address => 0x3F866666) 72 24
              POINTS out_varB 3 3 0 24 0 8
              ltac:(intros; lia) ltac:(intros; lia) eq_refl eq_refl eq_refl
              ltac:(repeat constructor; exists a_varB, FLOAT, PRECISION_HIGHP, 1, "float";
                    repeat split; discriminate))
    as (isOk & Hreturns & Hok).
  rewrite Hreturns. f_equal. apply Hok.
  intros k attribute type prec numComponents scalarType Hnth Htype Hsize Hscalar
    outNdx inNdx compNdx _ _ _.
  destruct k as [| [| k]]; try discriminate Hnth.
  injection Hnth as <-. injection Htype as <- <-. injection Hscalar as <-.
  reflexivity.
Defined.

